(** * Playback / lip-sync engine of [services/audio_router.py]

    A shallow embedding of the real-time core of the audio router:

    - [VMCLipSync]: the envelope follower and viseme synthesizer
      ([rms_to_blend_shapes]), the fade-out ([_fade_close]) and
      [close_mouth];
    - [AudioRouter]: the device callback of [play_audio_with_vmc]
      ([audio_callback]), the stream that drives it, the polling
      [vmc_worker] and [play_audio_with_vmc] itself;
    - [ApiServer]: the playback queue of [start_api_server] with its
      single consumer [playback_worker].

    Python floats are idealised as real numbers: every arithmetic
    operation of the source is the exact operation on [R], [math.sin] is
    [sin], [math.pi] is [PI]; a literal such as [6.0] is written [6].
    Indices and frame counts are [nat].
    Sleeping and wall-clock pacing are not modelled; where two threads
    interleave, the interleaving is an explicit schedule. *)

From Stdlib Require Import String.
From Stdlib Require Import Reals Lra Lia List Bool Arith.
Import ListNotations.
Open Scope R_scope.

(* ================================================================== *)
(** * Part I: the program                                              *)
(* ================================================================== *)

Module VMCLipSync.

(** [VOWELS = ['A', 'I', 'U', 'E', 'O']] *)
Inductive vowel : Set := vA | vI | vU | vE | vO.

Definition VOWELS : list vowel := [vA; vI; vU; vE; vO].

(** [FPS = 30] *)
Definition FPS : R := 30.

(** A [dict[str, float]] whose keys are exactly the five vowels, in
    the order of [VOWELS]. *)
Record shapes : Set := mkShapes { wA : R; wI : R; wU : R; wE : R; wO : R }.

Definition get (s : shapes) (v : vowel) : R :=
  match v with
  | vA => wA s | vI => wI s | vU => wU s | vE => wE s | vO => wO s
  end.

(** [{v: f(v) for v in self.VOWELS}] *)
Definition build (f : vowel -> R) : shapes :=
  mkShapes (f vA) (f vI) (f vU) (f vE) (f vO).

Definition zero_shapes : shapes := build (fun _ => 0).

(** The object.  [client] tells whether an OSC client exists
    ([self.client is not None]); [sent] is the sequence of blend-shape
    frames handed to that client (five [/VMC/Ext/Blend/Val] messages
    followed by one [/VMC/Ext/Blend/Apply] each), oldest first. *)
Record t : Type := mk {
  gain : R;
  max_open : R;
  attack : R;
  release : R;
  vowel_speed : R;
  client : bool;
  _envelope : R;
  _vowel_phase : R;
  _frame_count : nat;
  _prev_shapes : shapes;
  sent : list shapes
}.

(** [VMCLipSync.__init__], with an OSC client or without. *)
Definition init (gain max_open attack release vowel_speed : R)
           (has_osc : bool) : t :=
  mk gain max_open attack release vowel_speed has_osc
     0 0 0%nat zero_shapes [].

(** The defaults of [__init__]: gain 6.0, max_open 0.65, attack 0.55,
    release 0.75, vowel_speed 3.5. *)
Definition default : t := init 6 0.65 0.55 0.75 3.5 true.

Definition set_envelope (self : t) (e : R) : t :=
  mk (gain self) (max_open self) (attack self) (release self)
     (vowel_speed self) (client self)
     e (_vowel_phase self) (_frame_count self) (_prev_shapes self)
     (sent self).

Definition set_vowel_phase (self : t) (p : R) : t :=
  mk (gain self) (max_open self) (attack self) (release self)
     (vowel_speed self) (client self)
     (_envelope self) p (_frame_count self) (_prev_shapes self)
     (sent self).

Definition set_frame_count (self : t) (n : nat) : t :=
  mk (gain self) (max_open self) (attack self) (release self)
     (vowel_speed self) (client self)
     (_envelope self) (_vowel_phase self) n (_prev_shapes self)
     (sent self).

Definition set_prev_shapes (self : t) (s : shapes) : t :=
  mk (gain self) (max_open self) (attack self) (release self)
     (vowel_speed self) (client self)
     (_envelope self) (_vowel_phase self) (_frame_count self) s
     (sent self).

(** [_send_blend_shapes]: nothing without a client, otherwise the
    frame goes out. *)
Definition _send_blend_shapes (self : t) (values : shapes) : t :=
  if client self then
    mk (gain self) (max_open self) (attack self) (release self)
       (vowel_speed self) (client self)
       (_envelope self) (_vowel_phase self) (_frame_count self)
       (_prev_shapes self)
       (sent self ++ [values])
  else self.

(** Lines 138-146: the target and the asymmetric one-pole filter on
    the stored [self._envelope]. *)
Definition target_of (self : t) (rms : R) : R :=
  Rmin (max_open self) (rms * gain self).

Definition follow (self : t) (rms : R) : R :=
  let target := target_of self rms in
  if Rlt_dec (_envelope self) target
  then _envelope self + (target - _envelope self) * attack self
  else _envelope self + (target - _envelope self) * (1 - release self).

(** Line 149: the clamp, on a local copy. *)
Definition clamp (self : t) (e : R) : R :=
  Rmax 0 (Rmin (max_open self) e).

(** The five clamped sine lobes of lines 163-167, in the order
    a, e, i, o, u. *)
Definition lobe (phase offset : R) : R :=
  Rmax 0 (sin (phase * 2 * PI + offset)).

Definition lobe_sum (phase : R) : R :=
  lobe phase 0 + lobe phase 1.2 + lobe phase 2.5 + lobe phase 3.8
  + lobe phase 5.

(** Lines 170-172: the divisor. *)
Definition divisor (phase : R) : R :=
  let total := lobe_sum phase in
  if Rlt_dec total 0.01 then 1 else total.

(** Lines 174-180. [raw_a] is [sin (phase * 2 * pi)], that is offset 0. *)
Definition speaking_shapes (phase envelope : R) : shapes :=
  let total := divisor phase in
  mkShapes
    ((lobe phase 0 / total) * envelope)
    ((lobe phase 2.5 / total) * envelope * 0.7)
    ((lobe phase 5 / total) * envelope * 0.75)
    ((lobe phase 1.2 / total) * envelope * 0.85)
    ((lobe phase 3.8 / total) * envelope * 0.9).

(** Lines 183-189: interpolation toward the target shapes and the
    snap to zero. *)
Definition shape_lerp : R := 0.35.

Definition smooth (prev target_shapes : shapes) : shapes :=
  build (fun v =>
           let s := get prev v
                    + (get target_shapes v - get prev v) * shape_lerp in
           if Rlt_dec s 0.005 then 0 else s).

(** [rms_to_blend_shapes]: the new object and the returned
    [envelope]. *)
Definition rms_to_blend_shapes (self : t) (rms : R) : t * R :=
  let self := set_envelope self (follow self rms) in
  let envelope := clamp self (_envelope self) in
  let '(self, envelope, target_shapes) :=
    if Rlt_dec envelope 0.02 then
      (set_vowel_phase self 0, 0, zero_shapes)
    else
      let self :=
        set_vowel_phase self (_vowel_phase self + vowel_speed self / FPS) in
      (self, envelope, speaking_shapes (_vowel_phase self) envelope) in
  let smoothed := smooth (_prev_shapes self) target_shapes in
  let self := set_prev_shapes self smoothed in
  let self := _send_blend_shapes self smoothed in
  let self := set_frame_count self (S (_frame_count self)) in
  (self, envelope).

(** One iteration of the loop of [_fade_close]. *)
Definition fade_of (step : nat) : R := 1 - (INR step + 1) / 8.

Definition fade_step (self : t) (step : nat) : t :=
  let fade := fade_of step in
  let shapes := build (fun v => get (_prev_shapes self) v * fade) in
  let self := set_prev_shapes self shapes in
  _send_blend_shapes self shapes.

(** [close_mouth] *)
Definition close_mouth (self : t) : t :=
  let self := _send_blend_shapes self zero_shapes in
  let self := set_prev_shapes self zero_shapes in
  set_envelope self 0.

(** [_fade_close]: [for step in range(8)], then the three closing
    statements, which are those of [close_mouth]. *)
Definition _fade_close (self : t) : t :=
  close_mouth (fold_left fade_step (seq 0 8) self).

(** Feeding a sequence of loudness samples, one per tick; the
    returned openness of every tick is collected. *)
Fixpoint ticks (self : t) (samples : list R) : t * list R :=
  match samples with
  | [] => (self, [])
  | rms :: rest =>
      let '(self, envelope) := rms_to_blend_shapes self rms in
      let '(self, out) := ticks self rest in
      (self, envelope :: out)
  end.

End VMCLipSync.

Module AudioRouter.

(** The decoded sample array: one-dimensional, or [N x 2] after
    [samples.reshape((-1, 2))] (when [audio_seg.channels == 2]). *)
Inductive ndarray : Type :=
| Mono (xs : list R)
| Stereo (xs : list (R * R)).

(** [len(samples)] *)
Definition len (samples : ndarray) : nat :=
  match samples with
  | Mono xs => length xs
  | Stereo xs => length xs
  end.

(** [xs[start:stop]] for [start <= stop] *)
Definition slice {X : Type} (xs : list X) (start stop : nat) : list X :=
  firstn (stop - start) (skipn start xs).

(** The output array handed to the callback: [frames] rows of
    [channels] columns. *)
Definition buffer : Type := list (list R).

(** [outdata[:] = 0] *)
Definition fill_zero (outdata : buffer) : buffer :=
  map (map (fun _ => 0)) outdata.

(** [outdata[n:] = 0] *)
Definition zero_from (n : nat) (outdata : buffer) : buffer :=
  firstn n outdata ++ fill_zero (skipn n outdata).

(** [outdata[:n] = rows], [rows] having [n] rows *)
Definition assign_rows (n : nat) (rows : list (list R))
           (outdata : buffer) : buffer :=
  rows ++ skipn n outdata.

(** [outdata[:n, 0] = xs], [xs] having [n] entries *)
Fixpoint assign_col0 (xs : list R) (outdata : buffer) : buffer :=
  match xs, outdata with
  | x :: xs', row :: outdata' => (x :: tl row) :: assign_col0 xs' outdata'
  | _, _ => outdata
  end.

Definition row_of (p : R * R) : list R := [fst p; snd p].

(** [float(np.sqrt(np.mean(chunk ** 2)))] *)
Definition sum_sq (chunk : list R) : R :=
  fold_right Rplus 0 (map (fun x => x * x) chunk).

Definition rms_of (chunk : list R) : R :=
  sqrt (sum_sq chunk / INR (length chunk)).

(** The state shared between the callback and the VMC thread:
    [current_rms[0]], [write_pos[0]] and the event [playback_done]. *)
Record cell : Type := mkCell {
  current_rms : R;
  write_pos : nat;
  playback_done : bool
}.

Definition fresh : cell := mkCell 0 0 false.

(** [threading.Event.set] *)
Definition event_set (flag : bool) : bool := true.

(** [audio_callback]: the filled output array, the shared state after
    the call, and whether [sd.CallbackStop] was raised. *)
Definition audio_callback (samples : ndarray) (outdata : buffer)
           (frames : nat) (s : cell) : buffer * cell * bool :=
  let total_samples := len samples in
  let start := write_pos s in
  let end_ := (start + frames)%nat in
  if (total_samples <=? start)%nat then
    (fill_zero outdata,
     mkCell 0 (write_pos s) (event_set (playback_done s)),
     true)
  else
    let end_ := if (total_samples <? end_)%nat then total_samples else end_ in
    let actual := (end_ - start)%nat in
    let '(outdata, mono_chunk) :=
      match samples with
      | Stereo xs =>
          (zero_from actual
             (assign_rows actual (map row_of (slice xs start end_)) outdata),
           map fst (slice xs start end_))
      | Mono xs =>
          (zero_from actual (assign_col0 (slice xs start end_) outdata),
           slice xs start end_)
      end in
    let s := mkCell (rms_of mono_chunk) end_ (playback_done s) in
    if (total_samples <=? end_)%nat then
      (outdata,
       mkCell (current_rms s) (write_pos s) (event_set (playback_done s)),
       true)
    else (outdata, s, false).

(** The output stream: the device asks for one output array after the
    other ([device] lists them; every array has its own number of
    rows) and the callback is invoked on each until it raises
    [CallbackStop].  The result lists the invocations that took place:
    the array as filled and the shared state after the call. *)
Fixpoint stream (samples : ndarray) (device : list buffer) (s : cell)
  : list (buffer * cell) :=
  match device with
  | [] => []
  | outdata :: device' =>
      let '(out, s', stop) :=
        audio_callback samples outdata (length outdata) s in
      if stop then [(out, s')] else (out, s') :: stream samples device' s'
  end.

(** Frames copied by an invocation that took the cursor from the
    state [before] to the state [after]: [actual = end - start]. *)
Definition copied (before after : cell) : nat :=
  (write_pos after - write_pos before)%nat.

Fixpoint total_copied (before : cell) (calls : list (buffer * cell)) : nat :=
  match calls with
  | [] => 0%nat
  | (_, after) :: calls' => (copied before after + total_copied after calls')%nat
  end.

(** What happens while a stream is open: the device invokes the
    callback, the VMC thread of the call wakes up, or a VMC thread that
    an earlier call has left running wakes up.  The threads share the
    router's lip-sync object; one call on it ([rms_to_blend_shapes],
    one step of the fade, the closing statements) is taken as one
    step. *)
Inductive event : Type :=
| Callback (outdata : buffer)
| Tick
| Leaked.

(** The body of [vmc_worker]'s loop: poll the amplitude, update the
    shapes. *)
Definition vmc_tick (s : cell) (vmc : VMCLipSync.t) : VMCLipSync.t :=
  fst (VMCLipSync.rms_to_blend_shapes vmc (current_rms s)).

(** The same loop body in a thread that was left running: the call
    that started it has returned without setting [playback_done], and
    its [current_rms] is still [[0.0]]. *)
Definition leaked_tick (vmc : VMCLipSync.t) : VMCLipSync.t :=
  fst (VMCLipSync.rms_to_blend_shapes vmc 0).

(** [vmc_worker] after its loop: [_fade_close], which sleeps a frame
    after each of its steps, under the rest of the schedule.  At a
    [Tick] the thread takes its next step, and after the last one the
    closing statements; at [Leaked] a thread left running sends its
    frame in between; the callback is not invoked any more.  When the
    schedule ends the thread finishes the fade on its own. *)
Fixpoint fade_among (rest : list event) (steps : list nat)
         (vmc : VMCLipSync.t) : VMCLipSync.t :=
  match rest with
  | [] => VMCLipSync.close_mouth (fold_left VMCLipSync.fade_step steps vmc)
  | Leaked :: rest' => fade_among rest' steps (leaked_tick vmc)
  | Callback _ :: rest' => fade_among rest' steps vmc
  | Tick :: rest' =>
      match steps with
      | [] => VMCLipSync.close_mouth vmc
      | step :: steps' =>
          fade_among rest' steps' (VMCLipSync.fade_step vmc step)
      end
  end.

(** One playback under a schedule: the cell and the lip-sync object at
    its end, and whether [playback_done] has been set.  Once it is set
    the stream is left, the VMC thread leaves its loop and fades the
    mouth closed.  [false]: the schedule ends before the callback has
    signalled completion, that is, the stream has been aborted and the
    callback is not invoked any more. *)
Fixpoint session (samples : ndarray) (schedule : list event)
         (s : cell) (vmc : VMCLipSync.t) : cell * VMCLipSync.t * bool :=
  match schedule with
  | [] => (s, vmc, false)
  | Tick :: schedule' => session samples schedule' s (vmc_tick s vmc)
  | Leaked :: schedule' => session samples schedule' s (leaked_tick vmc)
  | Callback outdata :: schedule' =>
      let '(_, s', stop) :=
        audio_callback samples outdata (length outdata) s in
      if stop then (s', fade_among schedule' (seq 0 8) vmc, true)
      else session samples schedule' s' vmc
  end.

(** Log records: level and message (the interpolated values are left
    out). *)
Inductive level : Set := INFO | WARNING | ERROR.

Definition record : Set := (level * string)%type.

(** What the libraries do during one call of [play_audio_with_vmc]. *)
Inductive environment : Type :=
| DecodeRaises
    (** [AudioSegment.from_file] raises *)
| StreamRaises (samples : ndarray) (polls : nat)
    (** the audio decodes, the VMC thread starts, opening the output
        stream raises; until the [except] branch runs, the silent
        amplitude is polled [polls] times, by that thread and by
        threads left running before.  Nothing stops the thread: see
        [leaves_thread]. *)
| Plays (samples : ndarray) (schedule : list event)
    (** the stream opens and runs under [schedule] *).

(** [play_audio_with_vmc]: the lip-sync object afterwards, the records
    logged, the returned flag.  [None]: the call does not return:
    the stream never signals completion and [playback_done.wait()],
    which has no timeout, blocks (see [hung_call]). *)
Definition play_audio_with_vmc (HAS_PYDUB HAS_SOUNDDEVICE : bool)
           (env : environment) (vmc : VMCLipSync.t)
  : option (VMCLipSync.t * list record * bool) :=
  if negb HAS_PYDUB || negb HAS_SOUNDDEVICE then
    Some (vmc, [(ERROR, "pydub and sounddevice required"%string)], false)
  else
    match env with
    | DecodeRaises =>
        Some (VMCLipSync.close_mouth vmc,
              [(ERROR, "Audio playback failed"%string)],
              false)
    | StreamRaises samples polls =>
        let vmc := fst (VMCLipSync.ticks vmc (repeat 0 polls)) in
        Some (VMCLipSync.close_mouth vmc,
              [(INFO, "Playing with real-time VMC lip sync"%string);
               (ERROR, "Audio playback failed"%string)],
              false)
    | Plays samples schedule =>
        let '(_, vmc, done) := session samples schedule fresh vmc in
        if done then
          Some (vmc,
                [(INFO, "Playing with real-time VMC lip sync"%string);
                 (INFO, "VMC lip sync complete"%string);
                 (INFO, "Audio playback + VMC lip sync complete"%string)],
                true)
        else None
    end.

(** Whether a call that has returned has left its VMC thread running.
    The thread is started before the stream is opened; when opening
    raises, the [except] branch closes the mouth and returns, and
    nothing sets the [playback_done] the thread waits for. *)
Definition leaves_thread (HAS_PYDUB HAS_SOUNDDEVICE : bool)
           (env : environment) : bool :=
  HAS_PYDUB && HAS_SOUNDDEVICE
  && match env with
     | StreamRaises _ _ => true
     | _ => false
     end.

(** What a call that does not return leaves behind when the callbacks
    cease: the lip-sync object, the record logged, and the amplitude
    that its VMC thread goes on polling. *)
Definition hung_call (env : environment) (vmc : VMCLipSync.t)
  : VMCLipSync.t * list record * R :=
  match env with
  | Plays samples schedule =>
      let '(s, vmc, _) := session samples schedule fresh vmc in
      (vmc, [(INFO, "Playing with real-time VMC lip sync"%string)],
       current_rms s)
  | _ => (vmc, [], 0)
  end.

(** An environment as it is while no thread has been left running:
    nothing happens at the turns of such threads. *)
Definition undisturbed (env : environment) : environment :=
  match env with
  | Plays samples schedule =>
      Plays samples (filter (fun e => match e with
                                      | Leaked => false
                                      | _ => true
                                      end) schedule)
  | _ => env
  end.

End AudioRouter.

Module ApiServer.

(** The raw bytes of one request body. *)
Definition bytes : Set := list Byte.byte.

(** What an observer of the worker sees: a playback begins, a
    playback has returned (with the flag it returned). *)
Inductive observation : Set :=
| Started (audio_data : bytes)
| Finished (audio_data : bytes) (ok : bool).

(** The state of [start_api_server]: the [asyncio.Queue], the item
    the worker is playing (it awaits [asyncio.to_thread]), the router's
    lip-sync object, the log, and the observations so far; the number
    of VMC threads that calls have left running; and, when the call in
    flight will never return, the amplitude its VMC thread goes on
    polling. *)
Record t : Type := mk {
  HAS_PYDUB : bool;
  HAS_SOUNDDEVICE : bool;
  playback_queue : list bytes;
  in_flight : option bytes;
  vmc : VMCLipSync.t;
  log : list AudioRouter.record;
  trace : list observation;
  leaked_threads : nat;
  hung : option R
}.

Definition start (has_pydub has_sounddevice : bool) (vmc : VMCLipSync.t) : t :=
  mk has_pydub has_sounddevice [] None vmc [] [] 0 None.

Definition set_vmc (srv : t) (vmc : VMCLipSync.t) : t :=
  mk (HAS_PYDUB srv) (HAS_SOUNDDEVICE srv) (playback_queue srv)
     (in_flight srv) vmc (log srv) (trace srv) (leaked_threads srv)
     (hung srv).

(** [handle_play_bytes]: an empty body is refused; otherwise the body
    is queued and its position [qsize + 1] is returned. *)
Definition handle_play_bytes (srv : t) (audio_data : bytes)
  : t * option nat :=
  match audio_data with
  | [] => (srv, None)
  | _ =>
      let qsize := length (playback_queue srv) in
      (mk (HAS_PYDUB srv) (HAS_SOUNDDEVICE srv)
          (playback_queue srv ++ [audio_data]) (in_flight srv)
          (vmc srv)
          (log srv ++ [(AudioRouter.INFO, "queued for playback"%string)])
          (trace srv) (leaked_threads srv) (hung srv),
       Some (S qsize))
  end.

(** [handle_clear]: the queue is emptied and the number of dropped
    items returned. *)
Definition handle_clear (srv : t) : t * nat :=
  (mk (HAS_PYDUB srv) (HAS_SOUNDDEVICE srv)
      [] (in_flight srv) (vmc srv)
      (log srv ++ [(AudioRouter.INFO, "Cleared items from playback queue"%string)])
      (trace srv) (leaked_threads srv) (hung srv),
   length (playback_queue srv)).

(** [playback_worker], first half of the loop body:
    [audio_data = await playback_queue.get()], then the playback is
    handed to a thread.  The worker sits in [get] while the queue is
    empty and is not at this point while a playback is in flight; the
    call that starts has not hung. *)
Definition worker_get (srv : t) : t :=
  match in_flight srv, playback_queue srv with
  | None, audio_data :: rest =>
      mk (HAS_PYDUB srv) (HAS_SOUNDDEVICE srv)
         rest (Some audio_data) (vmc srv) (log srv)
         (trace srv ++ [Started audio_data]) (leaked_threads srv) None
  | _, _ => srv
  end.

(** The environment of the call in flight: the turns of threads left
    running are empty while there is no such thread. *)
Definition around (srv : t) (env : AudioRouter.environment)
  : AudioRouter.environment :=
  if (leaked_threads srv =? 0)%nat then AudioRouter.undisturbed env else env.

(** [playback_worker], second half: the call of [play_audio_with_vmc]
    in its thread runs under [env].  When it returns, [task_done] is
    called and the loop starts over; a VMC thread it has left running
    is counted.  When it does not return, the worker stays in its
    [await] for good: the item remains in flight and nothing is
    logged or observed but what the call did until the callbacks
    ceased. *)
Definition worker_resume (srv : t) (env : AudioRouter.environment) : t :=
  match in_flight srv, hung srv with
  | Some audio_data, None =>
      let env := around srv env in
      match AudioRouter.play_audio_with_vmc
              (HAS_PYDUB srv) (HAS_SOUNDDEVICE srv) env (vmc srv) with
      | Some (vmc', records, ok) =>
          mk (HAS_PYDUB srv) (HAS_SOUNDDEVICE srv)
             (playback_queue srv) None vmc' (log srv ++ records)
             (trace srv ++ [Finished audio_data ok])
             (leaked_threads srv
              + (if AudioRouter.leaves_thread
                      (HAS_PYDUB srv) (HAS_SOUNDDEVICE srv) env
                 then 1 else 0))
             None
      | None =>
          let '(vmc', records, rms) :=
            AudioRouter.hung_call env (vmc srv) in
          mk (HAS_PYDUB srv) (HAS_SOUNDDEVICE srv)
             (playback_queue srv) (Some audio_data) vmc'
             (log srv ++ records) (trace srv) (leaked_threads srv)
             (Some rms)
      end
  | _, _ => srv
  end.

(** A VMC thread outside any call that returns wakes up: one that was
    left running, or the one of the call that hangs. *)
Definition leaked_tick (srv : t) : t :=
  if (0 <? leaked_threads srv)%nat
  then set_vmc srv (AudioRouter.leaked_tick (vmc srv))
  else srv.

Definition hung_tick (srv : t) : t :=
  match hung srv with
  | Some rms =>
      set_vmc srv (fst (VMCLipSync.rms_to_blend_shapes (vmc srv) rms))
  | None => srv
  end.

(** One turn of the loop of [playback_worker]: take the next item, play
    it, mark it done. *)
Definition playback_worker (srv : t) (env : AudioRouter.environment) : t :=
  worker_resume (worker_get srv) env.

(** What can happen in the process, one at a time: on the event loop
    a request is handled or the worker moves on; beside it a VMC
    thread wakes up. *)
Inductive action : Type :=
| PlayBytes (audio_data : bytes)
| Clear
| WorkerGet
| WorkerResume (env : AudioRouter.environment)
| LeakedTick
| HungTick.

Definition step (srv : t) (a : action) : t :=
  match a with
  | PlayBytes audio_data => fst (handle_play_bytes srv audio_data)
  | Clear => fst (handle_clear srv)
  | WorkerGet => worker_get srv
  | WorkerResume env => worker_resume srv env
  | LeakedTick => leaked_tick srv
  | HungTick => hung_tick srv
  end.

Definition run (srv : t) (actions : list action) : t :=
  fold_left step actions srv.

(** The worker left alone with the queue: one [get] and one playback
    per environment. *)
Definition drain (srv : t) (envs : list AudioRouter.environment) : t :=
  run srv (flat_map (fun env => [WorkerGet; WorkerResume env]) envs).

End ApiServer.

Section Vocabulary.

Import VMCLipSync.

(** The gate of lines 152-153 applied to a clamped value. *)
Definition gated (e : R) : R := if Rlt_dec e 0.02 then 0 else e.

(** Two objects with the same configuration. *)
Definition same_config (x y : t) : Prop :=
  gain x = gain y /\ max_open x = max_open y /\ attack x = attack y
  /\ release x = release y /\ vowel_speed x = vowel_speed y
  /\ client x = client y.

(** A closed mouth with weight 0.5 left on shape A. *)
Definition half_open_A : t :=
  set_prev_shapes default (mkShapes 0.5 0 0 0 0).

(** A frame with every weight multiplied by [fade]. *)
Definition scaled (frame : shapes) (fade : R) : shapes :=
  build (fun v => get frame v * fade).

(** The frames of a fade that starts from [frame]: every frame is the
    one before it scaled by [1 - (step + 1) / 8]. *)
Fixpoint fade_frames (frame : shapes) (steps : list nat) : list shapes :=
  match steps with
  | [] => []
  | step :: steps' =>
      let next := scaled frame (1 - (INR step + 1) / 8) in
      next :: fade_frames next steps'
  end.

Fixpoint strictly_decreasing (xs : list R) : Prop :=
  match xs with
  | x :: (y :: _) as rest => y < x /\ strictly_decreasing rest
  | _ => True
  end.

(** The object after [n] ticks at the constant loudness [rms]. *)
Definition hold (self : t) (rms : R) (n : nat) : t :=
  Nat.iter n (fun s => fst (rms_to_blend_shapes s rms)) self.

(** The openness returned by tick number [n] (counted from 1) at the
    constant loudness [rms]. *)
Definition openness_of_tick (self : t) (rms : R) (n : nat) : R :=
  snd (rms_to_blend_shapes (hold self rms (pred n)) rms).

Definition within_one_percent (target level : R) : Prop :=
  Rabs (level - target) <= 0.01 * target.

(** [n] is the number of ticks at loudness [rms] after which the stored
    level is within 1% of the target for the first time. *)
Definition rise_ticks (self : t) (rms : R) (n : nat) : Prop :=
  within_one_percent (target_of self rms) (_envelope (hold self rms n))
  /\ forall k, (k < n)%nat ->
               ~ within_one_percent (target_of self rms)
                   (_envelope (hold self rms k)).

(** [m] is the number of silent ticks after which the returned level is
    0 for the first time. *)
Definition decay_ticks (self : t) (m : nat) : Prop :=
  (0 < m)%nat
  /\ openness_of_tick self 0 m = 0
  /\ forall k, (0 < k < m)%nat -> openness_of_tick self 0 k <> 0.

(** [m] is the number of silent ticks after which the stored level has
    come within 1% of its way down to 0, that is, has fallen to 1% of
    the level it started from, for the first time. *)
Definition fall_ticks (self : t) (m : nat) : Prop :=
  _envelope (hold self 0 m) <= 0.01 * _envelope self
  /\ forall k, (k < m)%nat ->
               ~ _envelope (hold self 0 k) <= 0.01 * _envelope self.

End Vocabulary.

Section RenderVocabulary.

Import AudioRouter.

(** The frames the device asks for over a run. *)
Definition offered (device : list buffer) : nat :=
  fold_right (fun outdata n => (length outdata + n)%nat) 0%nat device.

(** Every row of [out] from row [n] on holds zeros only. *)
Definition zero_filled_from (n : nat) (out : buffer) : Prop :=
  Forall (Forall (fun x => x = 0)) (skipn n out).

(** The first column of the first [n] rows of an output array. *)
Definition channel0 (n : nat) (out : buffer) : list R :=
  map (hd 0) (firstn n out).

(** All samples of the first [n] rows of an output array. *)
Definition all_channels (n : nat) (out : buffer) : list R :=
  concat (firstn n out).

(** A property of every invocation of a run, given the shared state
    before it. *)
Fixpoint each_call (P : cell -> buffer -> cell -> Prop) (before : cell)
         (calls : list (buffer * cell)) : Prop :=
  match calls with
  | [] => True
  | (out, after) :: calls' => P before out after /\ each_call P after calls'
  end.

(** The first [n] rows of [out] carry the sample frames
    [start .. start + n - 1]: entire rows of a two-column sample array,
    the first column for a one-dimensional one. *)
Definition carries (samples : ndarray) (start n : nat) (out : buffer) : Prop :=
  match samples with
  | Mono xs => channel0 n out = slice xs start (start + n)
  | Stereo xs => firstn n out = map row_of (slice xs start (start + n))
  end.

End RenderVocabulary.

Section QueueVocabulary.

Import ApiServer.

(** The request bodies [handle_play_bytes] has queued, in the order of
    their arrival. *)
Fixpoint accepted (actions : list action) : list bytes :=
  match actions with
  | [] => []
  | PlayBytes (b :: audio_data) :: actions' =>
      (b :: audio_data) :: accepted actions'
  | _ :: actions' => accepted actions'
  end.

Definition no_clear (actions : list action) : Prop :=
  Forall (fun a => a <> Clear) actions.

(** What a worker that plays [done] one after the other lets an
    observer see. *)
Definition one_by_one (done : list (bytes * bool)) : list observation :=
  flat_map (fun item => [Started (fst item); Finished (fst item) (snd item)])
           done.

Definition option_list {X : Type} (o : option X) : list X :=
  match o with
  | Some x => [x]
  | None => []
  end.

(** The worker's observations are those of playing one item after the
    other, up to the item in flight. *)
Definition sequential (srv : t) (done : list (bytes * bool)) : Prop :=
  trace srv = one_by_one done ++ map Started (option_list (in_flight srv)).

(** Playbacks begun and not yet returned at the end of a trace, given
    the number [n] of those at its beginning. *)
Fixpoint sessions_open (n : nat) (trace : list observation) : nat :=
  match trace with
  | [] => n
  | Started _ :: trace' => sessions_open (S n) trace'
  | Finished _ _ :: trace' => sessions_open (pred n) trace'
  end.

(** The mouth is closed: no weight on any shape, level 0. *)
Definition mouth_closed (vmc : VMCLipSync.t) : Prop :=
  VMCLipSync._prev_shapes vmc = VMCLipSync.zero_shapes
  /\ VMCLipSync._envelope vmc = 0.

(** The playback of the item in flight fails: a library is missing, or
    decoding or opening the stream raises. *)
Definition item_fails (srv : t) (env : AudioRouter.environment) : Prop :=
  HAS_PYDUB srv = false \/ HAS_SOUNDDEVICE srv = false
  \/ match env with
     | AudioRouter.DecodeRaises => True
     | AudioRouter.StreamRaises _ _ => True
     | AudioRouter.Plays _ _ => False
     end.

End QueueVocabulary.

(* ================================================================== *)
(** * Part I, continued: the rest of [audio_router.py]                 *)
(* ================================================================== *)

Module Prepass.

Import VMCLipSync.

(** [samples.mean(axis=1)] of an [N x 2] array *)
Definition mean_axis1 (xs : list (R * R)) : list R :=
  map (fun p => (fst p + snd p) / 2) xs.

(** Lines 200-203 of [send_lip_sync]: the mono signal. *)
Definition mono_of (samples : AudioRouter.ndarray) : list R :=
  match samples with
  | AudioRouter.Stereo xs => mean_axis1 xs
  | AudioRouter.Mono xs => xs
  end.

(** [chunk_size = int(sample_rate * frame_dur)] with
    [frame_dur = 1.0 / self.FPS] and [FPS = 30]. *)
Definition chunk_size (sample_rate : nat) : nat := (sample_rate / 30)%nat.

(** The body of the loop of [send_lip_sync] for frame [i]. *)
Definition analyse (mono : list R) (chunk_size : nat) (self : t) (i : nat) : t :=
  let chunk :=
    AudioRouter.slice mono (i * chunk_size) ((i + 1) * chunk_size) in
  fst (rms_to_blend_shapes self (AudioRouter.rms_of chunk)).

(** [send_lip_sync].  [None]: [len(mono) // chunk_size] raises
    [ZeroDivisionError]. *)
Definition send_lip_sync (self : t) (samples : AudioRouter.ndarray)
           (sample_rate : nat) : option t :=
  let mono := mono_of samples in
  let chunk_size := chunk_size sample_rate in
  if (chunk_size =? 0)%nat then None
  else
    let total_frames := (length mono / chunk_size)%nat in
    Some (_fade_close
            (fold_left (analyse mono chunk_size) (seq 0 total_frames) self)).

End Prepass.

Module Decode.

(** [a.reshape((-1, 2))] of a one-dimensional array.  [None]: the size
    is odd and numpy raises [ValueError]. *)
Fixpoint reshape2 (xs : list R) : option (list (R * R)) :=
  match xs with
  | [] => Some []
  | l :: r :: rest => option_map (cons (l, r)) (reshape2 rest)
  | _ => None
  end.

(** Lines 400-403 of [play_audio_with_vmc] (and 323-332 of
    [play_audio_bytes]): the integer samples of the segment as floats,
    reshaped when there are two channels, divided by [2 ** 15]. *)
Definition load_samples (raw : list Z) (channels : nat)
  : option AudioRouter.ndarray :=
  let samples := map IZR raw in
  if (channels =? 2)%nat then
    match reshape2 samples with
    | None => None
    | Some rows =>
        Some (AudioRouter.Stereo
                (map (fun p => (fst p / 32768, snd p / 32768)) rows))
    end
  else Some (AudioRouter.Mono (map (fun x => x / 32768) samples)).

End Decode.

Module Devices.

(** An entry of [sd.query_devices()]. *)
Record device : Set := mkDevice {
  name : string;
  max_output_channels : nat
}.

(** [needle in hay] *)
Fixpoint contains (needle hay : string) : bool :=
  String.prefix needle hay
  || match hay with
     | EmptyString => false
     | String _ rest => contains needle rest
     end.

(** [enumerate(devices)], counting from [i] *)
Fixpoint enumerate_from {X : Type} (i : nat) (xs : list X) : list (nat * X) :=
  match xs with
  | [] => []
  | x :: xs' => (i, x) :: enumerate_from (S i) xs'
  end.

Section Detect.

(** [str.lower] *)
Variable lower : string -> string.

(** The two tests of the first loop of [_detect_devices]. *)
Definition is_speaker (d : device) : bool :=
  let device_name := lower (name d) in
  (0 <? max_output_channels d)%nat
  && (contains "speaker" device_name
      && negb (contains "steam" device_name)
      && negb (contains "oculus" device_name)).

Definition speaker_candidates (devices : list device) : list (nat * device) :=
  filter (fun x => is_speaker (snd x)) (enumerate_from 0 devices).

(** The order of the sort key
    [(-x[1]['max_output_channels'], x[0])]. *)
Definition key_le (a b : nat * device) : bool :=
  (max_output_channels (snd b) <? max_output_channels (snd a))%nat
  || ((max_output_channels (snd a) =? max_output_channels (snd b))%nat
      && (fst a <=? fst b)%nat).

(** [list.sort(key=...)], as a stable insertion sort. *)
Fixpoint insert (a : nat * device) (xs : list (nat * device))
  : list (nat * device) :=
  match xs with
  | [] => [a]
  | b :: xs' => if key_le a b then a :: b :: xs' else b :: insert a xs'
  end.

Definition sort (xs : list (nat * device)) : list (nat * device) :=
  fold_right insert [] xs.

(** [_detect_devices]: the value of [self.speaker_device_id]
    afterwards.  The argument [speaker_name] is not used by the
    source. *)
Definition _detect_devices (speaker_name : option string)
           (devices : list device) : option nat :=
  match sort (speaker_candidates devices) with
  | [] => None
  | x :: _ => Some (fst x)
  end.

End Detect.

End Devices.

Module Binding.

(** [max_retries = 5] *)
Definition max_retries : nat := 5.

(** Where the bind loop of [start_api_server] stands: still trying,
    with the current [retry_delay]; the site has started ([break]); the
    last [OSError] has been raised again. *)
Inductive status : Set :=
| Trying (retry_delay : nat)
| Started
| Raised.

(** One turn of [for attempt in range(max_retries)].  [site_start k]
    tells whether the call of [site.start()] in turn [k] succeeds;
    the second component lists the sleeps taken, in seconds. *)
Definition bind_step (site_start : nat -> bool) (st : status * list nat)
           (attempt : nat) : status * list nat :=
  match fst st with
  | Trying retry_delay =>
      if site_start attempt then (Started, snd st)
      else if (attempt <? max_retries - 1)%nat
           then (Trying (retry_delay * 2), snd st ++ [retry_delay])
           else (Raised, snd st)
  | _ => st
  end.

Definition bind (site_start : nat -> bool) : status * list nat :=
  fold_left (bind_step site_start) (seq 0 max_retries) (Trying 1, []).

End Binding.

Section MoreVocabulary.

(** Every weight of a frame lies between 0 and [m]. *)
Definition weights_within (m : R) (frame : VMCLipSync.shapes) : Prop :=
  forall v, 0 <= VMCLipSync.get frame v <= m.

(** The lip-sync object has the bound [m] for [max_open], and the
    frame it stores and the frames it has sent are within it. *)
Definition frames_within (m : R) (vmc : VMCLipSync.t) : Prop :=
  VMCLipSync.max_open vmc = m
  /\ weights_within m (VMCLipSync._prev_shapes vmc)
  /\ Forall (weights_within m) (VMCLipSync.sent vmc).

(** Every sample of an array lies between -1 and 1. *)
Definition normalised (samples : AudioRouter.ndarray) : Prop :=
  match samples with
  | AudioRouter.Mono xs => Forall (fun x => -1 <= x <= 1) xs
  | AudioRouter.Stereo xs =>
      Forall (fun p => -1 <= fst p <= 1 /\ -1 <= snd p <= 1) xs
  end.

(** The samples of an array in the order of the stream they were read
    from. *)
Definition interleaved (samples : AudioRouter.ndarray) : list R :=
  match samples with
  | AudioRouter.Mono xs => xs
  | AudioRouter.Stereo xs => flat_map AudioRouter.row_of xs
  end.

(** The output arrays a schedule hands to the callback, and its number
    of turns of VMC threads. *)
Definition callbacks_of (schedule : list AudioRouter.event)
  : list AudioRouter.buffer :=
  flat_map (fun e => match e with
                     | AudioRouter.Callback outdata => [outdata]
                     | _ => []
                     end) schedule.

Definition ticks_of (schedule : list AudioRouter.event) : nat :=
  length (filter (fun e => match e with
                           | AudioRouter.Callback _ => false
                           | _ => true
                           end) schedule).

(** The device serves the stream of a playback to its end: it asks for
    non-empty output arrays that together cover the buffer. *)
Definition served (env : AudioRouter.environment) : Prop :=
  match env with
  | AudioRouter.Plays samples schedule =>
      callbacks_of schedule <> []
      /\ Forall (fun outdata => (0 < length outdata)%nat)
                (callbacks_of schedule)
      /\ (AudioRouter.len samples <= offered (callbacks_of schedule))%nat
  | _ => False
  end.

(** The stream of a playback is aborted after it was opened: the
    callback is invoked for fewer frames than the buffer holds, and
    then not any more. *)
Definition aborted (env : AudioRouter.environment) : Prop :=
  match env with
  | AudioRouter.Plays samples schedule =>
      (offered (callbacks_of schedule) < AudioRouter.len samples)%nat
  | _ => False
  end.


(** [xs] is [ys] with some elements left out. *)
Inductive subsequence {X : Type} : list X -> list X -> Prop :=
| subsequence_nil : subsequence [] []
| subsequence_skip (y : X) (xs ys : list X) :
    subsequence xs ys -> subsequence xs (y :: ys)
| subsequence_keep (x : X) (xs ys : list X) :
    subsequence xs ys -> subsequence (x :: xs) (x :: ys).

(** The items the worker has begun to play, in the order it began. *)
Definition begun (trace : list ApiServer.observation) : list ApiServer.bytes :=
  flat_map (fun o => match o with
                     | ApiServer.Started audio_data => [audio_data]
                     | ApiServer.Finished _ _ => []
                     end) trace.

(** The counts that the clears of a run return, added up. *)
Fixpoint cleared_total (srv : ApiServer.t) (actions : list ApiServer.action)
  : nat :=
  match actions with
  | [] => 0%nat
  | a :: actions' =>
      ((match a with
        | ApiServer.Clear => snd (ApiServer.handle_clear srv)
        | _ => 0%nat
        end)
       + cleared_total (ApiServer.step srv a) actions')%nat
  end.

End MoreVocabulary.

(* ================================================================== *)
(** * Part II: properties                                              *)
(* ================================================================== *)

(** Split on the comparisons that occur in the goal. *)
Ltac real_cases :=
  repeat match goal with
         | |- context [Rlt_dec ?a ?b] => destruct (Rlt_dec a b); try lra
         | |- context [Rle_dec ?a ?b] => destruct (Rle_dec a b); try lra
         end.

(** Decide the comparisons of a goal whose numbers are all literals,
    innermost first. *)
Ltac literal_cases :=
  repeat match goal with
         | |- context [Rlt_dec ?a ?b] =>
             first
               [ assert (a < b) by lra; destruct (Rlt_dec a b); [ | lra ]
               | assert (~ a < b) by lra; destruct (Rlt_dec a b); [ lra | ] ]
         | |- context [Rle_dec ?a ?b] =>
             first
               [ assert (a <= b) by lra; destruct (Rle_dec a b); [ | lra ]
               | assert (~ a <= b) by lra; destruct (Rle_dec a b); [ lra | ] ]
         end.

Section EnvelopeTracker.

Import VMCLipSync.

Lemma same_config_refl (x : t) : same_config x x.
Proof. repeat split. Qed.

Lemma same_config_trans (x y z : t) :
  same_config x y -> same_config y z -> same_config x z.
Proof.
  unfold same_config; intros (?&?&?&?&?&?) (?&?&?&?&?&?).
  repeat split; congruence.
Qed.

Lemma same_config_sym (x y : t) : same_config x y -> same_config y x.
Proof. unfold same_config; intros (?&?&?&?&?&?); repeat split; congruence. Qed.

Lemma set_envelope_config (self : t) (e : R) :
  same_config self (set_envelope self e).
Proof. repeat split. Qed.

Lemma send_prev (self : t) (f : shapes) :
  _prev_shapes (_send_blend_shapes self f) = _prev_shapes self.
Proof. unfold _send_blend_shapes; destruct (client self); reflexivity. Qed.

Lemma send_sent (self : t) (f : shapes) :
  client self = true -> sent (_send_blend_shapes self f) = sent self ++ [f].
Proof. unfold _send_blend_shapes; intros ->; reflexivity. Qed.

(** What one call of [rms_to_blend_shapes] leaves behind. *)
Lemma tick_config (self : t) (rms : R) :
  same_config self (fst (rms_to_blend_shapes self rms)).
Proof.
  unfold rms_to_blend_shapes; simpl.
  destruct (Rlt_dec _ _); simpl;
    unfold _send_blend_shapes; simpl; destruct (client self) eqn:Hc;
    repeat split; simpl; congruence.
Qed.

Lemma tick_envelope (self : t) (rms : R) :
  _envelope (fst (rms_to_blend_shapes self rms)) = follow self rms.
Proof.
  unfold rms_to_blend_shapes; simpl.
  destruct (Rlt_dec _ _); simpl;
    unfold _send_blend_shapes; simpl; destruct (client self); reflexivity.
Qed.

Lemma tick_returns (self : t) (rms : R) :
  snd (rms_to_blend_shapes self rms)
  = gated (Rmax 0 (Rmin (max_open self) (follow self rms))).
Proof.
  unfold rms_to_blend_shapes, gated, clamp; simpl.
  destruct (Rlt_dec _ _); reflexivity.
Qed.

Lemma tick_phase (self : t) (rms : R) :
  _vowel_phase (fst (rms_to_blend_shapes self rms))
  = if Rlt_dec (Rmax 0 (Rmin (max_open self) (follow self rms))) 0.02
    then 0
    else _vowel_phase self + vowel_speed self / 30.
Proof.
  unfold rms_to_blend_shapes, clamp, FPS; simpl.
  destruct (Rlt_dec _ _); simpl;
    unfold _send_blend_shapes; simpl; destruct (client self); reflexivity.
Qed.

Lemma tick_prev (self : t) (rms : R) :
  _prev_shapes (fst (rms_to_blend_shapes self rms))
  = smooth (_prev_shapes self)
      (if Rlt_dec (Rmax 0 (Rmin (max_open self) (follow self rms))) 0.02
       then zero_shapes
       else speaking_shapes (_vowel_phase self + vowel_speed self / 30)
              (Rmax 0 (Rmin (max_open self) (follow self rms)))).
Proof.
  unfold rms_to_blend_shapes, clamp, FPS; simpl.
  destruct (Rlt_dec _ _); simpl;
    unfold _send_blend_shapes; simpl; destruct (client self); reflexivity.
Qed.

Lemma tick_sent (self : t) (rms : R) :
  client self = true ->
  sent (fst (rms_to_blend_shapes self rms))
  = sent self ++ [_prev_shapes (fst (rms_to_blend_shapes self rms))].
Proof.
  intros Hc. unfold rms_to_blend_shapes, clamp, FPS; simpl.
  destruct (Rlt_dec _ _); simpl;
    unfold _send_blend_shapes; simpl; rewrite Hc; reflexivity.
Qed.

(** The filter reads the configuration and the stored level only. *)
Lemma follow_ext (x y : t) (rms : R) :
  same_config x y -> _envelope x = _envelope y ->
  follow x rms = follow y rms.
Proof.
  intros (Hg & Hm & Ha & Hr & _) He.
  unfold follow, target_of. rewrite Hg, Hm, Ha, Hr, He. reflexivity.
Qed.

Lemma get_build (f : vowel -> R) (v : vowel) : get (build f) v = f v.
Proof. destruct v; reflexivity. Qed.

Lemma shapes_ext (x y : shapes) :
  (forall v, get x v = get y v) -> x = y.
Proof.
  intros H. destruct x, y.
  pose proof (H vA); pose proof (H vI); pose proof (H vU);
    pose proof (H vE); pose proof (H vO).
  simpl in *. congruence.
Qed.

Lemma gated_zero_iff (e : R) : gated e = 0 <-> e < 0.02 \/ e = 0.
Proof.
  unfold gated. destruct (Rlt_dec e 0.02); split; intros; auto; lra.
Qed.

(** C3, as the code has it.  One call computes
    [target = min(max_open, rms * gain)] and moves the stored level by
    [(target - level) * attack] when [target > level] and by
    [(target - level) * (1 - release)] otherwise; the stored level is
    kept as the filter leaves it.  The clamp to [[0, max_open]] and the
    gate at 0.02 act on the returned openness: the call returns the
    clamped level, or 0 when that is below 0.02, and in that case the
    vowel phase is reset to 0 (it advances by [vowel_speed / 30]
    otherwise). *)
Theorem update_moves_level_and_returns_gated_openness
        (self : t) (rms : R) :
  let target := Rmin (max_open self) (rms * gain self) in
  let level := _envelope self in
  let self' := fst (rms_to_blend_shapes self rms) in
  let openness := snd (rms_to_blend_shapes self rms) in
  let clamped := Rmax 0 (Rmin (max_open self) (_envelope self')) in
  (target > level ->
   _envelope self' = level + (target - level) * attack self) /\
  (target <= level ->
   _envelope self' = level + (target - level) * (1 - release self)) /\
  (clamped < 0.02 -> openness = 0 /\ _vowel_phase self' = 0) /\
  (0.02 <= clamped ->
   openness = clamped
   /\ _vowel_phase self' = _vowel_phase self + vowel_speed self / 30).
Proof.
  cbv zeta. rewrite tick_envelope, tick_returns, tick_phase.
  unfold gated, follow, target_of.
  repeat split; intros; real_cases; lra.
Qed.

(** C3, the claim as worded fails: with the defaults and loudness
    0.005 (target 0.03) the call returns openness 0, yet the stored
    level is 0.0165 and not 0, and the next call with the same
    loudness continues from it and returns 0.023925. *)
Lemma gated_call_keeps_stored_level :
  let self' := fst (rms_to_blend_shapes default 0.005) in
  snd (rms_to_blend_shapes default 0.005) = 0
  /\ _envelope self' = 0.0165
  /\ _envelope self' <> 0
  /\ snd (rms_to_blend_shapes self' 0.005) = 0.023925.
Proof.
  cbv zeta.
  assert (E1 : _envelope (fst (rms_to_blend_shapes default 0.005)) = 0.0165).
  { rewrite tick_envelope. unfold follow, target_of, Rmin; simpl.
    literal_cases; lra. }
  assert (E2 : follow (fst (rms_to_blend_shapes default 0.005)) 0.005
               = 0.023925).
  { rewrite (follow_ext _ (set_envelope default 0.0165)).
    - unfold follow, target_of, Rmin; simpl. literal_cases; lra.
    - eapply same_config_trans;
        [ apply same_config_sym, tick_config | apply set_envelope_config ].
    - rewrite E1. reflexivity. }
  repeat split.
  - rewrite tick_returns.
    rewrite <- tick_envelope, E1. unfold gated, Rmax, Rmin; simpl.
    literal_cases; lra.
  - exact E1.
  - rewrite E1. lra.
  - rewrite tick_returns, E2.
    pose proof (tick_config default 0.005) as (_ & Hm & _).
    rewrite <- Hm. unfold gated, Rmax, Rmin; simpl.
    literal_cases; lra.
Qed.

(** The filter keeps the stored level between 0 and [max_open]. *)
Lemma follow_bounded (self : t) (rms : R) :
  0 <= max_open self -> 0 <= gain self ->
  0 <= attack self <= 1 -> 0 <= release self <= 1 ->
  0 <= rms ->
  0 <= _envelope self <= max_open self ->
  0 <= follow self rms <= max_open self.
Proof.
  intros Hm Hg Ha Hr Hrms He.
  assert (Ht : 0 <= target_of self rms <= max_open self).
  { unfold target_of, Rmin. destruct (Rle_dec _ _); nra. }
  unfold follow. destruct (Rlt_dec _ _); nra.
Qed.

Lemma gated_clamp_bounded (m e : R) :
  0 <= m -> 0 <= gated (Rmax 0 (Rmin m e)) <= m.
Proof.
  intros Hm. unfold gated, Rmax, Rmin.
  destruct (Rle_dec m e); real_cases; lra.
Qed.

Lemma ticks_bounded (samples : list R) :
  Forall (fun rms => 0 <= rms) samples ->
  forall self : t,
    0 <= max_open self -> 0 <= gain self ->
    0 <= attack self <= 1 -> 0 <= release self <= 1 ->
    0 <= _envelope self <= max_open self ->
    0 <= _envelope (fst (ticks self samples)) <= max_open self
    /\ Forall (fun e => 0 <= e <= max_open self) (snd (ticks self samples)).
Proof.
  induction 1 as [ | rms samples Hrms _ IH]; intros self Hm Hg Ha Hr He.
  - simpl. auto.
  - simpl.
    destruct (rms_to_blend_shapes self rms) as [self1 e1] eqn:E1.
    destruct (ticks self1 samples) as [self2 out] eqn:E2.
    assert (Hs : self1 = fst (rms_to_blend_shapes self rms))
      by (rewrite E1; reflexivity).
    assert (He1 : e1 = snd (rms_to_blend_shapes self rms))
      by (rewrite E1; reflexivity).
    pose proof (tick_config self rms) as (Cg & Cm & Ca & Cr & _).
    rewrite <- Hs in Cg, Cm, Ca, Cr.
    assert (Hb : 0 <= _envelope self1 <= max_open self1).
    { rewrite Hs at 1 2. rewrite tick_envelope, <- Cm.
      apply follow_bounded; assumption. }
    specialize (IH self1). rewrite E2, <- Cg, <- Cm, <- Ca, <- Cr in IH.
    specialize (IH Hm Hg Ha Hr). rewrite Cm in IH at 1.
    specialize (IH Hb). simpl in *. destruct IH as [IH1 IH2].
    split; [exact IH1 | ].
    constructor; [ | exact IH2 ].
    rewrite He1, tick_returns. apply gated_clamp_bounded. exact Hm.
Qed.

(** C4, as the code has it.  Starting from the all-zero state, with
    [max_open] and [gain] not negative and [attack], [release] in
    [[0, 1]], feeding any
    sequence of non-negative loudness samples tick by tick keeps the
    level within [[0, max_open]] after every tick: both the stored
    level and every returned openness. *)
Theorem level_stays_within_bounds
        (gain max_open attack release vowel_speed : R) (has_osc : bool)
        (samples : list R) (n : nat) :
  0 <= max_open -> 0 <= gain ->
  0 <= attack <= 1 -> 0 <= release <= 1 ->
  Forall (fun rms => 0 <= rms) samples ->
  let run :=
    ticks (init gain max_open attack release vowel_speed has_osc)
          (firstn n samples) in
  0 <= _envelope (fst run) <= max_open
  /\ Forall (fun e => 0 <= e <= max_open) (snd run).
Proof.
  intros Hm Hg Ha Hr Hs. cbv zeta.
  apply (ticks_bounded (firstn n samples)); simpl; try assumption; try lra.
  rewrite Forall_forall in *. intros x Hx. apply Hs.
  rewrite <- (firstn_skipn n samples). apply in_or_app. left. exact Hx.
Qed.

Lemma level_stays_within_bounds_witness :
  let run := ticks (init 6 0.65 0.55 0.75 3.5 true) (firstn 2 [0.005; 0.2; 0]) in
  0 <= _envelope (fst run) <= 0.65
  /\ Forall (fun e => 0 <= e <= 0.65) (snd run).
Proof.
  apply (level_stays_within_bounds 6 0.65 0.55 0.75 3.5 true
                                   [0.005; 0.2; 0] 2);
    try lra.
  repeat constructor; lra.
Defined.

(** C4, the claim as worded fails: [__init__] accepts any gain and any
    [max_open].  With the gain -6 (attack 0.55, release 0.75,
    [max_open] 0.65) the non-negative sample 0.1 has the target -0.6,
    and the first tick from the all-zero state stores the level -0.15,
    below 0.  With [max_open] -1 (gain 6) silence has the target -1 and
    the first tick stores the level -0.25. *)
Lemma negative_gain_drives_level_below_zero :
  let run := ticks (init (-6) 0.65 0.55 0.75 3.5 true) (firstn 1 [0.1]) in
  let run' := ticks (init 6 (-1) 0.55 0.75 3.5 true) (firstn 1 [0]) in
  0 <= 0.55 <= 1 /\ 0 <= 0.75 <= 1
  /\ Forall (fun rms => 0 <= rms) [0.1]
  /\ _envelope (fst run) = -0.15
  /\ ~ (0 <= _envelope (fst run) <= 0.65)
  /\ Forall (fun rms => 0 <= rms) [0]
  /\ _envelope (fst run') = -0.25
  /\ ~ (0 <= _envelope (fst run') <= -1).
Proof.
  cbv zeta.
  assert (Hone : forall self rms,
             _envelope (fst (ticks self (firstn 1 [rms]))) = follow self rms).
  { intros self rms. simpl firstn. simpl ticks.
    destruct (rms_to_blend_shapes self rms) as [self1 e1] eqn:E1.
    assert (Hs : self1 = fst (rms_to_blend_shapes self rms))
      by (rewrite E1; reflexivity).
    simpl. rewrite Hs. apply tick_envelope. }
  assert (E : _envelope (fst (ticks (init (-6) 0.65 0.55 0.75 3.5 true)
                                    (firstn 1 [0.1]))) = -0.15).
  { rewrite Hone. unfold follow, target_of, Rmin; simpl.
    literal_cases; lra. }
  assert (E' : _envelope (fst (ticks (init 6 (-1) 0.55 0.75 3.5 true)
                                     (firstn 1 [0]))) = -0.25).
  { rewrite Hone. unfold follow, target_of, Rmin; simpl.
    literal_cases; lra. }
  split; [lra | ]. split; [lra | ].
  split; [repeat constructor; lra | ].
  split; [exact E | ]. split; [rewrite E; lra | ].
  split; [repeat constructor; lra | ].
  split; [exact E' | rewrite E'; lra].
Qed.

(** The returned level is within [[0, max_open]] whatever the gain, the
    filter coefficients and the loudness are. *)
Lemma returned_level_bounded (self : t) (rms : R) :
  0 <= max_open self ->
  0 <= snd (rms_to_blend_shapes self rms) <= max_open self.
Proof. intros Hm. rewrite tick_returns. apply gated_clamp_bounded, Hm. Qed.

Example first_tick_at_full_scale :
  snd (rms_to_blend_shapes default 1) = 0.3575.
Proof.
  rewrite tick_returns. unfold gated, follow, target_of, Rmax, Rmin; simpl.
  literal_cases; lra.
Qed.

End EnvelopeTracker.

Section VisemeSynthesizer.

Import VMCLipSync.

(** With all target shapes at zero the interpolation leaves 0.65 of
    every previous weight, snapped to 0 below 0.005. *)
Lemma smooth_toward_zero (prev : shapes) (v : vowel) :
  get (smooth prev zero_shapes) v
  = if Rlt_dec (0.65 * get prev v) 0.005 then 0 else 0.65 * get prev v.
Proof.
  unfold smooth, shape_lerp. rewrite get_build.
  replace (get zero_shapes v) with 0 by (destruct v; reflexivity).
  real_cases.
Qed.

Lemma silent_tick_state (self : t) (rms : R) :
  snd (rms_to_blend_shapes self rms) = 0 ->
  _vowel_phase (fst (rms_to_blend_shapes self rms)) = 0
  /\ _prev_shapes (fst (rms_to_blend_shapes self rms))
     = smooth (_prev_shapes self) zero_shapes.
Proof.
  intros H0. rewrite tick_returns in H0.
  assert (Hg : Rmax 0 (Rmin (max_open self) (follow self rms)) < 0.02).
  { apply gated_zero_iff in H0. lra. }
  split.
  - rewrite tick_phase. destruct (Rlt_dec _ _); [reflexivity | lra].
  - rewrite tick_prev. destruct (Rlt_dec _ _); [reflexivity | lra].
Qed.

(** C5, as the code has it.  On a tick whose returned level is 0 the
    target frame is all-zero and the vowel phase is reset to 0, but
    the frame the tick stores and transmits is the previous frame
    moved 0.35 of the way toward zero: every weight is 0.65 times the
    previous weight, or 0 when that is below 0.005.  It is the
    all-zero frame exactly when 0.65 times every previous weight is
    below 0.005. *)
Theorem silent_tick_decays_previous_frame (self : t) (rms : R) :
  snd (rms_to_blend_shapes self rms) = 0 ->
  let self' := fst (rms_to_blend_shapes self rms) in
  _vowel_phase self' = 0
  /\ (forall v,
         get (_prev_shapes self') v
         = if Rlt_dec (0.65 * get (_prev_shapes self) v) 0.005
           then 0
           else 0.65 * get (_prev_shapes self) v)
  /\ (client self = true -> sent self' = sent self ++ [_prev_shapes self'])
  /\ (_prev_shapes self' = zero_shapes
      <-> forall v, 0.65 * get (_prev_shapes self) v < 0.005).
Proof.
  intros H0. cbv zeta.
  destruct (silent_tick_state self rms H0) as [Hph Hp].
  split; [ | split; [ | split ] ].
  - exact Hph.
  - intros v. rewrite Hp. apply smooth_toward_zero.
  - apply tick_sent.
  - rewrite Hp. split.
    + intros Hz v.
      pose proof (smooth_toward_zero (_prev_shapes self) v) as Hv.
      rewrite Hz in Hv.
      replace (get zero_shapes v) with 0 in Hv by (destruct v; reflexivity).
      destruct (Rlt_dec _ _); lra.
    + intros Hall. apply shapes_ext. intros v.
      rewrite smooth_toward_zero.
      replace (get zero_shapes v) with 0 by (destruct v; reflexivity).
      specialize (Hall v). destruct (Rlt_dec _ _); lra.
Qed.

Lemma silent_tick_at_half_open_A :
  snd (rms_to_blend_shapes half_open_A 0) = 0.
Proof.
  rewrite tick_returns.
  unfold gated, follow, target_of, Rmax, Rmin; simpl.
  literal_cases; lra.
Qed.

Lemma silent_tick_decays_previous_frame_witness :
  let self' := fst (rms_to_blend_shapes half_open_A 0) in
  _vowel_phase self' = 0
  /\ (forall v,
         get (_prev_shapes self') v
         = if Rlt_dec (0.65 * get (_prev_shapes half_open_A) v) 0.005
           then 0
           else 0.65 * get (_prev_shapes half_open_A) v)
  /\ (client half_open_A = true
      -> sent self' = sent half_open_A ++ [_prev_shapes self'])
  /\ (_prev_shapes self' = zero_shapes
      <-> forall v, 0.65 * get (_prev_shapes half_open_A) v < 0.005).
Proof.
  apply (silent_tick_decays_previous_frame half_open_A 0).
  apply silent_tick_at_half_open_A.
Defined.

(** C5, the claim as worded fails: with level 0 and a previous frame
    that has weight 0.5 on shape A, the tick returns level 0 and
    resets the phase, but the frame it stores and transmits has
    weight 0.325 on A; it is not the all-zero frame. *)
Lemma silent_tick_frame_not_zero :
  let self' := fst (rms_to_blend_shapes half_open_A 0) in
  snd (rms_to_blend_shapes half_open_A 0) = 0
  /\ _vowel_phase self' = 0
  /\ _prev_shapes self' = mkShapes 0.325 0 0 0 0
  /\ sent self' = [mkShapes 0.325 0 0 0 0]
  /\ _prev_shapes self' <> zero_shapes.
Proof.
  cbv zeta.
  pose proof silent_tick_at_half_open_A as H0.
  destruct (silent_tick_state half_open_A 0 H0) as [Hph Hs].
  assert (Hp : _prev_shapes (fst (rms_to_blend_shapes half_open_A 0))
               = mkShapes 0.325 0 0 0 0).
  { rewrite Hs. apply shapes_ext. intros v. rewrite smooth_toward_zero.
    destruct v; simpl; literal_cases; lra. }
  repeat split; try assumption.
  - rewrite tick_sent by reflexivity. rewrite Hp. reflexivity.
  - rewrite Hp. unfold zero_shapes, build. intros H.
    injection H as H. lra.
Qed.

End VisemeSynthesizer.

Section FadeOut.

Import VMCLipSync.

Lemma fade_step_frames (steps : list nat) :
  forall self : t,
    client self = true ->
    let self' := fold_left fade_step steps self in
    sent self' = sent self ++ fade_frames (_prev_shapes self) steps
    /\ client self' = true.
Proof.
  induction steps as [ | step steps IH]; intros self Hc; cbv zeta.
  - simpl. rewrite app_nil_r. auto.
  - cbn [fold_left fade_frames].
    set (next := scaled (_prev_shapes self) (1 - (INR step + 1) / 8)).
    assert (Hstep : fade_step self step
                    = _send_blend_shapes (set_prev_shapes self next) next)
      by reflexivity.
    assert (Hc1 : client (fade_step self step) = true).
    { rewrite Hstep. unfold _send_blend_shapes; simpl. rewrite Hc. reflexivity. }
    assert (Hp1 : _prev_shapes (fade_step self step) = next).
    { rewrite Hstep, send_prev. reflexivity. }
    assert (Hs1 : sent (fade_step self step) = sent self ++ [next]).
    { rewrite Hstep, send_sent by exact Hc. reflexivity. }
    destruct (IH (fade_step self step) Hc1) as (IHs & IHc).
    rewrite Hp1, Hs1 in IHs.
    split.
    + rewrite IHs, <- app_assoc. reflexivity.
    + exact IHc.
Qed.

Lemma close_mouth_state (self : t) :
  client self = true ->
  sent (close_mouth self) = sent self ++ [zero_shapes]
  /\ _prev_shapes (close_mouth self) = zero_shapes
  /\ _envelope (close_mouth self) = 0.
Proof.
  intros Hc. unfold close_mouth, _send_blend_shapes. rewrite Hc.
  simpl. auto.
Qed.

Lemma wA_scaled (frame : shapes) (fade : R) :
  wA (scaled frame fade) = wA frame * fade.
Proof. reflexivity. Qed.

(** C6.  A fade-out that starts from a previous frame with weight 0.65
    on shape A transmits nine frames: eight frames, each the frame
    before it scaled by [1 - (step + 1) / 8], on which the weight of A
    strictly decreases from step to step, and then the all-zero frame,
    which is the last frame sent.  Afterwards the previous-shape state
    is all-zero and the stored level is 0. *)
Theorem fade_out_closes_the_mouth (self : t) :
  client self = true ->
  wA (_prev_shapes self) = 0.65 ->
  let self' := _fade_close self in
  let frames := fade_frames (_prev_shapes self) (seq 0 8) in
  sent self' = sent self ++ frames ++ [zero_shapes]
  /\ length frames = 8%nat
  /\ strictly_decreasing (0.65 :: map wA frames)
  /\ last (sent self') (_prev_shapes self) = zero_shapes
  /\ _prev_shapes self' = zero_shapes
  /\ _envelope self' = 0.
Proof.
  intros Hc HA. cbv zeta. unfold _fade_close.
  destruct (fade_step_frames (seq 0 8) self Hc) as (Hs & Hc').
  destruct (close_mouth_state _ Hc') as (Hcs & Hcp & Hce).
  assert (Hsent : sent (close_mouth (fold_left fade_step (seq 0 8) self))
                  = sent self
                    ++ fade_frames (_prev_shapes self) (seq 0 8)
                    ++ [zero_shapes]).
  { rewrite Hcs, Hs, <- app_assoc. reflexivity. }
  split; [exact Hsent | ].
  split; [reflexivity | ].
  split.
  - cbn [seq fade_frames map strictly_decreasing].
    rewrite !wA_scaled, HA. simpl INR.
    repeat split; lra.
  - split; [ | split; assumption ].
    rewrite Hsent, app_assoc. apply last_last.
Qed.

Lemma fade_out_closes_the_mouth_witness :
  let self := set_prev_shapes default (mkShapes 0.65 0.1 0 0.2 0) in
  let self' := _fade_close self in
  let frames := fade_frames (_prev_shapes self) (seq 0 8) in
  sent self' = sent self ++ frames ++ [zero_shapes]
  /\ length frames = 8%nat
  /\ strictly_decreasing (0.65 :: map wA frames)
  /\ last (sent self') (_prev_shapes self) = zero_shapes
  /\ _prev_shapes self' = zero_shapes
  /\ _envelope self' = 0.
Proof.
  apply (fade_out_closes_the_mouth
           (set_prev_shapes default (mkShapes 0.65 0.1 0 0.2 0)));
    reflexivity.
Defined.

End FadeOut.

Section VowelLobes.

Import VMCLipSync.

Lemma PI_above_3 : 3 < PI.
Proof. pose proof PI2_3_2. lra. Qed.

(** The degree-seven Taylor polynomial bounds the sine from below on
    [[0, 3]]. *)
Lemma sin_above_taylor (a : R) :
  0 <= a <= 3 -> a - a ^ 3 / 6 + a ^ 5 / 120 - a ^ 7 / 5040 <= sin a.
Proof.
  intros [H0 H3].
  replace (a - a ^ 3 / 6 + a ^ 5 / 120 - a ^ 7 / 5040) with (sin_lb a).
  - apply SIN; [lra | pose proof PI_above_3; lra].
  - unfold sin_lb, sin_approx, sin_term. simpl. field.
Qed.

Lemma sin_1_25 : 0.9 <= sin 1.25.
Proof. pose proof (sin_above_taylor 1.25). lra. Qed.

Lemma sin_2_5 : 0.5 <= sin 2.5.
Proof. pose proof (sin_above_taylor 2.5). lra. Qed.

Lemma cos_2_5 : cos 2.5 <= - 0.5.
Proof.
  replace 2.5 with (2 * 1.25) by lra. rewrite cos_2a_sin.
  pose proof sin_1_25. nra.
Qed.

Lemma sin_0_95 : 0.8 <= sin 0.95.
Proof. pose proof (sin_above_taylor 0.95). lra. Qed.

Lemma sin_1_9 : 0.94 <= sin 1.9.
Proof. pose proof (sin_above_taylor 1.9). lra. Qed.

Lemma cos_1_9 : cos 1.9 <= - 0.28.
Proof.
  replace 1.9 with (2 * 0.95) by lra. rewrite cos_2a_sin.
  pose proof sin_0_95. nra.
Qed.

Lemma sin_3_8 : sin 3.8 <= - 0.5.
Proof.
  replace 3.8 with (2 * 1.9) by lra. rewrite sin_2a.
  pose proof sin_1_9. pose proof cos_1_9. nra.
Qed.

Lemma cos_3_8 : cos 3.8 <= - 0.5.
Proof.
  replace 3.8 with (2 * 1.9) by lra. rewrite cos_2a_sin.
  pose proof sin_1_9. nra.
Qed.

(** On the unit circle one of three directions, at angles 0, 2.5 and
    3.8, always sees the point well above 0.01. *)
Lemma some_lobe_open (x : R) :
  0.01 < sin x \/ 0.01 < sin (x + 2.5) \/ 0.01 < sin (x + 3.8).
Proof.
  pose proof (sin2_cos2 x) as Hc. unfold Rsqr in Hc.
  pose proof (SIN_bound x) as [Hs1 Hs2].
  pose proof (COS_bound x) as [Hc1 Hc2].
  pose proof sin_2_5 as S25. pose proof cos_2_5 as C25.
  pose proof sin_3_8 as S38. pose proof cos_3_8 as C38.
  pose proof (SIN_bound 2.5) as [_ S25'].
  pose proof (COS_bound 2.5) as [C25' _].
  pose proof (SIN_bound 3.8) as [S38' _].
  pose proof (COS_bound 3.8) as [C38' _].
  rewrite !sin_plus.
  destruct (Rlt_dec 0.01 (sin x)) as [Hs | Hs]; [left; exact Hs | right].
  assert (Hs' : sin x <= 0.01) by lra.
  destruct (Rle_dec 0 (cos x)) as [Hpos | Hneg].
  - left. destruct (Rle_dec (sin x) 0) as [Hs0 | Hs0].
    + assert (1 <= cos x - sin x) by nra.
      assert (- 0.5 * sin x <= sin x * cos 2.5) by nra.
      assert (0.5 * cos x <= cos x * sin 2.5) by nra.
      lra.
    + assert (0.99 <= cos x) by nra.
      assert (- 0.01 <= sin x * cos 2.5) by nra.
      assert (0.495 <= cos x * sin 2.5) by nra.
      lra.
  - right. assert (Hneg' : cos x < 0) by lra.
    destruct (Rle_dec (sin x) 0) as [Hs0 | Hs0].
    + assert (1 <= - cos x - sin x) by nra.
      assert (- 0.5 * sin x <= sin x * cos 3.8) by nra.
      assert (- 0.5 * cos x <= cos x * sin 3.8) by nra.
      lra.
    + assert (cos x <= - 0.99) by nra.
      assert (- 0.01 <= sin x * cos 3.8) by nra.
      assert (0.495 <= cos x * sin 3.8) by nra.
      lra.
Qed.

Lemma lobe_nonneg (phase offset : R) : 0 <= lobe phase offset.
Proof. unfold lobe. apply Rmax_l. Qed.

Lemma lobe_above_sine (phase offset : R) :
  sin (phase * 2 * PI + offset) <= lobe phase offset.
Proof. unfold lobe. apply Rmax_r. Qed.

(** C10.  For every vowel phase the five clamped sine lobes sum to more
    than 0.01, so the divisor of the normalisation is the lobe sum
    itself: the fallback divisor 1 is never taken. *)
Theorem lobe_sum_exceeds_fallback_threshold (phase : R) :
  0.01 < lobe_sum phase /\ divisor phase = lobe_sum phase.
Proof.
  assert (H : 0.01 < lobe_sum phase).
  { unfold lobe_sum.
    pose proof (lobe_nonneg phase 0). pose proof (lobe_nonneg phase 1.2).
    pose proof (lobe_nonneg phase 2.5). pose proof (lobe_nonneg phase 3.8).
    pose proof (lobe_nonneg phase 5).
    pose proof (lobe_above_sine phase 0) as Hfirst.
    pose proof (lobe_above_sine phase 2.5).
    pose proof (lobe_above_sine phase 3.8).
    rewrite Rplus_0_r in Hfirst.
    destruct (some_lobe_open (phase * 2 * PI)) as [ | [ | ]]; lra. }
  split; [exact H | ].
  unfold divisor. destruct (Rlt_dec _ _); lra.
Qed.

End VowelLobes.

Section AttackAndRelease.

Import VMCLipSync.

Lemma hold_S (self : t) (rms : R) (n : nat) :
  hold self rms (S n) = fst (rms_to_blend_shapes (hold self rms n) rms).
Proof. reflexivity. Qed.

Lemma hold_config (self : t) (rms : R) (n : nat) :
  same_config self (hold self rms n).
Proof.
  induction n as [ | n IH].
  - apply same_config_refl.
  - rewrite hold_S. eapply same_config_trans; [exact IH | apply tick_config].
Qed.

Lemma target_of_ext (x y : t) (rms : R) :
  same_config x y -> target_of x rms = target_of y rms.
Proof. intros (Hg & Hm & _). unfold target_of. rewrite Hg, Hm. reflexivity. Qed.

(** Under a constant loudness the stored level approaches the target
    geometrically with ratio [1 - attack]. *)
Lemma rise_closed_form (self : t) (rms : R) (n : nat) :
  0 <= attack self <= 1 ->
  _envelope self <= target_of self rms ->
  _envelope (hold self rms n)
  = target_of self rms
    - (target_of self rms - _envelope self) * (1 - attack self) ^ n.
Proof.
  intros Ha He. induction n as [ | n IH].
  - simpl. lra.
  - rewrite hold_S, tick_envelope.
    pose proof (hold_config self rms n) as Hc.
    pose proof (target_of_ext _ _ rms Hc) as Ht.
    destruct Hc as (_ & _ & Hatt & Hrel & _).
    unfold follow. rewrite <- Ht, <- Hatt, <- Hrel, IH.
    assert (Hq : 0 <= (1 - attack self) ^ n) by (apply pow_le; lra).
    simpl pow.
    destruct (Rlt_dec _ _) as [Hlt | Hge].
    + lra.
    + assert (Hz : (target_of self rms - _envelope self)
                   * (1 - attack self) ^ n = 0) by nra.
      transitivity
        (target_of self rms
         - (1 - attack self)
           * ((target_of self rms - _envelope self) * (1 - attack self) ^ n));
        [rewrite Hz; ring | ring].
Qed.

(** Under silence the stored level decays geometrically with ratio
    [release]. *)
Lemma decay_closed_form (self : t) (n : nat) :
  0 <= max_open self -> 0 <= release self ->
  0 <= _envelope self ->
  _envelope (hold self 0 n) = _envelope self * release self ^ n.
Proof.
  intros Hm Hr He. induction n as [ | n IH].
  - simpl. lra.
  - rewrite hold_S, tick_envelope.
    pose proof (hold_config self 0 n) as Hc.
    pose proof (target_of_ext _ _ 0 Hc) as Ht.
    destruct Hc as (_ & _ & Hatt & Hrel & _).
    assert (Hz : target_of self 0 = 0).
    { unfold target_of, Rmin. destruct (Rle_dec _ _); lra. }
    unfold follow. rewrite <- Ht, <- Hatt, <- Hrel, IH, Hz.
    assert (Hq : 0 <= release self ^ n) by (apply pow_le; lra).
    simpl pow.
    destruct (Rlt_dec _ _) as [Hlt | Hge]; [nra | lra].
Qed.

Lemma openness_of_tick_S (self : t) (rms : R) (j : nat) :
  openness_of_tick self rms (S j)
  = gated (Rmax 0 (Rmin (max_open self) (_envelope (hold self rms (S j))))).
Proof.
  unfold openness_of_tick. simpl pred.
  rewrite hold_S, tick_returns, tick_envelope.
  destruct (hold_config self rms j) as (_ & Hm & _). rewrite <- Hm.
  reflexivity.
Qed.

Lemma pow_lt_strict (q r : R) (n : nat) :
  0 <= q < r -> (1 <= n)%nat -> q ^ n < r ^ n.
Proof.
  intros Hqr Hn. induction n as [ | n IH]; [lia | ].
  destruct n as [ | n].
  - simpl. lra.
  - assert (Hlt : q ^ S n < r ^ S n) by (apply IH; lia).
    assert (Hq : 0 <= q ^ S n) by (apply pow_le; lra).
    change (q ^ S (S n)) with (q * q ^ S n).
    change (r ^ S (S n)) with (r * r ^ S n).
    nra.
Qed.

Lemma pow_antitone (x : R) (m n : nat) :
  0 <= x <= 1 -> (m <= n)%nat -> x ^ n <= x ^ m.
Proof.
  intros Hx Hmn. induction Hmn as [ | n Hmn IH]; [lra | ].
  assert (0 <= x ^ n) by (apply pow_le; lra).
  simpl. nra.
Qed.

(** After the same number of ticks a rise from 0 has less of its way
    left, relative to the target, than a decay has of its level. *)
Lemma relative_rise_outpaces_decay (up down : t) (rms : R) (n : nat) :
  0 <= attack up <= 1 -> 0 <= release up <= 1 ->
  attack up > 1 - release up ->
  same_config up down ->
  _envelope up = 0 -> 0 < target_of up rms ->
  0 < _envelope down ->
  (1 <= n)%nat ->
  (target_of up rms - _envelope (hold up rms n)) * _envelope down
  < _envelope (hold down 0 n) * target_of up rms.
Proof.
  intros Ha Hr Hfast Hc He HT HL Hn.
  assert (Hm : 0 <= max_open down).
  { destruct Hc as (_ & Hm & _). rewrite <- Hm.
    unfold target_of in HT. pose proof (Rmin_l (max_open up) (rms * gain up)).
    lra. }
  assert (Hrel : release down = release up).
  { destruct Hc as (_ & _ & _ & Hrel & _). congruence. }
  rewrite (rise_closed_form up rms n Ha) by lra.
  rewrite (decay_closed_form down n Hm) by (rewrite ?Hrel; lra).
  rewrite He, Hrel.
  assert (Hlt : (1 - attack up) ^ n < release up ^ n)
    by (apply pow_lt_strict; [lra | lia]).
  set (q := (1 - attack up) ^ n) in *. set (r := release up ^ n) in *.
  set (T := target_of up rms) in *. set (L := _envelope down) in *.
  assert (HTL : 0 < T * L) by nra.
  replace ((T - (T - (T - 0) * q)) * L) with (T * L * q) by ring.
  replace (L * r * T) with (T * L * r) by ring.
  apply Rmult_lt_compat_l; assumption.
Qed.

(** With [attack > 1 - release] the rise to within 1% of the target
    takes no more ticks than the level then takes to fall to 1% of
    itself. *)
Lemma rise_takes_no_more_ticks_than_fall (up : t) (rms : R) (n k m : nat) :
  0 <= attack up <= 1 -> 0 <= release up <= 1 ->
  attack up > 1 - release up ->
  _envelope up = 0 -> 0 < target_of up rms ->
  rise_ticks up rms n -> (n <= k)%nat ->
  fall_ticks (hold up rms k) m ->
  (n <= m)%nat.
Proof.
  intros Ha Hr Hfast He HT [Hin Hmin] Hk [Hfall _].
  destruct (le_lt_dec n m) as [Hnm | Hmn]; [exact Hnm | exfalso].
  set (T := target_of up rms) in *.
  assert (HTm : T <= max_open up)
    by (unfold T, target_of; apply Rmin_l).
  assert (Hrise : forall j,
             _envelope (hold up rms j) = T - T * (1 - attack up) ^ j).
  { intros j. rewrite (rise_closed_form up rms j Ha) by (fold T; lra).
    fold T. rewrite He. ring. }
  unfold within_one_percent in Hin. rewrite Hrise in Hin.
  assert (Hqn : 0 <= (1 - attack up) ^ n) by (apply pow_le; lra).
  replace (T - T * (1 - attack up) ^ n - T)
    with (- (T * (1 - attack up) ^ n)) in Hin by ring.
  rewrite Rabs_left1 in Hin by nra.
  assert (Hq1 : (1 - attack up) ^ n <= 0.01) by nra.
  assert (Hqk : (1 - attack up) ^ k <= (1 - attack up) ^ n)
    by (apply pow_antitone; [lra | exact Hk]).
  assert (Hqk0 : 0 <= (1 - attack up) ^ k) by (apply pow_le; lra).
  set (L := _envelope (hold up rms k)) in *.
  assert (HL : 0.99 * T <= L) by (unfold L; rewrite Hrise; nra).
  destruct (hold_config up rms k) as (_ & Hmax & _ & Hrel & _).
  rewrite decay_closed_form in Hfall;
    rewrite <- ?Hmax, <- ?Hrel; fold L; try lra.
  rewrite <- Hrel in Hfall.
  assert (Hrm0 : 0 <= release up ^ m) by (apply pow_le; lra).
  assert (Hrm : release up ^ m <= 0.01).
  { fold L in Hfall. apply (Rmult_le_reg_l L); lra. }
  assert (Hqm : (1 - attack up) ^ m <= release up ^ m)
    by (apply pow_incr; lra).
  assert (Hqm0 : 0 <= (1 - attack up) ^ m) by (apply pow_le; lra).
  apply (Hmin m Hmn). unfold within_one_percent. rewrite Hrise.
  replace (T - T * (1 - attack up) ^ m - T)
    with (- (T * (1 - attack up) ^ m)) by ring.
  rewrite Rabs_left1 by nra. nra.
Qed.

(** C9, as the code has it.  With [attack > 1 - release], both in
    [[0, 1]], and a step from level 0 toward a target [T > 0]:
    after every number [n >= 1] of ticks the part of the step that is
    still missing, relative to [T], is strictly smaller than the part of
    a level [L > 0] that is still left after [n] silent ticks, relative
    to [L].  And if the level is within 1% of [T] after [n] ticks for
    the first time, the input is held for [k >= n] ticks and then drops
    to 0, and the level has fallen to 1% of what it was after [m]
    silent ticks for the first time, then [n <= m]. *)
Theorem attack_outpaces_release (up : t) (rms : R) :
  0 <= attack up <= 1 -> 0 <= release up <= 1 ->
  attack up > 1 - release up ->
  _envelope up = 0 -> 0 < target_of up rms ->
  (forall n down,
      (1 <= n)%nat -> same_config up down -> 0 < _envelope down ->
      (target_of up rms - _envelope (hold up rms n)) * _envelope down
      < _envelope (hold down 0 n) * target_of up rms)
  /\ (forall n k m,
         rise_ticks up rms n -> (n <= k)%nat ->
         fall_ticks (hold up rms k) m ->
         (n <= m)%nat).
Proof.
  intros Ha Hr Hfast He HT. split.
  - intros n down Hn Hc HL.
    apply relative_rise_outpaces_decay; assumption.
  - intros n k m.
    apply rise_takes_no_more_ticks_than_fall; assumption.
Qed.

Lemma target_default_full : target_of default 1 = 0.65.
Proof. unfold target_of, Rmin; simpl. literal_cases; lra. Qed.

Lemma hold_default (rms : R) (n : nat) :
  gain (hold default rms n) = 6 /\ max_open (hold default rms n) = 0.65
  /\ attack (hold default rms n) = 0.55
  /\ release (hold default rms n) = 0.75.
Proof.
  destruct (hold_config default rms n) as (Hg & Hm & Ha & Hr & _).
  rewrite <- Hg, <- Hm, <- Ha, <- Hr. repeat split.
Qed.

Lemma target_default_small : target_of default 0.005 = 0.03.
Proof. unfold target_of, Rmin; simpl. literal_cases; lra. Qed.

Lemma rise_default_small (n : nat) :
  _envelope (hold default 0.005 n) = 0.03 - 0.03 * 0.45 ^ n.
Proof.
  rewrite rise_closed_form; rewrite ?target_default_small; simpl; try lra.
  replace (1 - 0.55) with 0.45 by lra. lra.
Qed.

Lemma decay_after_small_rise (j : nat) :
  openness_of_tick (hold default 0.005 6) 0 (S j)
  = gated (Rmax 0 (Rmin 0.65 ((0.03 - 0.03 * 0.45 ^ 6) * 0.75 ^ S j))).
Proof.
  rewrite openness_of_tick_S.
  destruct (hold_default 0.005 6) as (_ & Hm & _ & Hr).
  rewrite decay_closed_form; rewrite ?Hm, ?Hr, ?rise_default_small;
    try lra; reflexivity.
Qed.

(** C9, the claim as worded fails: with the defaults
    ([attack = 0.55 > 1 - release = 0.25]) and a step to loudness 0.005
    (target 0.03) the level is within 1% of the target after 6 ticks and
    not before, and once the input drops to 0 the returned level is 0
    after 2 ticks: the rise takes more ticks than the decay, not
    fewer. *)
Lemma small_step_decays_in_fewer_ticks :
  attack default > 1 - release default
  /\ rise_ticks default 0.005 6
  /\ decay_ticks (hold default 0.005 6) 2
  /\ ~ (6 < 2)%nat.
Proof.
  split; [simpl; lra | ].
  split; [ | split; [ | lia ] ].
  - unfold rise_ticks, within_one_percent.
    rewrite target_default_small. split.
    + rewrite rise_default_small. simpl pow.
      rewrite Rabs_left1; lra.
    + intros k Hk. rewrite rise_default_small.
      do 6 (destruct k as [ | k];
            [simpl pow; rewrite Rabs_left1; lra | ]).
      lia.
  - unfold decay_ticks. split; [lia | split].
    + rewrite decay_after_small_rise.
      unfold gated, Rmax, Rmin. simpl pow. literal_cases; lra.
    + intros k Hk. assert (k = 1%nat) as -> by lia.
      rewrite decay_after_small_rise.
      unfold gated, Rmax, Rmin. simpl pow. literal_cases; lra.
Qed.

Lemma rise_default_full (n : nat) :
  _envelope (hold default 1 n) = 0.65 - 0.65 * 0.45 ^ n.
Proof.
  rewrite rise_closed_form; rewrite ?target_default_full; simpl; try lra.
  replace (1 - 0.55) with 0.45 by lra. lra.
Qed.

Lemma decay_after_full_rise (j : nat) :
  openness_of_tick (hold default 1 6) 0 (S j)
  = gated (Rmax 0 (Rmin 0.65 ((0.65 - 0.65 * 0.45 ^ 6) * 0.75 ^ S j))).
Proof.
  rewrite openness_of_tick_S.
  destruct (hold_default 1 6) as (_ & Hm & _ & Hr).
  rewrite decay_closed_form; rewrite ?Hm, ?Hr, ?rise_default_full;
    try lra; reflexivity.
Qed.

(** The same comparison at full scale: with the defaults and a loudness
    that saturates the target at [max_open = 0.65], the level is within
    1% of the target after 6 ticks, and the returned level is back at 0
    after 13 silent ticks. *)
Lemma full_scale_step_six_up_thirteen_down :
  rise_ticks default 1 6 /\ decay_ticks (hold default 1 6) 13.
Proof.
  split.
  - unfold rise_ticks, within_one_percent.
    rewrite target_default_full. split.
    + rewrite rise_default_full. simpl pow.
      rewrite Rabs_left1; lra.
    + intros k Hk. rewrite rise_default_full.
      do 6 (destruct k as [ | k];
            [simpl pow; rewrite Rabs_left1; lra | ]).
      lia.
  - unfold decay_ticks. split; [lia | split].
    + rewrite decay_after_full_rise.
      unfold gated, Rmax, Rmin. simpl pow. literal_cases; lra.
    + intros k Hk. destruct k as [ | k]; [lia | ].
      rewrite decay_after_full_rise.
      do 12 (destruct k as [ | k];
             [unfold gated, Rmax, Rmin; simpl pow; literal_cases; lra | ]).
      lia.
Qed.

Lemma fall_after_full_rise (j : nat) :
  _envelope (hold (hold default 1 6) 0 j)
  = (0.65 - 0.65 * 0.45 ^ 6) * 0.75 ^ j.
Proof.
  destruct (hold_default 1 6) as (_ & Hm & _ & Hr).
  rewrite decay_closed_form; rewrite ?Hm, ?Hr, ?rise_default_full;
    try lra; reflexivity.
Qed.

(** At full scale with the defaults the level has fallen to 1% of what
    it was after 17 silent ticks. *)
Lemma full_scale_step_falls_in_seventeen_ticks :
  fall_ticks (hold default 1 6) 17.
Proof.
  unfold fall_ticks. split.
  - rewrite fall_after_full_rise. rewrite rise_default_full.
    simpl pow. lra.
  - intros k Hk. rewrite fall_after_full_rise, rise_default_full.
    do 17 (destruct k as [ | k]; [simpl pow; lra | ]).
    lia.
Qed.

Lemma attack_outpaces_release_witness :
  (target_of default 1 - _envelope (hold default 1 4))
  * _envelope (set_envelope default 0.65)
  < _envelope (hold (set_envelope default 0.65) 0 4) * target_of default 1
  /\ rise_ticks default 1 6
  /\ fall_ticks (hold default 1 6) 17
  /\ (6 <= 17)%nat.
Proof.
  assert (HT : 0 < target_of default 1)
    by (rewrite target_default_full; lra).
  destruct (attack_outpaces_release default 1) as [Hrate Hcount];
    [simpl; lra | simpl; lra | simpl; lra | reflexivity | exact HT | ].
  destruct full_scale_step_six_up_thirteen_down as [Hup _].
  pose proof full_scale_step_falls_in_seventeen_ticks as Hdown.
  split; [ | split; [exact Hup | split; [exact Hdown | ] ] ].
  - apply (Hrate 4%nat (set_envelope default 0.65)).
    + lia.
    + apply set_envelope_config.
    + simpl. lra.
  - apply (Hcount 6%nat 6%nat 17%nat Hup); [lia | exact Hdown].
Defined.

(** The two counts can be equal: with attack 0.55 and release 0.46
    ([0.55 > 1 - 0.46]) the rise to within 1% of the target and the
    fall of the level to 1% of itself take 6 ticks each. *)
Lemma rise_and_fall_can_take_equally_many_ticks :
  let self := init 6 0.65 0.55 0.46 3.5 true in
  attack self > 1 - release self
  /\ rise_ticks self 1 6
  /\ fall_ticks (hold self 1 6) 6.
Proof.
  cbv zeta. set (self := init 6 0.65 0.55 0.46 3.5 true).
  assert (HT : target_of self 1 = 0.65)
    by (unfold target_of, Rmin; simpl; literal_cases; lra).
  assert (Hrise : forall n,
             _envelope (hold self 1 n) = 0.65 - 0.65 * 0.45 ^ n).
  { intros n. rewrite rise_closed_form; rewrite ?HT; simpl; try lra.
    replace (1 - 0.55) with 0.45 by lra. lra. }
  assert (Hfall : forall j,
             _envelope (hold (hold self 1 6) 0 j)
             = (0.65 - 0.65 * 0.45 ^ 6) * 0.46 ^ j).
  { intros j. destruct (hold_config self 1 6) as (_ & Hm & _ & Hr & _).
    rewrite decay_closed_form; rewrite <- ?Hm, <- ?Hr, ?Hrise;
      simpl; try lra; reflexivity. }
  split; [simpl; lra | ]. split.
  - unfold rise_ticks, within_one_percent. rewrite HT. split.
    + rewrite Hrise. simpl pow. rewrite Rabs_left1; lra.
    + intros k Hk. rewrite Hrise.
      do 6 (destruct k as [ | k];
            [simpl pow; rewrite Rabs_left1; lra | ]).
      lia.
  - unfold fall_ticks. split.
    + rewrite Hfall, Hrise. simpl pow. lra.
    + intros k Hk. rewrite Hfall, Hrise.
      do 6 (destruct k as [ | k]; [simpl pow; lra | ]).
      lia.
Qed.

(** Holding a loudness for [n] ticks is feeding it [n] times. *)
Lemma hold_ticks (rms : R) (n : nat) :
  forall self : t, hold self rms n = fst (ticks self (repeat rms n)).
Proof.
  induction n as [ | n IH]; intros self; [reflexivity | ].
  unfold hold. rewrite Nat.iter_succ_r. fold (hold (fst (rms_to_blend_shapes self rms)) rms n).
  rewrite IH. simpl.
  destruct (rms_to_blend_shapes self rms) as [self1 e1]. simpl.
  destruct (ticks self1 (repeat rms n)) as [self2 out]. reflexivity.
Qed.

End AttackAndRelease.

Section RenderSession.

Import AudioRouter.

Lemma slice_length {X : Type} (xs : list X) (start stop : nat) :
  (stop <= length xs)%nat -> length (slice xs start stop) = (stop - start)%nat.
Proof.
  intros H. unfold slice. rewrite length_firstn, length_skipn. lia.
Qed.

(** The cursor, the raised [CallbackStop] and the completion flag after
    one invocation. *)
Lemma callback_effect (samples : ndarray) (outdata : buffer)
      (frames : nat) (s : cell) :
  let '(_, s', stop) := audio_callback samples outdata frames s in
  write_pos s'
  = (if (len samples <=? write_pos s)%nat then write_pos s
     else Nat.min (len samples) (write_pos s + frames))
  /\ stop = (len samples <=? write_pos s')%nat
  /\ playback_done s' = (stop || playback_done s)%bool.
Proof.
  unfold audio_callback.
  destruct (len samples <=? write_pos s)%nat eqn:Hdone.
  - simpl. rewrite Hdone. auto.
  - apply Nat.leb_gt in Hdone.
    assert (Hend : (if (len samples <? write_pos s + frames)%nat
                    then len samples else (write_pos s + frames)%nat)
                   = Nat.min (len samples) (write_pos s + frames)).
    { destruct (len samples <? write_pos s + frames)%nat eqn:E.
      - apply Nat.ltb_lt in E. lia.
      - apply Nat.ltb_ge in E. lia. }
    rewrite Hend.
    destruct samples as [xs | xs];
      destruct (len _ <=? Nat.min _ _)%nat eqn:Hstop; simpl;
      simpl in Hstop; rewrite ?Hstop; auto.
Qed.

(** A stream that is offered enough frames runs until the callback
    stops it: the copied frames add up to what was left of the buffer,
    the flag is clear after every invocation but the last, and the last
    invocation leaves the cursor at the end with the flag set. *)
Lemma stream_completes (samples : ndarray) (device : list buffer) :
  forall s : cell,
    device <> [] ->
    Forall (fun outdata => (0 < length outdata)%nat) device ->
    playback_done s = false ->
    (write_pos s <= len samples)%nat ->
    (len samples - write_pos s <= offered device)%nat ->
    let calls := stream samples device s in
    total_copied s calls = (len samples - write_pos s)%nat
    /\ (forall more, stream samples (device ++ more) s = calls)
    /\ exists earlier out final,
        calls = earlier ++ [(out, final)]
        /\ Forall (fun c => playback_done (snd c) = false
                            /\ (write_pos (snd c) < len samples)%nat) earlier
        /\ playback_done final = true
        /\ write_pos final = len samples.
Proof.
  induction device as [ | outdata device IH];
    intros s Hne Hpos Hflag Hcur Hoff; [congruence | ].
  cbv zeta. cbn [stream].
  pose proof (callback_effect samples outdata (length outdata) s) as Heff.
  destruct (audio_callback samples outdata (length outdata) s)
    as [[out s'] stop] eqn:Ecb.
  destruct Heff as (Hp & Hstop & Hdone).
  apply Forall_cons_iff in Hpos as [Hfr Hpos'].
  destruct (len samples <=? write_pos s)%nat eqn:Hend.
  - apply Nat.leb_le in Hend.
    destruct stop;
      [ | symmetry in Hstop; apply Nat.leb_gt in Hstop; lia ].
    simpl in *.
    split; [unfold copied; lia | ].
    split; [intros more; rewrite Ecb; reflexivity | ].
    exists [], out, s'. repeat split; auto. lia.
  - apply Nat.leb_gt in Hend.
    destruct stop.
    + symmetry in Hstop. apply Nat.leb_le in Hstop.
      simpl in *.
      split; [unfold copied; lia | ].
      split; [intros more; rewrite Ecb; reflexivity | ].
      exists [], out, s'. repeat split; auto. lia.
    + symmetry in Hstop. apply Nat.leb_gt in Hstop.
      simpl in Hdone, Hoff.
      assert (Hp' : write_pos s' = (write_pos s + length outdata)%nat) by lia.
      assert (Hne' : device <> []).
      { intros ->. simpl in Hoff. lia. }
      destruct (IH s' Hne' Hpos')
        as (Htot & Hmore & earlier & o & final & Hc & Hall & Hf & Hw);
        try lia; try congruence.
      cbn [total_copied].
      split; [rewrite Htot; unfold copied; lia | ].
      split; [intros more; simpl; rewrite Ecb, Hmore; reflexivity | ].
      exists ((out, s') :: earlier), o, final.
      rewrite Hc. repeat split; auto.
      constructor; [ split; simpl; [congruence | lia] | exact Hall ].
Qed.

Lemma fill_zero_zero (out : buffer) :
  Forall (Forall (fun x => x = 0)) (fill_zero out).
Proof.
  unfold fill_zero. apply Forall_forall. intros row Hrow.
  apply in_map_iff in Hrow as (r & <- & _).
  apply Forall_forall. intros x Hx.
  apply in_map_iff in Hx as (? & <- & _). reflexivity.
Qed.

Lemma zero_from_firstn (n : nat) (out : buffer) :
  (n <= length out)%nat -> firstn n (zero_from n out) = firstn n out.
Proof.
  intros H. unfold zero_from.
  rewrite firstn_app, length_firstn, Nat.min_l by exact H.
  rewrite Nat.sub_diag, firstn_0, app_nil_r, firstn_firstn, Nat.min_id.
  reflexivity.
Qed.

Lemma zero_from_zero (n : nat) (out : buffer) :
  (n <= length out)%nat -> zero_filled_from n (zero_from n out).
Proof.
  intros H. unfold zero_filled_from, zero_from.
  rewrite skipn_app, length_firstn, Nat.min_l by exact H.
  rewrite Nat.sub_diag, skipn_firstn_comm, Nat.sub_diag. simpl.
  apply fill_zero_zero.
Qed.

Lemma assign_col0_length (xs : list R) :
  forall out : buffer, length (assign_col0 xs out) = length out.
Proof.
  induction xs as [ | x xs IH]; intros [ | row out]; simpl; auto.
Qed.

Lemma assign_col0_channel0 (xs : list R) :
  forall (n : nat) (out : buffer),
    length xs = n -> (n <= length out)%nat ->
    channel0 n (assign_col0 xs out) = xs.
Proof.
  unfold channel0.
  induction xs as [ | x xs IH]; intros n [ | row out] <- H; simpl in *;
    try reflexivity; try lia.
  rewrite (IH (length xs)) by (reflexivity || lia). reflexivity.
Qed.

Lemma assign_rows_firstn (n : nat) (rows : list (list R)) (out : buffer) :
  length rows = n -> firstn n (assign_rows n rows out) = rows.
Proof.
  intros <-. unfold assign_rows.
  rewrite firstn_app, Nat.sub_diag, firstn_0, app_nil_r, firstn_all.
  reflexivity.
Qed.

Lemma assign_rows_length (n : nat) (rows : list (list R)) (out : buffer) :
  length rows = n -> (n <= length out)%nat ->
  length (assign_rows n rows out) = length out.
Proof.
  intros <- H. unfold assign_rows. rewrite length_app, length_skipn. lia.
Qed.

Lemma channel0_row_of (xs : list (R * R)) :
  map (hd 0) (map row_of xs) = map fst xs.
Proof. rewrite map_map. reflexivity. Qed.

Lemma zero_from_length (n : nat) (out : buffer) :
  length (zero_from n out) = length out.
Proof.
  unfold zero_from, fill_zero.
  rewrite length_app, length_map, <- length_app, firstn_skipn. reflexivity.
Qed.

(** What one invocation on an output array of [frames] rows writes:
    the rows copied carry the next sample frames, every row after them
    is zero, and the amplitude stored is the root mean square of the
    first column of the rows copied. *)
Lemma callback_output (samples : ndarray) (outdata : buffer) (s : cell) :
  let '(out, s', _) := audio_callback samples outdata (length outdata) s in
  length out = length outdata
  /\ zero_filled_from (copied s s') out
  /\ carries samples (write_pos s) (copied s s') out
  /\ ((write_pos s < len samples)%nat ->
      current_rms s' = rms_of (channel0 (copied s s') out))
  /\ ((len samples <= write_pos s)%nat -> current_rms s' = 0).
Proof.
  unfold audio_callback.
  destruct (len samples <=? write_pos s)%nat eqn:Hdone.
  - apply Nat.leb_le in Hdone. unfold copied. simpl.
    rewrite Nat.sub_diag.
    split; [unfold fill_zero; apply length_map | ].
    split; [apply fill_zero_zero | ].
    split; [ | split; [lia | reflexivity] ].
    unfold carries, channel0, slice.
    rewrite Nat.add_0_r, Nat.sub_diag. destruct samples; reflexivity.
  - apply Nat.leb_gt in Hdone.
    set (end_ := if (len samples <? write_pos s + length outdata)%nat
                 then len samples else (write_pos s + length outdata)%nat).
    assert (Hend : (write_pos s <= end_ <= len samples)%nat
                   /\ (end_ - write_pos s <= length outdata)%nat).
    { unfold end_.
      destruct (len samples <? write_pos s + length outdata)%nat eqn:E.
      - apply Nat.ltb_lt in E. lia.
      - apply Nat.ltb_ge in E. lia. }
    destruct Hend as [Hend Hact].
    assert (Hback : (write_pos s + (end_ - write_pos s))%nat = end_) by lia.
    destruct samples as [xs | xs]; simpl in Hend, Hdone.
    + pose proof (slice_length xs (write_pos s) end_ (proj2 Hend)) as Hlen.
      assert (Hres :
               let out := zero_from (end_ - write_pos s)
                            (assign_col0 (slice xs (write_pos s) end_) outdata) in
               length out = length outdata
               /\ zero_filled_from (end_ - write_pos s) out
               /\ channel0 (end_ - write_pos s) out
                  = slice xs (write_pos s) end_).
      { cbv zeta. split; [ | split ].
        - rewrite zero_from_length. apply assign_col0_length.
        - apply zero_from_zero. rewrite assign_col0_length. exact Hact.
        - unfold channel0. rewrite zero_from_firstn
            by (rewrite assign_col0_length; exact Hact).
          apply assign_col0_channel0; assumption. }
      cbv zeta in Hres. destruct Hres as (H1 & H2 & H3).
      destruct (len (Mono xs) <=? end_)%nat; unfold copied, carries; simpl;
        rewrite Hback, H3; repeat split; auto; lia.
    + pose proof (slice_length xs (write_pos s) end_ (proj2 Hend)) as Hlen.
      assert (Hrows : length (map row_of (slice xs (write_pos s) end_))
                      = (end_ - write_pos s)%nat)
        by (rewrite length_map; exact Hlen).
      assert (Hres :
               let out := zero_from (end_ - write_pos s)
                            (assign_rows (end_ - write_pos s)
                               (map row_of (slice xs (write_pos s) end_))
                               outdata) in
               length out = length outdata
               /\ zero_filled_from (end_ - write_pos s) out
               /\ firstn (end_ - write_pos s) out
                  = map row_of (slice xs (write_pos s) end_)).
      { cbv zeta.
        assert (Hl : length (assign_rows (end_ - write_pos s)
                               (map row_of (slice xs (write_pos s) end_))
                               outdata)
                     = length outdata)
          by (apply assign_rows_length; assumption).
        split; [ | split ].
        - rewrite zero_from_length. exact Hl.
        - apply zero_from_zero. rewrite Hl. exact Hact.
        - rewrite zero_from_firstn by (rewrite Hl; exact Hact).
          apply assign_rows_firstn. exact Hrows. }
      cbv zeta in Hres. destruct Hres as (H1 & H2 & H3).
      destruct (len (Stereo xs) <=? end_)%nat; unfold copied, carries, channel0;
        simpl; rewrite Hback, H3, channel0_row_of; repeat split; auto; lia.
Qed.

Lemma stream_each_call (samples : ndarray) (device : list buffer) :
  forall s : cell,
    each_call
      (fun before out after =>
         carries samples (write_pos before) (copied before after) out
         /\ zero_filled_from (copied before after) out)
      s (stream samples device s).
Proof.
  induction device as [ | outdata device IH]; intros s; simpl; [exact I | ].
  pose proof (callback_output samples outdata s) as Hout.
  destruct (audio_callback samples outdata (length outdata) s)
    as [[out s'] stop].
  destruct Hout as (_ & Hz & Hc & _).
  destruct stop; simpl; auto.
Qed.

(** A completed session asked again: silence, nothing copied, the flag
    stays set and [CallbackStop] is raised again. *)
Lemma callback_after_completion (samples : ndarray) (outdata : buffer)
      (frames : nat) (s : cell) :
  write_pos s = len samples ->
  audio_callback samples outdata frames s
  = (fill_zero outdata, mkCell 0 (len samples) true, true).
Proof.
  intros Hw. unfold audio_callback. rewrite Hw, Nat.leb_refl. reflexivity.
Qed.

(** C1.  A buffer of [N = len samples] frames played through a stream
    whose device keeps asking for non-empty output arrays: over the
    invocations that take place the frames copied add up to exactly
    [N]; every invocation writes the next sample frames into the first
    rows of its array and zeros into all rows after them; the
    completion flag is clear after every invocation before the last one
    (whose cursors are still short of [N]) and set by the last one,
    which leaves the cursor at [N].  The flag is set exactly when
    [CallbackStop] is raised, no request of the device after that is
    served, setting the flag again changes nothing, and a completed
    session that is invoked again writes silence, keeps cursor and flag
    and stops again. *)
Theorem buffer_rendered_exactly_once (samples : ndarray)
        (device : list buffer) :
  device <> [] ->
  Forall (fun outdata => (0 < length outdata)%nat) device ->
  (len samples <= offered device)%nat ->
  let calls := stream samples device fresh in
  total_copied fresh calls = len samples
  /\ each_call
       (fun before out after =>
          carries samples (write_pos before) (copied before after) out
          /\ zero_filled_from (copied before after) out)
       fresh calls
  /\ (exists earlier out final,
         calls = earlier ++ [(out, final)]
         /\ Forall (fun c => playback_done (snd c) = false
                             /\ (write_pos (snd c) < len samples)%nat) earlier
         /\ playback_done final = true
         /\ write_pos final = len samples)
  /\ (forall more, stream samples (device ++ more) fresh = calls)
  /\ (forall outdata frames s,
         playback_done s = false ->
         let '(_, s', stop) := audio_callback samples outdata frames s in
         playback_done s' = stop)
  /\ (forall flag, event_set (event_set flag) = event_set flag)
  /\ (forall outdata frames s,
         playback_done s = true -> write_pos s = len samples ->
         audio_callback samples outdata frames s
         = (fill_zero outdata,
            mkCell 0 (write_pos s) (playback_done s), true)).
Proof.
  intros Hne Hpos Hoff. cbv zeta.
  destruct (stream_completes samples device fresh Hne Hpos)
    as (Htot & Hmore & Hlast); simpl; try lia; try reflexivity.
  simpl in Htot. rewrite Nat.sub_0_r in Htot.
  split; [exact Htot | ].
  split; [apply stream_each_call | ].
  split; [exact Hlast | ].
  split; [exact Hmore | ].
  split; [ | split; [reflexivity | ] ].
  - intros outdata frames s Hflag.
    pose proof (callback_effect samples outdata frames s) as Heff.
    destruct (audio_callback samples outdata frames s) as [[out s'] stop].
    destruct Heff as (_ & _ & Hd). rewrite Hd, Hflag.
    apply orb_false_r.
  - intros outdata frames s Hflag Hw.
    rewrite (callback_after_completion samples outdata frames s Hw), Hw, Hflag.
    reflexivity.
Qed.

Lemma buffer_rendered_exactly_once_witness :
  let samples := Mono [0.5; -0.5; 0.25] in
  let device := [[[0]; [0]]; [[0]; [0]]; [[0]; [0]]] in
  let calls := stream samples device fresh in
  total_copied fresh calls = len samples
  /\ each_call
       (fun before out after =>
          carries samples (write_pos before) (copied before after) out
          /\ zero_filled_from (copied before after) out)
       fresh calls
  /\ (exists earlier out final,
         calls = earlier ++ [(out, final)]
         /\ Forall (fun c => playback_done (snd c) = false
                             /\ (write_pos (snd c) < len samples)%nat) earlier
         /\ playback_done final = true
         /\ write_pos final = len samples)
  /\ (forall more, stream samples (device ++ more) fresh = calls)
  /\ (forall outdata frames s,
         playback_done s = false ->
         let '(_, s', stop) := audio_callback samples outdata frames s in
         playback_done s' = stop)
  /\ (forall flag, event_set (event_set flag) = event_set flag)
  /\ (forall outdata frames s,
         playback_done s = true -> write_pos s = len samples ->
         audio_callback samples outdata frames s
         = (fill_zero outdata,
            mkCell 0 (write_pos s) (playback_done s), true)).
Proof.
  apply (buffer_rendered_exactly_once
           (Mono [0.5; -0.5; 0.25])
           [[[0]; [0]]; [[0]; [0]]; [[0]; [0]]]).
  - discriminate.
  - repeat constructor.
  - simpl. lia.
Defined.

Lemma assign_col0_widths (xs : list R) :
  forall out : buffer,
    Forall (fun row => length row = 1%nat) out ->
    Forall (fun row => length row = 1%nat) (assign_col0 xs out).
Proof.
  induction xs as [ | x xs IH]; intros [ | row out] H; simpl; auto.
  apply Forall_cons_iff in H as [Hrow Hout].
  constructor; [ | apply IH; exact Hout ].
  destruct row as [ | y [ | z row]]; simpl in *; congruence.
Qed.

Lemma concat_single_column (rows : buffer) :
  Forall (fun row => length row = 1%nat) rows ->
  concat rows = map (hd 0) rows.
Proof.
  induction 1 as [ | row rows Hrow _ IH]; [reflexivity | ].
  destruct row as [ | y [ | z row]]; simpl in *; try discriminate.
  rewrite IH. reflexivity.
Qed.

Lemma Forall_firstn_of {X : Type} (P : X -> Prop) (n : nat) (xs : list X) :
  Forall P xs -> Forall P (firstn n xs).
Proof.
  intros H. rewrite <- (firstn_skipn n xs) in H.
  apply Forall_app in H. tauto.
Qed.

(** With a one-dimensional sample array and a one-column output array
    the first column of the rows copied is all that was copied. *)
Lemma mono_single_column (xs : list R) (outdata : buffer) (s : cell) :
  Forall (fun row => length row = 1%nat) outdata ->
  let '(out, s', _) := audio_callback (Mono xs) outdata (length outdata) s in
  all_channels (copied s s') out = channel0 (copied s s') out.
Proof.
  intros Hw. unfold audio_callback.
  destruct (len (Mono xs) <=? write_pos s)%nat.
  - unfold copied, all_channels, channel0. simpl.
    rewrite Nat.sub_diag. reflexivity.
  - set (end_ := if (len (Mono xs) <? write_pos s + length outdata)%nat
                 then len (Mono xs) else (write_pos s + length outdata)%nat).
    assert (Hall : forall n,
               all_channels n
                 (zero_from (end_ - write_pos s)
                    (assign_col0 (slice xs (write_pos s) end_) outdata))
               = channel0 n
                   (zero_from (end_ - write_pos s)
                      (assign_col0 (slice xs (write_pos s) end_) outdata))).
    { intros n. unfold all_channels, channel0.
      apply concat_single_column, Forall_firstn_of.
      unfold zero_from. apply Forall_app. split.
      - apply Forall_firstn_of, assign_col0_widths, Hw.
      - unfold fill_zero. apply Forall_forall. intros row Hrow.
        apply in_map_iff in Hrow as (r & <- & Hr).
        rewrite length_map.
        assert (Hs : Forall (fun row => length row = 1%nat)
                       (assign_col0 (slice xs (write_pos s) end_) outdata))
          by apply assign_col0_widths, Hw.
        rewrite <- (firstn_skipn (end_ - write_pos s)) in Hs.
        apply Forall_app in Hs as [_ Hs].
        rewrite Forall_forall in Hs. apply Hs, Hr. }
    destruct (len (Mono xs) <=? end_)%nat; apply Hall.
Qed.

(** C2, as the code has it.  On every invocation that finds frames left
    and is asked for at least one, at least one frame is copied and the
    amplitude stored is the root mean square of the first channel of
    the frames copied in that invocation.  For a one-dimensional sample
    array played into a one-column output array that is the root mean
    square of all samples copied. *)
Theorem amplitude_is_rms_of_first_channel (samples : ndarray)
        (outdata : buffer) (s : cell) :
  (write_pos s < len samples)%nat ->
  (0 < length outdata)%nat ->
  let '(out, s', _) := audio_callback samples outdata (length outdata) s in
  (0 < copied s s')%nat
  /\ carries samples (write_pos s) (copied s s') out
  /\ current_rms s' = rms_of (channel0 (copied s s') out)
  /\ (forall xs,
         samples = Mono xs ->
         Forall (fun row => length row = 1%nat) outdata ->
         current_rms s' = rms_of (all_channels (copied s s') out)).
Proof.
  intros Hleft Hframes.
  pose proof (callback_output samples outdata s) as Hout.
  pose proof (callback_effect samples outdata (length outdata) s) as Heff.
  assert (Hmono : forall xs, samples = Mono xs ->
                             Forall (fun row => length row = 1%nat) outdata ->
                             let '(out, s', _) :=
                               audio_callback samples outdata (length outdata) s in
                             all_channels (copied s s') out
                             = channel0 (copied s s') out).
  { intros xs -> Hw. apply mono_single_column, Hw. }
  destruct (audio_callback samples outdata (length outdata) s)
    as [[out s'] stop].
  destruct Hout as (_ & _ & Hc & Hrms & _).
  destruct Heff as (Hp & _).
  apply Nat.leb_gt in Hleft as Hleft'. rewrite Hleft' in Hp.
  split; [unfold copied; lia | ].
  split; [exact Hc | ].
  split; [apply Hrms, Hleft | ].
  intros xs Hx Hw. rewrite (Hmono xs Hx Hw). apply Hrms, Hleft.
Qed.

Lemma amplitude_is_rms_of_first_channel_witness :
  let samples := Mono [0.5; -0.5; 0.25] in
  let outdata := [[0]; [0]] in
  let '(out, s', _) := audio_callback samples outdata (length outdata) fresh in
  (0 < copied fresh s')%nat
  /\ carries samples (write_pos fresh) (copied fresh s') out
  /\ current_rms s' = rms_of (channel0 (copied fresh s') out)
  /\ (forall xs,
         samples = Mono xs ->
         Forall (fun row => length row = 1%nat) outdata ->
         current_rms s' = rms_of (all_channels (copied fresh s') out)).
Proof.
  apply (amplitude_is_rms_of_first_channel
           (Mono [0.5; -0.5; 0.25]) [[0]; [0]] fresh); simpl; lia.
Defined.

(** C2, the claim as worded fails for a two-channel buffer: one frame
    with 0 on the left and 1 on the right is copied to the output as it
    is, and the amplitude stored is 0, the root mean square of the left
    sample alone, while the root mean square of the two samples copied
    is [sqrt (1 / 2)]. *)
Lemma stereo_amplitude_ignores_second_channel :
  let '(out, s', _) :=
    audio_callback (Stereo [(0, 1)]) [[0; 0]] 1 fresh in
  out = [[0; 1]]
  /\ copied fresh s' = 1%nat
  /\ current_rms s' = 0
  /\ rms_of (all_channels 1 out) = sqrt (1 / 2)
  /\ current_rms s' <> rms_of (all_channels 1 out).
Proof.
  assert (Hl : rms_of [0] = 0).
  { unfold rms_of, sum_sq. simpl.
    replace ((0 * 0 + 0) / 1) with 0 by lra. apply sqrt_0. }
  assert (Hr : rms_of [0; 1] = sqrt (1 / 2)).
  { unfold rms_of, sum_sq. simpl. f_equal. lra. }
  cbn. rewrite Hl. unfold all_channels. cbn. rewrite Hr.
  repeat split.
  assert (0 < sqrt (1 / 2)) by (apply sqrt_lt_R0; lra). lra.
Qed.

(** Three frames played into arrays of two rows: two invocations, the
    second one partial and zero-filled. *)
Example three_frames_in_arrays_of_two :
  stream (Mono [0.5; -0.5; 0.25]) [[[7]; [7]]; [[7]; [7]]; [[7]; [7]]] fresh
  = [([[0.5]; [-0.5]], mkCell (rms_of [0.5; -0.5]) 2 false);
     ([[0.25]; [0]], mkCell (rms_of [0.25]) 3 true)].
Proof. reflexivity. Qed.

Example two_stereo_frames_in_one_array :
  stream (Stereo [(0.5, 0.1); (-0.5, 0.2)]) [[[7; 7]; [7; 7]; [7; 7]]] fresh
  = [([[0.5; 0.1]; [-0.5; 0.2]; [0; 0]],
      mkCell (rms_of [0.5; -0.5]) 2 true)].
Proof. reflexivity. Qed.

End RenderSession.

Section PlaybackQueue.

Import ApiServer.

Lemma sessions_open_one_by_one (done : list (bytes * bool)) :
  forall (n : nat) (rest : list observation),
    sessions_open n (one_by_one done ++ rest) = sessions_open n rest.
Proof.
  induction done as [ | item done IH]; intros n rest; [reflexivity | ].
  simpl. apply IH.
Qed.

Lemma one_by_one_snoc (done : list (bytes * bool)) (audio_data : bytes)
      (ok : bool) :
  one_by_one (done ++ [(audio_data, ok)])
  = one_by_one done ++ [Started audio_data; Finished audio_data ok].
Proof.
  unfold one_by_one. rewrite flat_map_app. simpl. reflexivity.
Qed.

Lemma step_sequential (srv : t) (a : action) (done : list (bytes * bool)) :
  sequential srv done ->
  exists done',
    sequential (step srv a) done'
    /\ (a <> Clear ->
        map fst done' ++ option_list (in_flight (step srv a))
        ++ playback_queue (step srv a)
        = (map fst done ++ option_list (in_flight srv) ++ playback_queue srv)
          ++ accepted [a]).
Proof.
  unfold sequential. intros Hseq.
  destruct a as [audio_data | | | env | | ]; simpl.
  - exists done. destruct audio_data as [ | b audio_data]; simpl.
    + split; [exact Hseq | intros _; rewrite app_nil_r; reflexivity].
    + split; [exact Hseq | intros _].
      rewrite <- !app_assoc. reflexivity.
  - exists done. split; [exact Hseq | congruence].
  - unfold worker_get.
    destruct (in_flight srv) as [current | ] eqn:Hfl.
    + exists done. rewrite Hfl.
      split; [exact Hseq | intros _; rewrite app_nil_r; reflexivity].
    + destruct (playback_queue srv) as [ | audio_data rest] eqn:Hq.
      * exists done. rewrite Hfl, Hq.
        split; [exact Hseq | intros _; rewrite !app_nil_r; reflexivity].
      * exists done. simpl. rewrite Hseq. simpl. rewrite app_nil_r.
        split; [reflexivity | intros _; rewrite app_nil_r; reflexivity].
  - unfold worker_resume.
    destruct (in_flight srv) as [current | ] eqn:Hfl.
    + destruct (hung srv) as [rms | ] eqn:Hh.
      { exists done. rewrite Hfl.
        split; [exact Hseq | intros _; rewrite app_nil_r; reflexivity]. }
      cbv zeta.
      destruct (AudioRouter.play_audio_with_vmc _ _ _ (vmc srv))
        as [[[vmc' records] ok] | ].
      * exists (done ++ [(current, ok)]). simpl.
        rewrite Hseq, one_by_one_snoc, app_nil_r, <- app_assoc. simpl.
        split; [reflexivity | intros _].
        rewrite map_app, app_nil_r, <- app_assoc. reflexivity.
      * destruct (AudioRouter.hung_call _ (vmc srv)) as [[vmc' records] rms].
        exists done. simpl.
        split; [exact Hseq | intros _; rewrite app_nil_r; reflexivity].
    + exists done. rewrite Hfl.
      split; [exact Hseq | intros _; rewrite app_nil_r; reflexivity].
  - exists done. unfold leaked_tick.
    destruct (0 <? leaked_threads srv)%nat; simpl;
      (split; [exact Hseq | intros _; rewrite app_nil_r; reflexivity]).
  - exists done. unfold hung_tick.
    destruct (hung srv); simpl;
      (split; [exact Hseq | intros _; rewrite app_nil_r; reflexivity]).
Qed.

Lemma run_sequential (actions : list action) :
  forall (srv : t) (done : list (bytes * bool)),
    sequential srv done ->
    exists done',
      sequential (run srv actions) done'
      /\ (no_clear actions ->
          map fst done' ++ option_list (in_flight (run srv actions))
          ++ playback_queue (run srv actions)
          = (map fst done ++ option_list (in_flight srv) ++ playback_queue srv)
            ++ accepted actions).
Proof.
  induction actions as [ | a actions IH]; intros srv done Hseq.
  - exists done. split; [exact Hseq | intros _; simpl; rewrite app_nil_r; reflexivity].
  - destruct (step_sequential srv a done Hseq) as (done1 & Hseq1 & Hq1).
    destruct (IH (step srv a) done1 Hseq1) as (done2 & Hseq2 & Hq2).
    exists done2. split; [exact Hseq2 | ].
    intros Hnc. apply Forall_cons_iff in Hnc as [Ha Hnc].
    change (run srv (a :: actions)) with (run (step srv a) actions).
    rewrite (Hq2 Hnc), (Hq1 Ha), <- app_assoc. f_equal.
    destruct a as [[ | b audio_data] | | | env | | ]; reflexivity.
Qed.

(** A session that ends has its cursor at the end of the buffer and the
    completion flag set. *)
Lemma session_renders_to_the_end (samples : AudioRouter.ndarray)
      (schedule : list AudioRouter.event) :
  forall (s s' : AudioRouter.cell) (vmc vmc' : VMCLipSync.t),
    (AudioRouter.write_pos s <= AudioRouter.len samples)%nat ->
    AudioRouter.session samples schedule s vmc = (s', vmc', true) ->
    AudioRouter.write_pos s' = AudioRouter.len samples
    /\ AudioRouter.playback_done s' = true.
Proof.
  induction schedule as [ | e schedule IH]; intros s s' vmc vmc' Hpos Hrun;
    [discriminate | ].
  destruct e as [outdata | | ]; simpl in Hrun.
  - pose proof (callback_effect samples outdata (length outdata) s) as Heff.
    destruct (AudioRouter.audio_callback samples outdata (length outdata) s)
      as [[out s1] stop].
    destruct Heff as (Hp & Hstop & Hdone).
    assert (Hle : (AudioRouter.write_pos s1 <= AudioRouter.len samples)%nat).
    { rewrite Hp. destruct (_ <=? _)%nat; lia. }
    destruct stop.
    + injection Hrun as <- _.
      symmetry in Hstop. apply Nat.leb_le in Hstop.
      split; [lia | rewrite Hdone; reflexivity].
    + eapply IH; eassumption.
  - eapply IH; eassumption.
  - eapply IH; eassumption.
Qed.

(** The callbacks decide whether and where a session ends; the turns
    of the VMC threads do not. *)
Lemma session_cell_undisturbed (samples : AudioRouter.ndarray)
      (schedule : list AudioRouter.event) :
  forall (s : AudioRouter.cell) (vmc vmc' : VMCLipSync.t),
    let quiet :=
      filter (fun e => match e with
                       | AudioRouter.Leaked => false
                       | _ => true
                       end) schedule in
    fst (fst (AudioRouter.session samples quiet s vmc'))
    = fst (fst (AudioRouter.session samples schedule s vmc))
    /\ snd (AudioRouter.session samples quiet s vmc')
       = snd (AudioRouter.session samples schedule s vmc).
Proof.
  induction schedule as [ | e schedule IH]; intros s vmc vmc'; cbv zeta;
    [simpl; auto | ].
  destruct e as [outdata | | ]; simpl.
  - destruct (AudioRouter.audio_callback samples outdata (length outdata) s)
      as [[out s1] stop].
    destruct stop; [simpl; auto | apply IH].
  - apply IH.
  - apply IH.
Qed.

Lemma callbacks_of_undisturbed (schedule : list AudioRouter.event) :
  callbacks_of (filter (fun e => match e with
                                 | AudioRouter.Leaked => false
                                 | _ => true
                                 end) schedule)
  = callbacks_of schedule.
Proof.
  induction schedule as [ | e schedule IH]; [reflexivity | ].
  destruct e as [outdata | | ]; simpl.
  - unfold callbacks_of in *. simpl. rewrite IH. reflexivity.
  - exact IH.
  - exact IH.
Qed.

(** Whether a call returns does not depend on the lip-sync object, nor
    on threads left running. *)
Lemma returns_whatever_the_threads (has_pydub has_sounddevice : bool)
      (env : AudioRouter.environment) (vmc vmc' : VMCLipSync.t) :
  AudioRouter.play_audio_with_vmc has_pydub has_sounddevice env vmc <> None ->
  AudioRouter.play_audio_with_vmc has_pydub has_sounddevice env vmc' <> None
  /\ AudioRouter.play_audio_with_vmc has_pydub has_sounddevice
       (AudioRouter.undisturbed env) vmc' <> None.
Proof.
  unfold AudioRouter.play_audio_with_vmc.
  destruct (negb has_pydub || negb has_sounddevice);
    [intros _; split; discriminate | ].
  destruct env as [ | samples polls | samples schedule]; simpl;
    try (intros _; split; discriminate).
  pose proof (session_cell_undisturbed samples schedule AudioRouter.fresh
                                        vmc vmc') as [_ Hq].
  pose proof (session_cell_undisturbed samples schedule AudioRouter.fresh
                                        vmc' vmc') as [_ Hq'].
  cbv zeta in Hq, Hq'.
  destruct (AudioRouter.session samples schedule AudioRouter.fresh vmc)
    as [[s1 v1] d1].
  destruct (AudioRouter.session samples schedule AudioRouter.fresh vmc')
    as [[s2 v2] d2].
  destruct (AudioRouter.session samples _ AudioRouter.fresh vmc')
    as [[s3 v3] d3].
  simpl in Hq, Hq'. subst d3. subst d2.
  destruct d1; [intros _; split; discriminate | intros H; congruence].
Qed.

Lemma start_sequential (has_pydub has_sounddevice : bool)
      (vmc0 : VMCLipSync.t) :
  sequential (start has_pydub has_sounddevice vmc0) [].
Proof. reflexivity. Qed.

Lemma play_true_is_full_playback (has_pydub has_sounddevice : bool)
      (env : AudioRouter.environment) (vmc vmc' : VMCLipSync.t)
      (records : list AudioRouter.record) :
  AudioRouter.play_audio_with_vmc has_pydub has_sounddevice env vmc
  = Some (vmc', records, true) ->
  exists samples schedule final,
    env = AudioRouter.Plays samples schedule
    /\ AudioRouter.session samples schedule AudioRouter.fresh vmc
       = (final, vmc', true)
    /\ AudioRouter.write_pos final = AudioRouter.len samples
    /\ AudioRouter.playback_done final = true.
Proof.
  unfold AudioRouter.play_audio_with_vmc.
  destruct (negb has_pydub || negb has_sounddevice); [discriminate | ].
  destruct env as [ | samples polls | samples schedule]; try discriminate.
  destruct (AudioRouter.session samples schedule AudioRouter.fresh vmc)
    as [[final vmc1] done] eqn:Hs.
  destruct done; [ | discriminate].
  intros H. injection H as <- _.
  exists samples, schedule, final.
  split; [reflexivity | split; [exact Hs | ] ].
  eapply session_renders_to_the_end; [ | exact Hs ]. simpl. lia.
Qed.

(** A stream that is served to its end signals completion. *)
Lemma session_served (samples : AudioRouter.ndarray)
      (schedule : list AudioRouter.event) :
  forall (s : AudioRouter.cell) (vmc : VMCLipSync.t),
    callbacks_of schedule <> [] ->
    Forall (fun outdata => (0 < length outdata)%nat) (callbacks_of schedule) ->
    (AudioRouter.write_pos s <= AudioRouter.len samples)%nat ->
    (AudioRouter.len samples - AudioRouter.write_pos s
     <= offered (callbacks_of schedule))%nat ->
    snd (AudioRouter.session samples schedule s vmc) = true.
Proof.
  induction schedule as [ | e schedule IH]; intros s vmc Hne Hpos Hcur Hoff;
    [simpl in Hne; congruence | ].
  destruct e as [outdata | | ]; cbn [AudioRouter.session].
  - simpl in Hne, Hpos, Hoff.
    apply Forall_cons_iff in Hpos as [Hfr Hpos'].
    pose proof (callback_effect samples outdata (length outdata) s) as Heff.
    destruct (AudioRouter.audio_callback samples outdata (length outdata) s)
      as [[out s1] stop].
    destruct Heff as (Hp & Hstop & _).
    destruct stop; [reflexivity | ].
    symmetry in Hstop. apply Nat.leb_gt in Hstop.
    destruct (AudioRouter.len samples <=? AudioRouter.write_pos s)%nat
      eqn:Hend.
    { apply Nat.leb_le in Hend. lia. }
    assert (Hne' : callbacks_of schedule <> []).
    { intros Hnil. rewrite Hnil in Hoff. simpl in Hoff. lia. }
    apply IH; try assumption; lia.
  - apply IH; assumption.
  - apply IH; assumption.
Qed.

(** A stream that is aborted before the buffer is rendered never
    signals completion, and all that has happened to the lip-sync
    object by then are calls of [rms_to_blend_shapes]: no fade, no
    [close_mouth]. *)
Lemma session_aborted (samples : AudioRouter.ndarray)
      (schedule : list AudioRouter.event) :
  forall (s : AudioRouter.cell) (vmc : VMCLipSync.t),
    (AudioRouter.write_pos s + offered (callbacks_of schedule)
     < AudioRouter.len samples)%nat ->
    snd (AudioRouter.session samples schedule s vmc) = false
    /\ exists levels,
        snd (fst (AudioRouter.session samples schedule s vmc))
        = fst (VMCLipSync.ticks vmc levels).
Proof.
  induction schedule as [ | e schedule IH]; intros s vmc Hoff.
  - simpl. split; [reflexivity | exists []; reflexivity].
  - destruct e as [outdata | | ]; cbn [AudioRouter.session].
    + simpl in Hoff.
      pose proof (callback_effect samples outdata (length outdata) s) as Heff.
      destruct (AudioRouter.audio_callback samples outdata (length outdata) s)
        as [[out s1] stop].
      destruct Heff as (Hp & Hstop & _).
      destruct (AudioRouter.len samples <=? AudioRouter.write_pos s)%nat
        eqn:Hend.
      { apply Nat.leb_le in Hend. lia. }
      assert (Hs1 : AudioRouter.write_pos s1
                    = (AudioRouter.write_pos s + length outdata)%nat) by lia.
      assert (stop = false) as ->.
      { rewrite Hstop. apply Nat.leb_gt. lia. }
      apply IH. lia.
    + destruct (IH s (AudioRouter.vmc_tick s vmc) Hoff) as [Hd [levels Hl]].
      split; [exact Hd | ].
      exists (AudioRouter.current_rms s :: levels). rewrite Hl.
      unfold AudioRouter.vmc_tick. simpl.
      destruct (VMCLipSync.rms_to_blend_shapes vmc (AudioRouter.current_rms s))
        as [vmc1 e1]. simpl.
      destruct (VMCLipSync.ticks vmc1 levels). reflexivity.
    + destruct (IH s (AudioRouter.leaked_tick vmc) Hoff) as [Hd [levels Hl]].
      split; [exact Hd | ].
      exists (0 :: levels). rewrite Hl.
      unfold AudioRouter.leaked_tick. simpl.
      destruct (VMCLipSync.rms_to_blend_shapes vmc 0) as [vmc1 e1]. simpl.
      destruct (VMCLipSync.ticks vmc1 levels). reflexivity.
Qed.

Lemma served_around (srv : t) (env : AudioRouter.environment) :
  served env -> served (around srv env).
Proof.
  unfold around. destruct (leaked_threads srv =? 0)%nat; [ | auto].
  destruct env as [ | samples polls | samples schedule]; simpl; auto.
  rewrite callbacks_of_undisturbed. auto.
Qed.

Lemma aborted_around (srv : t) (env : AudioRouter.environment) :
  aborted env -> aborted (around srv env).
Proof.
  unfold around. destruct (leaked_threads srv =? 0)%nat; [ | auto].
  destruct env as [ | samples polls | samples schedule]; simpl; auto.
  rewrite callbacks_of_undisturbed. auto.
Qed.

(** With both libraries and a stream that is served to its end, the
    call returns [True]. *)
Lemma served_plays (env : AudioRouter.environment) (vmc : VMCLipSync.t) :
  served env ->
  exists vmc' records,
    AudioRouter.play_audio_with_vmc true true env vmc
    = Some (vmc', records, true).
Proof.
  destruct env as [ | samples polls | samples schedule]; simpl;
    try contradiction.
  intros (Hne & Hpos & Hoff).
  pose proof (session_served samples schedule AudioRouter.fresh vmc Hne Hpos)
    as Hdone.
  simpl in Hdone. specialize (Hdone ltac:(lia) ltac:(lia)).
  unfold AudioRouter.play_audio_with_vmc. simpl.
  destruct (AudioRouter.session samples schedule AudioRouter.fresh vmc)
    as [[final vmc'] done].
  simpl in Hdone. subst done. eexists _, _. reflexivity.
Qed.

(** With both libraries and a stream that is aborted, it does not
    return. *)
Lemma aborted_hangs (env : AudioRouter.environment) (vmc : VMCLipSync.t) :
  aborted env ->
  AudioRouter.play_audio_with_vmc true true env vmc = None
  /\ exists levels rms,
      AudioRouter.hung_call env vmc
      = (fst (VMCLipSync.ticks vmc levels),
         [(AudioRouter.INFO, "Playing with real-time VMC lip sync"%string)],
         rms).
Proof.
  destruct env as [ | samples polls | samples schedule]; simpl;
    try contradiction.
  intros Hoff.
  destruct (session_aborted samples schedule AudioRouter.fresh vmc)
    as [Hd [levels Hl]]; [simpl; lia | ].
  unfold AudioRouter.play_audio_with_vmc, AudioRouter.hung_call. simpl.
  destruct (AudioRouter.session samples schedule AudioRouter.fresh vmc)
    as [[final vmc'] done].
  simpl in Hd, Hl. subst done. split; [reflexivity | ].
  exists levels, (AudioRouter.current_rms final). rewrite Hl. reflexivity.
Qed.

(** The two halves of the worker's loop body, spelled out. *)
Lemma worker_get_takes (srv : t) (audio_data : bytes) (rest : list bytes) :
  in_flight srv = None ->
  playback_queue srv = audio_data :: rest ->
  worker_get srv
  = mk (HAS_PYDUB srv) (HAS_SOUNDDEVICE srv) rest (Some audio_data)
       (vmc srv) (log srv) (trace srv ++ [Started audio_data])
       (leaked_threads srv) None.
Proof. intros Hidle Hq. unfold worker_get. rewrite Hidle, Hq. reflexivity. Qed.

Lemma worker_get_waits (srv : t) (audio_data : bytes) :
  in_flight srv = Some audio_data -> worker_get srv = srv.
Proof. intros Hfl. unfold worker_get. rewrite Hfl. reflexivity. Qed.

Lemma worker_resume_returns (srv : t) (env : AudioRouter.environment)
      (audio_data : bytes) (vmc' : VMCLipSync.t)
      (records : list AudioRouter.record) (ok : bool) :
  in_flight srv = Some audio_data ->
  hung srv = None ->
  AudioRouter.play_audio_with_vmc
    (HAS_PYDUB srv) (HAS_SOUNDDEVICE srv) (around srv env) (vmc srv)
  = Some (vmc', records, ok) ->
  worker_resume srv env
  = mk (HAS_PYDUB srv) (HAS_SOUNDDEVICE srv) (playback_queue srv) None
       vmc' (log srv ++ records) (trace srv ++ [Finished audio_data ok])
       (leaked_threads srv
        + (if AudioRouter.leaves_thread
                (HAS_PYDUB srv) (HAS_SOUNDDEVICE srv) (around srv env)
           then 1 else 0))
       None.
Proof.
  intros Hfl Hh Hplay. unfold worker_resume. rewrite Hfl, Hh. cbv zeta.
  rewrite Hplay. reflexivity.
Qed.

Lemma worker_resume_hangs (srv : t) (env : AudioRouter.environment)
      (audio_data : bytes) (vmc' : VMCLipSync.t)
      (records : list AudioRouter.record) (rms : R) :
  in_flight srv = Some audio_data ->
  hung srv = None ->
  AudioRouter.play_audio_with_vmc
    (HAS_PYDUB srv) (HAS_SOUNDDEVICE srv) (around srv env) (vmc srv)
  = None ->
  AudioRouter.hung_call (around srv env) (vmc srv) = (vmc', records, rms) ->
  worker_resume srv env
  = mk (HAS_PYDUB srv) (HAS_SOUNDDEVICE srv) (playback_queue srv)
       (Some audio_data) vmc' (log srv ++ records) (trace srv)
       (leaked_threads srv) (Some rms).
Proof.
  intros Hfl Hh Hplay Hhung. unfold worker_resume. rewrite Hfl, Hh. cbv zeta.
  rewrite Hplay, Hhung. reflexivity.
Qed.

Lemma drain_cons (srv : t) (env : AudioRouter.environment)
      (envs : list AudioRouter.environment) :
  drain srv (env :: envs) = drain (playback_worker srv env) envs.
Proof. reflexivity. Qed.

Lemma step_libraries (srv : t) (a : action) :
  HAS_PYDUB (step srv a) = HAS_PYDUB srv
  /\ HAS_SOUNDDEVICE (step srv a) = HAS_SOUNDDEVICE srv.
Proof.
  destruct a as [[ | b audio_data] | | | env | | ]; simpl; auto.
  - unfold worker_get.
    destruct (in_flight srv); [auto | ].
    destruct (playback_queue srv); auto.
  - unfold worker_resume.
    destruct (in_flight srv); [ | auto].
    destruct (hung srv); [auto | ]. cbv zeta.
    destruct (AudioRouter.play_audio_with_vmc _ _ _ (vmc srv))
      as [[[vmc' records] ok] | ]; [auto | ].
    destruct (AudioRouter.hung_call _ (vmc srv)) as [[vmc' records] rms].
    auto.
  - unfold leaked_tick. destruct (0 <? leaked_threads srv)%nat; auto.
  - unfold hung_tick. destruct (hung srv); auto.
Qed.

Lemma run_libraries (actions : list action) :
  forall srv : t,
    HAS_PYDUB (run srv actions) = HAS_PYDUB srv
    /\ HAS_SOUNDDEVICE (run srv actions) = HAS_SOUNDDEVICE srv.
Proof.
  induction actions as [ | a actions IH]; intros srv; [auto | ].
  change (run srv (a :: actions)) with (run (step srv a) actions).
  destruct (IH (step srv a)) as [H1 H2].
  destruct (step_libraries srv a) as [H3 H4].
  split; congruence.
Qed.

(** A worker whose playbacks are all served to their end plays
    everything that waits, the item in flight first, one after the
    other, and every playback returns [True]. *)
Lemma drain_served (envs : list AudioRouter.environment) :
  forall (srv : t) (done : list (bytes * bool)),
    HAS_PYDUB srv = true -> HAS_SOUNDDEVICE srv = true ->
    hung srv = None ->
    sequential srv done ->
    Forall served envs ->
    length envs = length (option_list (in_flight srv) ++ playback_queue srv) ->
    trace (drain srv envs)
    = one_by_one (done ++ map (fun audio_data => (audio_data, true))
                            (option_list (in_flight srv)
                             ++ playback_queue srv))
    /\ in_flight (drain srv envs) = None
    /\ playback_queue (drain srv envs) = [].
Proof.
  induction envs as [ | env envs IH]; intros srv done Hp Hs Hh Hseq Hall Hlen.
  - unfold sequential in Hseq.
    destruct (in_flight srv) as [current | ] eqn:Hfl; [discriminate | ].
    destruct (playback_queue srv) as [ | b rest] eqn:Hq; [ | discriminate].
    unfold drain. simpl. rewrite Hfl, Hq, Hseq, !app_nil_r. auto.
  - apply Forall_cons_iff in Hall as [Hserved Hall].
    rewrite drain_cons. unfold playback_worker.
    assert (Hget : exists playing current rest,
               worker_get srv = playing
               /\ in_flight playing = Some current
               /\ playback_queue playing = rest
               /\ option_list (in_flight srv) ++ playback_queue srv
                  = current :: rest
               /\ hung playing = None
               /\ HAS_PYDUB playing = true /\ HAS_SOUNDDEVICE playing = true
               /\ vmc playing = vmc srv
               /\ sequential playing done).
    { unfold sequential in *.
      destruct (in_flight srv) as [current | ] eqn:Hfl.
      - exists srv, current, (playback_queue srv).
        rewrite (worker_get_waits srv current Hfl), Hfl. simpl.
        repeat split; auto.
      - destruct (playback_queue srv) as [ | b rest] eqn:Hq;
          [discriminate | ].
        eexists _, b, rest. split; [reflexivity | ].
        rewrite (worker_get_takes srv b rest Hfl Hq). simpl.
        rewrite Hseq. simpl. rewrite app_nil_r.
        repeat split; auto. }
    destruct Hget as (playing & current & rest & Hpl & Hfl & Hq & Hpend
                      & Hh' & Hp' & Hs' & Hvmc & Hseq').
    rewrite Hpl, Hpend in *.
    destruct (served_plays (around playing env) (vmc playing))
      as (vmc' & records & Hplay); [apply served_around, Hserved | ].
    assert (Hplay' :
              AudioRouter.play_audio_with_vmc
                (HAS_PYDUB playing) (HAS_SOUNDDEVICE playing)
                (around playing env) (vmc playing)
              = Some (vmc', records, true))
      by (rewrite Hp', Hs'; exact Hplay).
    rewrite (worker_resume_returns _ env current vmc' records true
                                   Hfl Hh' Hplay').
    match goal with
    | |- context [drain ?srv1 envs] =>
        destruct (IH srv1 (done ++ [(current, true)]))
          as (Htr & Hidle & Hempty)
    end; simpl; try assumption; try reflexivity.
    + unfold sequential. simpl. unfold sequential in Hseq'.
      rewrite Hseq', Hfl, one_by_one_snoc, app_nil_r, <- app_assoc.
      reflexivity.
    + rewrite Hq. simpl in Hlen. lia.
    + simpl in Htr. rewrite Htr.
      split; [rewrite Hq, <- app_assoc; reflexivity | split; assumption].
Qed.

(** C7.  Whatever requests arrive (clears included) and whenever the
    worker runs, at most one playback is begun and not yet returned.
    What the worker does is playing one item after the other: its
    observations are
    [Started b1; Finished b1 _; Started b2; Finished b2 _; ...], ending
    with the item in flight if there is one.  Without a clear the items
    played, the item in flight and the items still queued are, in this
    order, the bodies queued in their order of arrival: each item is
    begun only after every item that arrived before it has returned.
    And the items that wait are played: with both libraries, no call
    hanging, and every stream served to its end by the device, the
    worker begins the item in flight and the queued items in their
    order, each after the one before has returned [True], and ends
    idle with the queue empty.  A playback that returns [True] has
    moved the cursor to the end of its buffer. *)
Theorem playback_is_serial_and_first_in_first_out
        (has_pydub has_sounddevice : bool) (vmc0 : VMCLipSync.t)
        (actions : list action) :
  no_clear actions ->
  let srv := run (start has_pydub has_sounddevice vmc0) actions in
  (forall any,
      (sessions_open 0
         (trace (run (start has_pydub has_sounddevice vmc0) any)) <= 1)%nat)
  /\ (exists done,
         sequential srv done
         /\ map fst done ++ option_list (in_flight srv) ++ playback_queue srv
            = accepted actions
         /\ (has_pydub = true -> has_sounddevice = true ->
             hung srv = None ->
             forall envs,
               Forall served envs ->
               length envs
               = length (option_list (in_flight srv) ++ playback_queue srv) ->
               trace (drain srv envs)
               = one_by_one
                   (done ++ map (fun audio_data => (audio_data, true))
                              (option_list (in_flight srv)
                               ++ playback_queue srv))
               /\ in_flight (drain srv envs) = None
               /\ playback_queue (drain srv envs) = []))
  /\ (forall env vmc vmc' records,
         AudioRouter.play_audio_with_vmc has_pydub has_sounddevice env vmc
         = Some (vmc', records, true) ->
         exists samples schedule final,
           env = AudioRouter.Plays samples schedule
           /\ AudioRouter.session samples schedule AudioRouter.fresh vmc
              = (final, vmc', true)
           /\ AudioRouter.write_pos final = AudioRouter.len samples
           /\ AudioRouter.playback_done final = true).
Proof.
  intros Hnc. cbv zeta.
  destruct (run_sequential actions _ [] (start_sequential has_pydub has_sounddevice vmc0))
    as (done & Hseq & Hq).
  split; [ | split ].
  - intros any.
    destruct (run_sequential any _ [] (start_sequential has_pydub has_sounddevice vmc0))
      as (done' & Hseq' & _).
    rewrite Hseq', sessions_open_one_by_one.
    destruct (in_flight (run _ any)); simpl; lia.
  - exists done. split; [exact Hseq | ].
    split; [rewrite (Hq Hnc); reflexivity | ].
    intros Hp Hs Hh envs Hall Hlen.
    destruct (run_libraries actions (start has_pydub has_sounddevice vmc0))
      as [Hp' Hs'].
    apply drain_served; try assumption.
    + rewrite Hp'. exact Hp.
    + rewrite Hs'. exact Hs.
  - intros env vmc vmc' records. apply play_true_is_full_playback.
Qed.
Lemma playback_is_serial_and_first_in_first_out_witness :
  let B1 := [Byte.x01] in
  let B2 := [Byte.x02] in
  let B3 := [Byte.x03] in
  let actions := [PlayBytes B1; PlayBytes B2; WorkerGet; PlayBytes B3] in
  let srv := run (start true true VMCLipSync.default) actions in
  let envs :=
    [AudioRouter.Plays
       (AudioRouter.Mono [0.5; 0.25])
       [AudioRouter.Tick; AudioRouter.Callback [[0]; [0]]; AudioRouter.Tick];
     AudioRouter.Plays
       (AudioRouter.Stereo [(0.5, 0.25)])
       [AudioRouter.Callback [[0; 0]]];
     AudioRouter.Plays
       (AudioRouter.Mono [0.125; 0.5; 0.25])
       [AudioRouter.Callback [[0]; [0]]; AudioRouter.Tick;
        AudioRouter.Callback [[0]; [0]]]] in
  (forall any,
      (sessions_open 0
         (trace (run (start true true VMCLipSync.default) any)) <= 1)%nat)
  /\ trace srv = [Started B1]
  /\ trace (drain srv envs)
     = [Started B1; Finished B1 true; Started B2; Finished B2 true;
        Started B3; Finished B3 true]
  /\ in_flight (drain srv envs) = None
  /\ playback_queue (drain srv envs) = []
  /\ (forall env vmc vmc' records,
         AudioRouter.play_audio_with_vmc true true env vmc
         = Some (vmc', records, true) ->
         exists samples schedule final,
           env = AudioRouter.Plays samples schedule
           /\ AudioRouter.session samples schedule AudioRouter.fresh vmc
              = (final, vmc', true)
           /\ AudioRouter.write_pos final = AudioRouter.len samples
           /\ AudioRouter.playback_done final = true).
Proof.
  intros B1 B2 B3 actions srv envs.
  assert (Hnc : no_clear actions) by (repeat constructor; discriminate).
  destruct (playback_is_serial_and_first_in_first_out
              true true VMCLipSync.default actions Hnc)
    as (Hone & (done & Hseq & Hacc & Hlive) & Hfull).
  fold srv in Hseq, Hacc, Hlive.
  assert (Hfl : in_flight srv = Some B1) by reflexivity.
  assert (Hq : playback_queue srv = [B2; B3]) by reflexivity.
  assert (Htr : trace srv = [Started B1]) by reflexivity.
  rewrite Hfl, Hq in Hacc, Hlive.
  assert (Hdone : done = []).
  { change (accepted actions) with ([] ++ [B1; B2; B3]) in Hacc.
    change (map fst done ++ option_list (Some B1) ++ [B2; B3])
      with (map fst done ++ [B1; B2; B3]) in Hacc.
    apply app_inv_tail in Hacc. destruct done; [reflexivity | discriminate]. }
  subst done.
  destruct (Hlive eq_refl eq_refl eq_refl envs) as (Hplayed & Hidle & Hempty).
  - repeat constructor; simpl; try discriminate; try lia;
      repeat constructor; simpl; lia.
  - reflexivity.
  - split; [exact Hone | ].
    split; [exact Htr | ].
    split; [exact Hplayed | ].
    split; [exact Hidle | ].
    split; [exact Hempty | exact Hfull].
Defined.

Lemma close_mouth_closed (vmc : VMCLipSync.t) :
  mouth_closed (VMCLipSync.close_mouth vmc).
Proof.
  unfold mouth_closed, VMCLipSync.close_mouth, VMCLipSync._send_blend_shapes.
  destruct (VMCLipSync.client vmc); simpl; auto.
Qed.

Lemma close_mouth_sends_zero (vmc : VMCLipSync.t) :
  VMCLipSync.client vmc = true ->
  VMCLipSync.sent (VMCLipSync.close_mouth vmc)
  = VMCLipSync.sent vmc ++ [VMCLipSync.zero_shapes].
Proof. intros Hc. apply close_mouth_state. exact Hc. Qed.

Lemma ticks_config (samples : list R) :
  forall vmc : VMCLipSync.t,
    same_config vmc (fst (VMCLipSync.ticks vmc samples)).
Proof.
  induction samples as [ | rms samples IH]; intros vmc; simpl.
  - apply same_config_refl.
  - pose proof (tick_config vmc rms) as Ht.
    destruct (VMCLipSync.rms_to_blend_shapes vmc rms) as [vmc1 e1].
    pose proof (IH vmc1) as Hi.
    destruct (VMCLipSync.ticks vmc1 samples) as [vmc2 out].
    simpl in *. eapply same_config_trans; eassumption.
Qed.

(** Feeding one more sample is one more call. *)
Lemma ticks_snoc (samples : list R) (rms : R) :
  forall vmc : VMCLipSync.t,
    fst (VMCLipSync.ticks vmc (samples ++ [rms]))
    = fst (VMCLipSync.rms_to_blend_shapes
             (fst (VMCLipSync.ticks vmc samples)) rms).
Proof.
  induction samples as [ | x samples IH]; intros vmc; simpl.
  - destruct (VMCLipSync.rms_to_blend_shapes vmc rms). reflexivity.
  - destruct (VMCLipSync.rms_to_blend_shapes vmc x) as [vmc1 e1].
    specialize (IH vmc1).
    destruct (VMCLipSync.ticks vmc1 (samples ++ [rms])) as [vmc2 out2].
    destruct (VMCLipSync.ticks vmc1 samples) as [vmc3 out3].
    simpl in *. exact IH.
Qed.

(** However the fade of the VMC thread is interleaved with threads
    left running, it ends with the closing statements. *)
Lemma fade_among_closed (rest : list AudioRouter.event) :
  forall (steps : list nat) (vmc : VMCLipSync.t),
    mouth_closed (AudioRouter.fade_among rest steps vmc).
Proof.
  induction rest as [ | e rest IH]; intros steps vmc; simpl.
  - apply close_mouth_closed.
  - destruct e as [outdata | | ]; [apply IH | | apply IH].
    destruct steps as [ | step steps]; [apply close_mouth_closed | apply IH].
Qed.

(** Every way in which [play_audio_with_vmc] returns leaves the mouth
    closed, provided it was closed before. *)
Lemma play_leaves_mouth_closed (has_pydub has_sounddevice : bool)
      (env : AudioRouter.environment) (vmc vmc' : VMCLipSync.t)
      (records : list AudioRouter.record) (ok : bool) :
  mouth_closed vmc ->
  AudioRouter.play_audio_with_vmc has_pydub has_sounddevice env vmc
  = Some (vmc', records, ok) ->
  mouth_closed vmc'.
Proof.
  intros Hclosed. unfold AudioRouter.play_audio_with_vmc.
  destruct (negb has_pydub || negb has_sounddevice).
  - intros H. injection H as <- _ _. exact Hclosed.
  - destruct env as [ | samples polls | samples schedule].
    + intros H. injection H as <- _ _. apply close_mouth_closed.
    + intros H. injection H as <- _ _. apply close_mouth_closed.
    + destruct (AudioRouter.session samples schedule AudioRouter.fresh vmc)
        as [[final vmc1] done] eqn:Hs.
      destruct done; [ | discriminate].
      intros H. injection H as <- _ _.
      clear Hclosed. revert Hs. generalize AudioRouter.fresh. revert vmc.
      induction schedule as [ | e schedule IH]; intros vmc s Hs;
        [discriminate | ].
      destruct e as [outdata | | ]; simpl in Hs.
      * destruct (AudioRouter.audio_callback samples outdata (length outdata) s)
          as [[out s1] stop].
        destruct stop.
        -- injection Hs as _ <-. apply fade_among_closed.
        -- eapply IH; eassumption.
      * eapply IH; eassumption.
      * eapply IH; eassumption.
Qed.

(** X24.  An item whose playback raises, or finds a library missing,
    does not stall the worker.  The worker takes the item, the playback
    returns [False] with an error record logged, and the mouth is
    closed afterwards; when the libraries are there the close path has
    run and the all-zero frame is the last frame sent.  The worker is
    then idle again and its next [get] takes the next item of the
    queue.  A playback that failed to open its stream has left its VMC
    thread running. *)
Theorem raised_failure_does_not_stall_the_worker
        (srv : t) (audio_data next : bytes) (rest : list bytes)
        (env : AudioRouter.environment) :
  in_flight srv = None ->
  playback_queue srv = audio_data :: next :: rest ->
  VMCLipSync.client (vmc srv) = true ->
  mouth_closed (vmc srv) ->
  item_fails srv env ->
  let playing := worker_get srv in
  let failed := worker_resume playing env in
  let resumed := worker_get failed in
  trace failed = trace srv ++ [Started audio_data; Finished audio_data false]
  /\ (exists records message,
         log failed = log srv ++ records
         /\ In (AudioRouter.ERROR, message) records)
  /\ mouth_closed (vmc failed)
  /\ (HAS_PYDUB srv = true -> HAS_SOUNDDEVICE srv = true ->
      exists earlier,
        VMCLipSync.sent (vmc failed) = earlier ++ [VMCLipSync.zero_shapes])
  /\ in_flight failed = None
  /\ in_flight resumed = Some next
  /\ playback_queue resumed = rest
  /\ trace resumed = trace failed ++ [Started next]
  /\ leaked_threads failed
     = (leaked_threads srv
        + (if AudioRouter.leaves_thread
                (HAS_PYDUB srv) (HAS_SOUNDDEVICE srv) env
           then 1 else 0))%nat.
Proof.
  intros Hidle Hq Hclient Hclosed Hfail. cbv zeta.
  rewrite (worker_get_takes srv audio_data (next :: rest) Hidle Hq).
  set (playing := mk _ _ _ _ _ _ _ _ _).
  assert (Hleaves :
            AudioRouter.leaves_thread (HAS_PYDUB srv) (HAS_SOUNDDEVICE srv)
                                      (around playing env)
            = AudioRouter.leaves_thread (HAS_PYDUB srv) (HAS_SOUNDDEVICE srv)
                                        env).
  { unfold around. destruct (leaked_threads playing =? 0)%nat; [ | reflexivity].
    destruct env; reflexivity. }
  assert (Hplay :
            exists vmc' records message,
              AudioRouter.play_audio_with_vmc
                (HAS_PYDUB srv) (HAS_SOUNDDEVICE srv) (around playing env)
                (vmc srv)
              = Some (vmc', records, false)
              /\ In (AudioRouter.ERROR, message) records
              /\ (HAS_PYDUB srv = true -> HAS_SOUNDDEVICE srv = true ->
                  exists earlier,
                    VMCLipSync.sent vmc'
                    = earlier ++ [VMCLipSync.zero_shapes])).
  { unfold AudioRouter.play_audio_with_vmc.
    destruct (HAS_PYDUB srv) eqn:Hp; destruct (HAS_SOUNDDEVICE srv) eqn:Hs;
      simpl;
      try (eexists _, _, _; split; [reflexivity | ];
           split; [left; reflexivity | intros; discriminate]).
    destruct Hfail as [Hf | [Hf | Hf]]; try congruence.
    destruct env as [ | samples polls | samples schedule];
      [ | | exfalso; exact Hf ].
    - assert (around playing AudioRouter.DecodeRaises
              = AudioRouter.DecodeRaises) as ->
        by (unfold around; destruct (_ =? _)%nat; reflexivity).
      eexists _, _, _. split; [reflexivity | ].
      split; [left; reflexivity | intros _ _].
      eexists. apply close_mouth_sends_zero. exact Hclient.
    - assert (around playing (AudioRouter.StreamRaises samples polls)
              = AudioRouter.StreamRaises samples polls) as ->
        by (unfold around; destruct (_ =? _)%nat; reflexivity).
      eexists _, _, _. split; [reflexivity | ].
      split; [right; left; reflexivity | intros _ _].
      eexists. apply close_mouth_sends_zero.
      destruct (ticks_config (repeat 0 polls) (vmc srv)) as (_&_&_&_&_&Hc).
      rewrite <- Hc. exact Hclient. }
  destruct Hplay as (vmc' & records & message & Hplay & Hlog & Hsent).
  pose proof (play_leaves_mouth_closed _ _ _ _ _ _ _ Hclosed Hplay) as Hc'.
  rewrite (worker_resume_returns playing env audio_data vmc' records false
                                 eq_refl eq_refl Hplay).
  simpl. rewrite Hleaves. unfold worker_get. simpl.
  rewrite <- app_assoc.
  repeat split; try reflexivity; try apply Hc'; try exact Hsent.
  exists records, message. split; [reflexivity | exact Hlog].
Qed.

Lemma raised_failure_does_not_stall_the_worker_witness :
  let srv :=
    mk true true [[Byte.x01]; [Byte.x02]; [Byte.x03]] None
       VMCLipSync.default [] [] 0 None in
  let env := AudioRouter.StreamRaises (AudioRouter.Mono [0.5]) 2 in
  let playing := worker_get srv in
  let failed := worker_resume playing env in
  let resumed := worker_get failed in
  trace failed
  = trace srv ++ [Started [Byte.x01]; Finished [Byte.x01] false]
  /\ (exists records message,
         log failed = log srv ++ records
         /\ In (AudioRouter.ERROR, message) records)
  /\ mouth_closed (vmc failed)
  /\ (HAS_PYDUB srv = true -> HAS_SOUNDDEVICE srv = true ->
      exists earlier,
        VMCLipSync.sent (vmc failed) = earlier ++ [VMCLipSync.zero_shapes])
  /\ in_flight failed = None
  /\ in_flight resumed = Some [Byte.x02]
  /\ playback_queue resumed = [[Byte.x03]]
  /\ trace resumed = trace failed ++ [Started [Byte.x02]]
  /\ leaked_threads failed = 1%nat.
Proof.
  apply (raised_failure_does_not_stall_the_worker
           (mk true true [[Byte.x01]; [Byte.x02]; [Byte.x03]] None
               VMCLipSync.default [] [] 0 None)
           [Byte.x01] [Byte.x02] [[Byte.x03]]
           (AudioRouter.StreamRaises (AudioRouter.Mono [0.5]) 2));
    try reflexivity.
  - split; reflexivity.
  - right. right. exact I.
Defined.

(** Only a call in flight hangs: [worker_get] finds no hanging call
    when it takes an item. *)
Lemma hung_only_in_flight (has_pydub has_sounddevice : bool)
      (vmc0 : VMCLipSync.t) (actions : list action) :
  let srv := run (start has_pydub has_sounddevice vmc0) actions in
  in_flight srv = None -> hung srv = None.
Proof.
  cbv zeta.
  assert (Hstep : forall srv a,
             (in_flight srv = None -> hung srv = None) ->
             in_flight (step srv a) = None -> hung (step srv a) = None).
  { intros srv a Hinv.
    destruct a as [[ | b audio_data] | | | env | | ]; simpl; try exact Hinv.
    - unfold worker_get.
      destruct (in_flight srv) eqn:Hfl; [rewrite Hfl; discriminate | ].
      destruct (playback_queue srv); [rewrite Hfl; auto | discriminate].
    - unfold worker_resume.
      destruct (in_flight srv) eqn:Hfl; [ | rewrite Hfl; auto].
      destruct (hung srv) eqn:Hh; [rewrite Hfl; discriminate | ].
      cbv zeta.
      destruct (AudioRouter.play_audio_with_vmc _ _ _ (vmc srv))
        as [[[vmc' records] ok] | ]; [reflexivity | ].
      destruct (AudioRouter.hung_call _ (vmc srv)) as [[vmc' records] rms].
      discriminate.
    - unfold leaked_tick.
      destruct (0 <? leaked_threads srv)%nat; exact Hinv.
    - unfold hung_tick. destruct (hung srv) eqn:Hh; simpl;
        rewrite ?Hh; exact Hinv. }
  generalize (start has_pydub has_sounddevice vmc0),
    (fun _ : in_flight (start has_pydub has_sounddevice vmc0) = None =>
       eq_refl : hung (start has_pydub has_sounddevice vmc0) = None).
  induction actions as [ | a actions IH]; intros srv Hinv; [exact Hinv | ].
  change (run srv (a :: actions)) with (run (step srv a) actions).
  apply IH, Hstep, Hinv.
Qed.

Lemma worker_resume_blocked (srv : t) (env : AudioRouter.environment) :
  hung srv <> None -> worker_resume srv env = srv.
Proof.
  intros Hh. unfold worker_resume.
  destruct (in_flight srv); [ | reflexivity].
  destruct (hung srv); [reflexivity | congruence].
Qed.

(** What a worker whose call hangs can still do: nothing.  The item
    stays in flight, nothing more is observed, no error is logged, and
    the lip-sync object only sees calls of [rms_to_blend_shapes]. *)
Lemma hung_worker_step (audio_data : bytes)
      (observed : list observation) (logged : list AudioRouter.record)
      (vmc0 : VMCLipSync.t) (srv : t) (a : action) :
  in_flight srv = Some audio_data ->
  hung srv <> None ->
  trace srv = observed ->
  (exists records,
      log srv = logged ++ records
      /\ Forall (fun r => fst r <> AudioRouter.ERROR) records) ->
  (exists levels, vmc srv = fst (VMCLipSync.ticks vmc0 levels)) ->
  in_flight (step srv a) = Some audio_data
  /\ hung (step srv a) <> None
  /\ trace (step srv a) = observed
  /\ (exists records,
         log (step srv a) = logged ++ records
         /\ Forall (fun r => fst r <> AudioRouter.ERROR) records)
  /\ (exists levels,
         vmc (step srv a) = fst (VMCLipSync.ticks vmc0 levels)).
Proof.
  intros Hfl Hh Htr Hlog Hvmc.
  assert (Hinfo : forall message,
             exists records',
               log srv ++ [(AudioRouter.INFO, message)] = logged ++ records'
               /\ Forall (fun r => fst r <> AudioRouter.ERROR) records').
  { intros message. destruct Hlog as (records & Hlog & Hok).
    exists (records ++ [(AudioRouter.INFO, message)]).
    split; [rewrite Hlog, app_assoc; reflexivity | ].
    apply Forall_app. split; [exact Hok | ].
    constructor; [simpl; discriminate | constructor]. }
  destruct a as [[ | b data] | | | env | | ]; simpl.
  - auto.
  - split; [exact Hfl | ]. split; [exact Hh | ]. split; [exact Htr | ].
    split; [apply Hinfo | exact Hvmc].
  - split; [exact Hfl | ]. split; [exact Hh | ]. split; [exact Htr | ].
    split; [apply Hinfo | exact Hvmc].
  - rewrite (worker_get_waits srv audio_data Hfl). auto.
  - rewrite (worker_resume_blocked srv env Hh). auto.
  - unfold leaked_tick. destruct (0 <? leaked_threads srv)%nat; [ | auto].
    simpl. split; [exact Hfl | ]. split; [exact Hh | ]. split; [exact Htr | ].
    split; [exact Hlog | ].
    destruct Hvmc as (levels & Hvmc). exists (levels ++ [0]).
    rewrite ticks_snoc, <- Hvmc. reflexivity.
  - unfold hung_tick. destruct (hung srv) as [rms | ] eqn:Hrms; [ | auto].
    simpl. rewrite Hrms.
    split; [exact Hfl | ]. split; [exact Hh | ]. split; [exact Htr | ].
    split; [exact Hlog | ].
    destruct Hvmc as (levels & Hvmc). exists (levels ++ [rms]).
    rewrite ticks_snoc, <- Hvmc. reflexivity.
Qed.

Lemma hung_worker_stays_hung (audio_data : bytes)
      (observed : list observation) (logged : list AudioRouter.record)
      (vmc0 : VMCLipSync.t) (later : list action) :
  forall srv : t,
    in_flight srv = Some audio_data ->
    hung srv <> None ->
    trace srv = observed ->
    (exists records,
        log srv = logged ++ records
        /\ Forall (fun r => fst r <> AudioRouter.ERROR) records) ->
    (exists levels, vmc srv = fst (VMCLipSync.ticks vmc0 levels)) ->
    in_flight (run srv later) = Some audio_data
    /\ hung (run srv later) <> None
    /\ trace (run srv later) = observed
    /\ (exists records,
           log (run srv later) = logged ++ records
           /\ Forall (fun r => fst r <> AudioRouter.ERROR) records)
    /\ (exists levels,
           vmc (run srv later) = fst (VMCLipSync.ticks vmc0 levels)).
Proof.
  induction later as [ | a later IH];
    intros srv Hfl Hh Htr Hlog Hvmc; [simpl; auto | ].
  change (run srv (a :: later)) with (run (step srv a) later).
  destruct (hung_worker_step audio_data observed logged vmc0 srv a
                             Hfl Hh Htr Hlog Hvmc)
    as (Hfl1 & Hh1 & Htr1 & Hlog1 & Hvmc1).
  apply IH; assumption.
Qed.

(** C8, where the code falls short of the claim.  The item at the head
    of the queue decodes and its stream opens, but the stream is
    aborted before the buffer is rendered: the callback is not invoked
    any more.  Then the call of [play_audio_with_vmc] never returns.
    Whatever happens afterwards, the item stays in flight and the
    worker observes nothing more: the next item is never begun.  No
    error is ever logged, and all that happens to the lip-sync object
    are calls of [rms_to_blend_shapes]: neither the fade nor
    [close_mouth] is run. *)
Theorem aborted_stream_stalls_the_worker
        (srv : t) (audio_data next : bytes) (rest : list bytes)
        (env : AudioRouter.environment) (later : list action) :
  HAS_PYDUB srv = true -> HAS_SOUNDDEVICE srv = true ->
  in_flight srv = None ->
  playback_queue srv = audio_data :: next :: rest ->
  aborted env ->
  let stalled := worker_resume (worker_get srv) env in
  let final := run stalled later in
  (forall vmc,
      AudioRouter.play_audio_with_vmc true true env vmc = None)
  /\ trace final = trace srv ++ [Started audio_data]
  /\ in_flight final = Some audio_data
  /\ (exists records,
         log final = log srv ++ records
         /\ Forall (fun r => fst r <> AudioRouter.ERROR) records)
  /\ (exists levels, vmc final = fst (VMCLipSync.ticks (vmc srv) levels)).
Proof.
  intros Hp Hs Hidle Hq Habort. cbv zeta.
  split; [intros vmc; apply aborted_hangs, Habort | ].
  rewrite (worker_get_takes srv audio_data (next :: rest) Hidle Hq).
  set (playing := mk _ _ _ _ _ _ _ _ _).
  destruct (aborted_hangs (around playing env) (vmc srv))
    as (Hnone & levels & rms & Hhung); [apply aborted_around, Habort | ].
  assert (Hnone' :
            AudioRouter.play_audio_with_vmc
              (HAS_PYDUB playing) (HAS_SOUNDDEVICE playing)
              (around playing env) (vmc playing) = None)
    by (simpl; rewrite Hp, Hs; exact Hnone).
  rewrite (worker_resume_hangs playing env audio_data _ _ rms
                               eq_refl eq_refl Hnone' Hhung).
  match goal with
  | |- context [run ?s later] =>
      destruct (hung_worker_stays_hung
                  audio_data (trace srv ++ [Started audio_data]) (log srv)
                  (vmc srv) later s)
        as (Hfl & _ & Htr & Hlog & Hvmc)
  end; simpl; try reflexivity; try discriminate.
  - eexists. split; [reflexivity | ].
    constructor; [simpl; discriminate | constructor].
  - exists levels. reflexivity.
  - auto.
Qed.

Lemma aborted_stream_stalls_the_worker_witness :
  let srv :=
    mk true true [[Byte.x01]; [Byte.x02]] None VMCLipSync.default [] []
       0 None in
  let env :=
    AudioRouter.Plays (AudioRouter.Mono [1; 1])
                      [AudioRouter.Callback [[0]]; AudioRouter.Tick] in
  let later :=
    [WorkerGet; WorkerResume AudioRouter.DecodeRaises; HungTick; WorkerGet] in
  let stalled := worker_resume (worker_get srv) env in
  let final := run stalled later in
  (forall vmc,
      AudioRouter.play_audio_with_vmc true true env vmc = None)
  /\ trace final = trace srv ++ [Started [Byte.x01]]
  /\ in_flight final = Some [Byte.x01]
  /\ (exists records,
         log final = log srv ++ records
         /\ Forall (fun r => fst r <> AudioRouter.ERROR) records)
  /\ (exists levels, vmc final = fst (VMCLipSync.ticks (vmc srv) levels)).
Proof.
  apply (aborted_stream_stalls_the_worker
           (mk true true [[Byte.x01]; [Byte.x02]] None VMCLipSync.default
               [] [] 0 None)
           [Byte.x01] [Byte.x02] []
           (AudioRouter.Plays (AudioRouter.Mono [1; 1])
                              [AudioRouter.Callback [[0]]; AudioRouter.Tick])
           [WorkerGet; WorkerResume AudioRouter.DecodeRaises; HungTick;
            WorkerGet]);
    try reflexivity.
  simpl. lia.
Defined.

(** At that input the mouth is left open: the callback has rendered
    one frame of amplitude 1, the VMC thread has raised the level to
    0.3575 in its one tick and goes on polling the amplitude 1. *)
Lemma aborted_stream_leaves_the_mouth_open :
  let srv :=
    mk true true [[Byte.x01]; [Byte.x02]] None VMCLipSync.default [] []
       0 None in
  let env :=
    AudioRouter.Plays (AudioRouter.Mono [1; 1])
                      [AudioRouter.Callback [[0]]; AudioRouter.Tick] in
  let stalled := worker_resume (worker_get srv) env in
  hung stalled = Some 1
  /\ VMCLipSync._envelope (vmc stalled) = 0.3575
  /\ ~ mouth_closed (vmc stalled).
Proof.
  cbv zeta.
  set (srv := mk true true [[Byte.x01]; [Byte.x02]] None VMCLipSync.default
                 [] [] 0 None).
  set (env := AudioRouter.Plays (AudioRouter.Mono [1; 1])
                [AudioRouter.Callback [[0]]; AudioRouter.Tick]).
  assert (Hrms : AudioRouter.rms_of [1] = 1).
  { unfold AudioRouter.rms_of, AudioRouter.sum_sq. simpl.
    replace ((1 * 1 + 0) / 1) with 1 by field. apply sqrt_1. }
  assert (Hget : worker_get srv
                 = mk true true [[Byte.x02]] (Some [Byte.x01])
                      VMCLipSync.default [] [Started [Byte.x01]] 0 None)
    by reflexivity.
  rewrite Hget.
  set (playing := mk _ _ _ _ _ _ _ _ _).
  destruct (aborted_hangs (around playing env) (vmc playing))
    as [Hnone _]; [simpl; lia | ].
  assert (Hcall : AudioRouter.hung_call (around playing env) (vmc playing)
                  = (fst (VMCLipSync.rms_to_blend_shapes
                            VMCLipSync.default (AudioRouter.rms_of [1])),
                     [(AudioRouter.INFO,
                       "Playing with real-time VMC lip sync"%string)],
                     AudioRouter.rms_of [1]))
    by reflexivity.
  rewrite (worker_resume_hangs playing env [Byte.x01] _ _ _
                               eq_refl eq_refl Hnone Hcall).
  simpl hung. simpl vmc. rewrite Hrms.
  assert (Hlevel : VMCLipSync._envelope
                     (fst (VMCLipSync.rms_to_blend_shapes
                             VMCLipSync.default 1)) = 0.3575).
  { rewrite tick_envelope.
    unfold VMCLipSync.follow, VMCLipSync.target_of, Rmin; simpl.
    literal_cases; lra. }
  split; [reflexivity | ]. split; [exact Hlevel | ].
  intros [_ Hzero]. rewrite Hlevel in Hzero. lra.
Qed.

(** X23.  Left alone with a queue and as many playbacks that return,
    in whatever way, the worker plays every item, in order, and ends
    idle with the queue empty. *)
Lemma worker_drains_queue (envs : list AudioRouter.environment) :
  forall srv : t,
    in_flight srv = None ->
    length envs = length (playback_queue srv) ->
    (forall env vmc,
        In env envs ->
        AudioRouter.play_audio_with_vmc
          (HAS_PYDUB srv) (HAS_SOUNDDEVICE srv) env vmc <> None) ->
    playback_queue (drain srv envs) = []
    /\ in_flight (drain srv envs) = None
    /\ exists oks,
        length oks = length envs
        /\ trace (drain srv envs)
           = trace srv ++ one_by_one (combine (playback_queue srv) oks).
Proof.
  induction envs as [ | env envs IH]; intros srv Hidle Hlen Hret.
  - destruct (playback_queue srv) eqn:Hq; [ | discriminate].
    unfold drain. simpl. rewrite Hq. repeat split; auto.
    exists []. rewrite app_nil_r. auto.
  - destruct (playback_queue srv) as [ | audio_data rest] eqn:Hq;
      [discriminate | ].
    rewrite drain_cons. unfold playback_worker.
    rewrite (worker_get_takes srv audio_data rest Hidle Hq).
    set (playing := mk _ _ _ _ _ _ _ _ _).
    destruct (AudioRouter.play_audio_with_vmc
                (HAS_PYDUB playing) (HAS_SOUNDDEVICE playing)
                (around playing env) (vmc playing))
      as [[[vmc' records] ok] | ] eqn:Hplay.
    + rewrite (worker_resume_returns playing env audio_data vmc' records ok
                                     eq_refl eq_refl Hplay).
      unfold playing. simpl.
      match goal with
      | |- context [drain ?srv1 envs] =>
          destruct (IH srv1) as (Hq' & Hidle' & oks & Hoks & Htr)
      end; simpl; auto.
      { intros e v Hin. apply Hret. right. exact Hin. }
      split; [exact Hq' | ]. split; [exact Hidle' | ].
      exists (ok :: oks). split; [simpl; congruence | ].
      rewrite Htr. simpl. rewrite <- !app_assoc. reflexivity.
    + exfalso. revert Hplay. simpl. unfold around.
      destruct (leaked_threads playing =? 0)%nat.
      * apply (returns_whatever_the_threads _ _ env (vmc srv) (vmc srv)).
        apply Hret. left. reflexivity.
      * apply Hret. left. reflexivity.
Qed.

End PlaybackQueue.

(* ================================================================== *)
(** * Part III: further properties of [audio_router.py]                *)
(* ================================================================== *)

Section LipSyncInvariants.

Import VMCLipSync.

Lemma follow_silent_closed (self : t) :
  0 <= max_open self -> _envelope self = 0 -> follow self 0 = 0.
Proof.
  intros Hm He. unfold follow, target_of, Rmin. rewrite He.
  real_cases; assert (max_open self = 0) by lra; nra.
Qed.

Lemma smooth_zero_zero : smooth zero_shapes zero_shapes = zero_shapes.
Proof.
  apply shapes_ext. intros v. rewrite smooth_toward_zero.
  replace (get zero_shapes v) with 0 by (destruct v; reflexivity).
  real_cases.
Qed.

Lemma silent_tick_on_closed_mouth (self : t) :
  0 <= max_open self -> mouth_closed self ->
  mouth_closed (fst (rms_to_blend_shapes self 0))
  /\ snd (rms_to_blend_shapes self 0) = 0.
Proof.
  intros Hm [Hp He].
  assert (Hf : follow self 0 = 0) by (apply follow_silent_closed; assumption).
  assert (Hr : snd (rms_to_blend_shapes self 0) = 0).
  { rewrite tick_returns, Hf. unfold gated, Rmax, Rmin. real_cases. }
  destruct (silent_tick_state self 0 Hr) as [_ Hs].
  split; [split | exact Hr].
  - rewrite Hs, Hp. apply smooth_zero_zero.
  - rewrite tick_envelope. exact Hf.
Qed.

(** X1.  Silence cannot open a closed mouth: from a state with all
    shape weights and the level at zero, any number of ticks at
    loudness 0 return openness 0, leave the state closed and, with a
    client, transmit the all-zero frame every time. *)
Theorem silence_keeps_a_closed_mouth_closed (self : t) (n : nat) :
  0 <= max_open self ->
  mouth_closed self ->
  mouth_closed (fst (ticks self (repeat 0 n)))
  /\ snd (ticks self (repeat 0 n)) = repeat 0 n
  /\ (client self = true ->
      sent (fst (ticks self (repeat 0 n)))
      = sent self ++ repeat zero_shapes n).
Proof.
  revert self. induction n as [ | n IH]; intros self Hm Hclosed.
  - simpl. rewrite app_nil_r. auto.
  - destruct (silent_tick_on_closed_mouth self Hm Hclosed) as [Hc1 Hr1].
    pose proof (tick_config self 0) as Hcfg.
    pose proof (tick_sent self 0) as Hsent.
    simpl. destruct (rms_to_blend_shapes self 0) as [self1 e1].
    simpl in Hc1, Hr1, Hcfg, Hsent.
    destruct Hcfg as (_ & Hmax & _ & _ & _ & Hcl).
    assert (Hm1 : 0 <= max_open self1) by (rewrite <- Hmax; exact Hm).
    destruct (IH self1 Hm1 Hc1) as (IHc & IHr & IHs).
    destruct (ticks self1 (repeat 0 n)) as [self2 out]. simpl in *.
    split; [exact IHc | ]. split; [rewrite Hr1, IHr; reflexivity | ].
    intros Hclient. rewrite IHs by congruence. rewrite (Hsent Hclient).
    destruct Hc1 as [Hz _]. rewrite Hz, <- app_assoc. reflexivity.
Qed.

Lemma silence_keeps_a_closed_mouth_closed_witness :
  mouth_closed (fst (ticks default (repeat 0 3)))
  /\ snd (ticks default (repeat 0 3)) = repeat 0 3
  /\ (client default = true ->
      sent (fst (ticks default (repeat 0 3)))
      = sent default ++ repeat zero_shapes 3).
Proof.
  apply (silence_keeps_a_closed_mouth_closed default 3).
  - simpl. lra.
  - split; reflexivity.
Defined.

Lemma lobe_le_1 (phase offset : R) : lobe phase offset <= 1.
Proof.
  unfold lobe. apply Rmax_lub; [lra | apply SIN_bound].
Qed.

Lemma divisor_positive (phase : R) : 0 < divisor phase.
Proof. unfold divisor. destruct (Rlt_dec _ _); lra. Qed.

Lemma lobe_le_divisor (phase offset : R) :
  offset = 0 \/ offset = 1.2 \/ offset = 2.5 \/ offset = 3.8 \/ offset = 5 ->
  lobe phase offset <= divisor phase.
Proof.
  intros Hoff. unfold divisor.
  destruct (Rlt_dec _ _); [apply lobe_le_1 | ].
  unfold lobe_sum.
  pose proof (lobe_nonneg phase 0). pose proof (lobe_nonneg phase 1.2).
  pose proof (lobe_nonneg phase 2.5). pose proof (lobe_nonneg phase 3.8).
  pose proof (lobe_nonneg phase 5).
  destruct Hoff as [-> | [-> | [-> | [-> | ->]]]]; lra.
Qed.

Lemma share_within (phase offset : R) :
  offset = 0 \/ offset = 1.2 \/ offset = 2.5 \/ offset = 3.8 \/ offset = 5 ->
  0 <= lobe phase offset / divisor phase <= 1.
Proof.
  intros Hoff.
  pose proof (divisor_positive phase) as Hd.
  pose proof (lobe_nonneg phase offset) as Hl.
  pose proof (lobe_le_divisor phase offset Hoff) as Hle.
  split.
  - apply Rmult_le_pos; [exact Hl | left; apply Rinv_0_lt_compat; exact Hd].
  - apply (Rmult_le_reg_r (divisor phase)); [exact Hd | ].
    unfold Rdiv. rewrite Rmult_assoc, Rinv_l by lra. lra.
Qed.

Lemma speaking_shapes_within (phase envelope : R) :
  0 <= envelope -> weights_within envelope (speaking_shapes phase envelope).
Proof.
  intros He v. unfold speaking_shapes.
  pose proof (share_within phase 0) as H0.
  pose proof (share_within phase 1.2) as H1.
  pose proof (share_within phase 2.5) as H2.
  pose proof (share_within phase 3.8) as H3.
  pose proof (share_within phase 5) as H4.
  destruct v; simpl.
  - specialize (H0 ltac:(tauto)). nra.
  - specialize (H2 ltac:(tauto)). nra.
  - specialize (H4 ltac:(tauto)). nra.
  - specialize (H1 ltac:(tauto)). nra.
  - specialize (H3 ltac:(tauto)). nra.
Qed.

Lemma zero_shapes_within (m : R) : 0 <= m -> weights_within m zero_shapes.
Proof. intros Hm v. destruct v; simpl; lra. Qed.

Lemma smooth_within (m : R) (prev target : shapes) :
  0 <= m -> weights_within m prev -> weights_within m target ->
  weights_within m (smooth prev target).
Proof.
  intros Hm Hp Ht v. unfold smooth, shape_lerp. rewrite get_build.
  specialize (Hp v). specialize (Ht v).
  destruct (Rlt_dec _ _); lra.
Qed.

Lemma tick_weights_within (self : t) (rms : R) :
  0 <= max_open self ->
  weights_within (max_open self) (_prev_shapes self) ->
  weights_within (max_open self)
                 (_prev_shapes (fst (rms_to_blend_shapes self rms))).
Proof.
  intros Hm Hp. rewrite tick_prev.
  apply smooth_within; [exact Hm | exact Hp | ].
  destruct (Rlt_dec _ _) as [Hg | Hg]; [apply zero_shapes_within, Hm | ].
  set (e := Rmax 0 (Rmin (max_open self) (follow self rms))) in *.
  assert (He : 0 <= e <= max_open self).
  { unfold e, Rmax, Rmin. real_cases. }
  intros v.
  pose proof (speaking_shapes_within
                (_vowel_phase self + vowel_speed self / 30) e (proj1 He) v).
  lra.
Qed.

Lemma fade_of_within (step : nat) : (step < 8)%nat -> 0 <= fade_of step <= 1.
Proof.
  intros H. unfold fade_of.
  assert (0 <= INR step <= 7).
  { split; [apply pos_INR | ].
    replace 7 with (INR 7) by (simpl; lra). apply le_INR. lia. }
  lra.
Qed.

Lemma ticks_weights_within (samples : list R) :
  forall self : t,
    0 <= max_open self ->
    weights_within (max_open self) (_prev_shapes self) ->
    Forall (weights_within (max_open self)) (sent self) ->
    weights_within (max_open self) (_prev_shapes (fst (ticks self samples)))
    /\ Forall (weights_within (max_open self)) (sent (fst (ticks self samples))).
Proof.
  induction samples as [ | rms samples IH]; intros self Hm Hp Hs; [auto | ].
  pose proof (tick_weights_within self rms Hm Hp) as Hp1.
  pose proof (tick_config self rms) as (_ & Hmax & _ & _ & _ & _).
  assert (Hs1 : Forall (weights_within (max_open self))
                       (sent (fst (rms_to_blend_shapes self rms)))).
  { destruct (client self) eqn:Hc.
    - rewrite tick_sent by exact Hc. apply Forall_app. split; [exact Hs | ].
      constructor; [exact Hp1 | constructor].
    - replace (sent (fst (rms_to_blend_shapes self rms))) with (sent self);
        [exact Hs | ].
      unfold rms_to_blend_shapes; simpl.
      destruct (Rlt_dec _ _); simpl; unfold _send_blend_shapes; simpl;
        rewrite Hc; reflexivity. }
  simpl. destruct (rms_to_blend_shapes self rms) as [self1 e1]. simpl in *.
  specialize (IH self1). rewrite <- Hmax in IH.
  destruct (IH Hm Hp1 Hs1) as [IH1 IH2].
  destruct (ticks self1 samples) as [self2 out]. simpl in *. auto.
Qed.

Lemma fade_steps_weights_within (steps : list nat) :
  forall self : t,
    Forall (fun step => (step < 8)%nat) steps ->
    0 <= max_open self ->
    weights_within (max_open self) (_prev_shapes self) ->
    Forall (weights_within (max_open self)) (sent self) ->
    max_open (fold_left fade_step steps self) = max_open self
    /\ weights_within (max_open self)
                      (_prev_shapes (fold_left fade_step steps self))
    /\ Forall (weights_within (max_open self))
              (sent (fold_left fade_step steps self)).
Proof.
  induction steps as [ | step steps IH]; intros self Hsteps Hm Hp Hs;
    [simpl; auto | ].
  apply Forall_cons_iff in Hsteps as [Hstep Hsteps].
  pose proof (fade_of_within step Hstep) as Hf.
  set (next := build (fun v => get (_prev_shapes self) v * fade_of step)).
  assert (Hn : weights_within (max_open self) next).
  { intros v. unfold next. rewrite get_build. specialize (Hp v). nra. }
  assert (Hdef : fade_step self step
                 = _send_blend_shapes (set_prev_shapes self next) next)
    by reflexivity.
  assert (Hmax : max_open (fade_step self step) = max_open self).
  { rewrite Hdef. unfold _send_blend_shapes; simpl.
    destruct (client self); reflexivity. }
  assert (Hp1 : _prev_shapes (fade_step self step) = next).
  { rewrite Hdef. unfold _send_blend_shapes; simpl.
    destruct (client self); reflexivity. }
  assert (Hs1 : Forall (weights_within (max_open self))
                       (sent (fade_step self step))).
  { rewrite Hdef. unfold _send_blend_shapes; simpl.
    destruct (client self); simpl; [ | exact Hs].
    apply Forall_app. split; [exact Hs | constructor; [exact Hn | constructor]]. }
  cbn [fold_left].
  destruct (IH (fade_step self step) Hsteps) as (IHm & IHp & IHs);
    rewrite ?Hmax, ?Hp1; try assumption.
  rewrite Hmax in IHm, IHp, IHs. auto.
Qed.

Lemma close_mouth_weights_within (self : t) :
  0 <= max_open self ->
  Forall (weights_within (max_open self)) (sent self) ->
  max_open (close_mouth self) = max_open self
  /\ weights_within (max_open self) (_prev_shapes (close_mouth self))
  /\ Forall (weights_within (max_open self)) (sent (close_mouth self)).
Proof.
  intros Hm Hs. unfold close_mouth, _send_blend_shapes. simpl.
  destruct (client self); simpl.
  - split; [reflexivity | ]. split; [apply zero_shapes_within, Hm | ].
    apply Forall_app. split; [exact Hs | ].
    constructor; [apply zero_shapes_within, Hm | constructor].
  - split; [reflexivity | ]. split; [apply zero_shapes_within, Hm | exact Hs].
Qed.

Lemma fade_close_weights_within (self : t) :
  0 <= max_open self ->
  weights_within (max_open self) (_prev_shapes self) ->
  Forall (weights_within (max_open self)) (sent self) ->
  max_open (_fade_close self) = max_open self
  /\ weights_within (max_open self) (_prev_shapes (_fade_close self))
  /\ Forall (weights_within (max_open self)) (sent (_fade_close self)).
Proof.
  intros Hm Hp Hs. unfold _fade_close.
  destruct (fade_steps_weights_within (seq 0 8) self) as (Hm2 & Hp2 & Hs2);
    try assumption.
  { apply Forall_forall. intros step Hin. apply in_seq in Hin. lia. }
  destruct (close_mouth_weights_within (fold_left fade_step (seq 0 8) self))
    as (Hm3 & Hp3 & Hs3); rewrite ?Hm2; try assumption.
  rewrite Hm2 in Hm3, Hp3, Hs3. auto.
Qed.

(** X2.  Every blend-shape weight that is stored or transmitted stays
    between 0 and [max_open]: if that holds for the previous frame and
    for the frames sent so far, it holds after any sequence of ticks,
    whatever the loudness, gain, attack and release are, and after the
    fade-out that follows. *)
Theorem weights_stay_within_max_open (self : t) (samples : list R) :
  0 <= max_open self ->
  weights_within (max_open self) (_prev_shapes self) ->
  Forall (weights_within (max_open self)) (sent self) ->
  let spoken := fst (ticks self samples) in
  weights_within (max_open self) (_prev_shapes spoken)
  /\ Forall (weights_within (max_open self)) (sent spoken)
  /\ Forall (weights_within (max_open self)) (sent (_fade_close spoken)).
Proof.
  intros Hm Hp Hs. cbv zeta.
  destruct (ticks_weights_within samples self Hm Hp Hs) as [Hp1 Hs1].
  split; [exact Hp1 | split; [exact Hs1 | ] ].
  pose proof (ticks_config samples self) as (_ & Hmax & _).
  destruct (fade_close_weights_within (fst (ticks self samples)))
    as (_ & _ & Hs2); rewrite <- ?Hmax; try assumption.
  rewrite <- Hmax in Hs2. exact Hs2.
Qed.

Lemma weights_stay_within_max_open_witness :
  let spoken := fst (ticks default [0.3; 0.1; 0]) in
  weights_within (max_open default) (_prev_shapes spoken)
  /\ Forall (weights_within (max_open default)) (sent spoken)
  /\ Forall (weights_within (max_open default)) (sent (_fade_close spoken)).
Proof.
  apply (weights_stay_within_max_open default [0.3; 0.1; 0]).
  - simpl. lra.
  - intros v. destruct v; simpl; lra.
  - constructor.
Defined.

(** X3.  One call moves the stored level toward the target and never
    past it: with attack and release in [[0, 1]] the new level lies
    between the old level and the target, so its distance to the
    target does not grow. *)
Theorem tick_moves_level_toward_target (self : t) (rms : R) :
  0 <= attack self <= 1 -> 0 <= release self <= 1 ->
  let target := Rmin (max_open self) (rms * gain self) in
  let level := _envelope self in
  let level' := _envelope (fst (rms_to_blend_shapes self rms)) in
  Rmin level target <= level' <= Rmax level target
  /\ Rabs (target - level') <= Rabs (target - level).
Proof.
  intros Ha Hr. cbv zeta. rewrite tick_envelope.
  unfold follow, target_of.
  set (T := Rmin (max_open self) (rms * gain self)).
  set (L := _envelope self).
  unfold Rmin at 1, Rmax. unfold Rabs.
  destruct (Rlt_dec L T); destruct (Rle_dec L T);
    destruct (Rcase_abs _); destruct (Rcase_abs _); split; try split; nra.
Qed.

Lemma tick_moves_level_toward_target_witness :
  let target := Rmin (max_open default) (1 * gain default) in
  let level := _envelope default in
  let level' := _envelope (fst (rms_to_blend_shapes default 1)) in
  Rmin level target <= level' <= Rmax level target
  /\ Rabs (target - level') <= Rabs (target - level).
Proof.
  apply (tick_moves_level_toward_target default 1); simpl; lra.
Defined.

End LipSyncInvariants.

Section MouthCloses.

Import VMCLipSync.

(** The weight a silent, gated tick leaves of a previous weight. *)
Lemma snap_decay_reaches_zero (w : R) :
  exists K : nat,
    forall k, (K <= k)%nat ->
      Nat.iter k (fun x => if Rlt_dec (0.65 * x) 0.005 then 0 else 0.65 * x) w
      = 0.
Proof.
  set (g := fun x => if Rlt_dec (0.65 * x) 0.005 then 0 else 0.65 * x).
  assert (Hg0 : g 0 = 0) by (unfold g; real_cases).
  assert (Hshape : forall k, Nat.iter k g w = 0 \/ Nat.iter k g w = 0.65 ^ k * w).
  { induction k as [ | k IH]; [right; simpl; lra | ].
    simpl. destruct IH as [-> | ->]; [left; exact Hg0 | ].
    unfold g. destruct (Rlt_dec _ _); [left; reflexivity | right; lra]. }
  destruct (Rle_dec w 0) as [Hw | Hw].
  - exists 1%nat. intros k Hk. destruct k as [ | k]; [lia | ].
    simpl. destruct (Hshape k) as [-> | ->]; [exact Hg0 | ].
    assert (0 <= 0.65 ^ k) by (apply pow_le; lra).
    unfold g. destruct (Rlt_dec _ _); [reflexivity | nra].
  - assert (Hpos : 0 < w) by lra.
    destruct (pow_lt_1_zero 0.65) with (y := 0.005 / w) as [N HN].
    + rewrite Rabs_pos_eq; lra.
    + apply Rdiv_lt_0_compat; lra.
    + exists (S N). intros k Hk. destruct k as [ | k]; [lia | ].
      simpl. destruct (Hshape k) as [-> | ->]; [exact Hg0 | ].
      assert (Hsmall : 0.65 ^ S k < 0.005 / w).
      { specialize (HN (S k) ltac:(lia)).
        rewrite Rabs_pos_eq in HN; [exact HN | apply pow_le; lra]. }
      assert (Hlt : 0.65 ^ S k * w < 0.005).
      { apply (Rmult_lt_compat_r w) in Hsmall; [ | exact Hpos].
        unfold Rdiv in Hsmall. rewrite Rmult_assoc, Rinv_l in Hsmall; lra. }
      unfold g. simpl in Hlt. destruct (Rlt_dec _ _); [reflexivity | lra].
Qed.

Lemma silent_level_falls_below_gate (self : t) :
  0 <= max_open self -> 0 <= release self < 1 -> 0 <= _envelope self ->
  exists N : nat,
    forall n, (N <= n)%nat -> openness_of_tick self 0 (S n) = 0.
Proof.
  intros Hm Hr He.
  destruct (pow_lt_1_zero (release self)) with (y := 0.02 / (_envelope self + 1))
    as [N HN].
  - rewrite Rabs_pos_eq; lra.
  - apply Rdiv_lt_0_compat; lra.
  - exists N. intros n Hn.
    rewrite openness_of_tick_S, decay_closed_form by lra.
    assert (Hp : 0 <= release self ^ S n) by (apply pow_le; lra).
    assert (Hsmall : release self ^ S n < 0.02 / (_envelope self + 1)).
    { specialize (HN (S n) ltac:(lia)).
      rewrite Rabs_pos_eq in HN; assumption. }
    assert (Hlt : release self ^ S n * (_envelope self + 1) < 0.02).
    { apply (Rmult_lt_compat_r (_envelope self + 1)) in Hsmall; [ | lra].
      unfold Rdiv in Hsmall. rewrite Rmult_assoc, Rinv_l in Hsmall; lra. }
    set (v := _envelope self * release self ^ S n) in *.
    assert (Hv : 0 <= v < 0.02) by (unfold v; nra).
    unfold gated, Rmax, Rmin.
    destruct (Rle_dec (max_open self) v); destruct (Rle_dec 0 _);
      destruct (Rlt_dec _ 0.02); lra.
Qed.

Lemma gated_ticks_decay_frame (self : t) (N : nat) :
  (forall n, (N <= n)%nat -> openness_of_tick self 0 (S n) = 0) ->
  forall k v,
    get (_prev_shapes (hold self 0 (N + k))) v
    = Nat.iter k (fun x => if Rlt_dec (0.65 * x) 0.005 then 0 else 0.65 * x)
               (get (_prev_shapes (hold self 0 N)) v).
Proof.
  intros Hgate k v. induction k as [ | k IH].
  - rewrite Nat.add_0_r. reflexivity.
  - replace (N + S k)%nat with (S (N + k)) by lia.
    rewrite hold_S.
    assert (H0 : snd (rms_to_blend_shapes (hold self 0 (N + k)) 0) = 0).
    { apply (Hgate (N + k)%nat). lia. }
    destruct (silent_tick_state _ _ H0) as [_ Hp].
    rewrite Hp, smooth_toward_zero, IH. reflexivity.
Qed.

(** X4.  Under silence the mouth closes for good after finitely many
    ticks: with [release < 1] there is a tick from which on every call
    returns openness 0 and stores the all-zero frame. *)
Theorem silence_closes_the_mouth (self : t) :
  0 <= max_open self -> 0 <= release self < 1 -> 0 <= _envelope self ->
  exists N : nat,
    forall n, (N <= n)%nat ->
      openness_of_tick self 0 (S n) = 0
      /\ _prev_shapes (hold self 0 (S n)) = zero_shapes.
Proof.
  intros Hm Hr He.
  destruct (silent_level_falls_below_gate self Hm Hr He) as [N HN].
  pose (w := fun v => get (_prev_shapes (hold self 0 N)) v).
  destruct (snap_decay_reaches_zero (w vA)) as [KA HA].
  destruct (snap_decay_reaches_zero (w vI)) as [KI HI].
  destruct (snap_decay_reaches_zero (w vU)) as [KU HU].
  destruct (snap_decay_reaches_zero (w vE)) as [KE HE].
  destruct (snap_decay_reaches_zero (w vO)) as [KO HO].
  exists (N + (KA + KI + KU + KE + KO))%nat. intros n Hn.
  split; [apply HN; lia | ].
  replace (S n) with (N + (S n - N))%nat by lia.
  apply shapes_ext. intros v.
  rewrite (gated_ticks_decay_frame self N HN).
  replace (get zero_shapes v) with 0 by (destruct v; reflexivity).
  destruct v; [apply HA | apply HI | apply HU | apply HE | apply HO]; lia.
Qed.

Lemma silence_closes_the_mouth_witness :
  exists N : nat,
    forall n, (N <= n)%nat ->
      openness_of_tick (set_envelope default 0.5) 0 (S n) = 0
      /\ _prev_shapes (hold (set_envelope default 0.5) 0 (S n)) = zero_shapes.
Proof.
  apply (silence_closes_the_mouth (set_envelope default 0.5)); simpl; lra.
Defined.

Lemma divisor_is_lobe_sum (phase : R) :
  divisor phase = lobe_sum phase /\ 0 < lobe_sum phase.
Proof.
  assert (H : 0.01 < lobe_sum phase).
  { unfold lobe_sum.
    pose proof (lobe_nonneg phase 0). pose proof (lobe_nonneg phase 1.2).
    pose proof (lobe_nonneg phase 2.5). pose proof (lobe_nonneg phase 3.8).
    pose proof (lobe_nonneg phase 5).
    pose proof (lobe_above_sine phase 0) as Hfirst.
    pose proof (lobe_above_sine phase 2.5).
    pose proof (lobe_above_sine phase 3.8).
    rewrite Rplus_0_r in Hfirst.
    destruct (some_lobe_open (phase * 2 * PI)) as [ | [ | ]]; lra. }
  split; [ | lra]. unfold divisor. destruct (Rlt_dec _ _); lra.
Qed.

(** X5.  The target frame of a speaking tick shares the level out
    among the vowels: with the per-vowel factors 1, 0.85, 0.7, 0.9 and
    0.75 divided out, the five target weights add up to the level
    exactly; as they stand they add up to between 70% and 100% of it. *)
Theorem target_weights_share_the_level (phase envelope : R) :
  let s := speaking_shapes phase envelope in
  wA s + wE s / 0.85 + wI s / 0.7 + wO s / 0.9 + wU s / 0.75 = envelope
  /\ (0 <= envelope ->
      0.7 * envelope <= wA s + wE s + wI s + wO s + wU s <= envelope).
Proof.
  cbv zeta. unfold speaking_shapes. simpl.
  destruct (divisor_is_lobe_sum phase) as [Hd Hpos].
  rewrite Hd.
  set (a := lobe phase 0 / lobe_sum phase).
  set (e := lobe phase 1.2 / lobe_sum phase).
  set (i := lobe phase 2.5 / lobe_sum phase).
  set (o := lobe phase 3.8 / lobe_sum phase).
  set (u := lobe phase 5 / lobe_sum phase).
  assert (Hone : a + e + i + o + u = 1).
  { unfold a, e, i, o, u. unfold lobe_sum at 1 2 3 4 5.
    fold (lobe_sum phase). unfold lobe_sum in Hpos |- *. field. lra. }
  assert (Ha : 0 <= a) by (apply Rmult_le_pos;
    [apply lobe_nonneg | left; apply Rinv_0_lt_compat; exact Hpos]).
  assert (He : 0 <= e) by (apply Rmult_le_pos;
    [apply lobe_nonneg | left; apply Rinv_0_lt_compat; exact Hpos]).
  assert (Hi : 0 <= i) by (apply Rmult_le_pos;
    [apply lobe_nonneg | left; apply Rinv_0_lt_compat; exact Hpos]).
  assert (Ho : 0 <= o) by (apply Rmult_le_pos;
    [apply lobe_nonneg | left; apply Rinv_0_lt_compat; exact Hpos]).
  assert (Hu : 0 <= u) by (apply Rmult_le_pos;
    [apply lobe_nonneg | left; apply Rinv_0_lt_compat; exact Hpos]).
  split.
  - transitivity ((a + e + i + o + u) * envelope);
      [field; repeat split; lra | rewrite Hone; ring].
  - intros Henv. split; nra.
Qed.

End MouthCloses.

Section PrepassAnalysis.

Import VMCLipSync Prepass.

Lemma chunk_size_zero_iff (sample_rate : nat) :
  (chunk_size sample_rate =? 0)%nat = true <-> (sample_rate < 30)%nat.
Proof.
  unfold chunk_size. rewrite Nat.eqb_eq. apply Nat.div_small_iff. lia.
Qed.

(** X6.  [send_lip_sync] raises [ZeroDivisionError] exactly for sample
    rates below 30 Hz, whatever the samples are: a frame of 1/30 s then
    holds no sample. *)
Theorem send_lip_sync_raises_below_thirty_hertz
        (self : t) (samples : AudioRouter.ndarray) (sample_rate : nat) :
  send_lip_sync self samples sample_rate = None <-> (sample_rate < 30)%nat.
Proof.
  unfold send_lip_sync. rewrite <- chunk_size_zero_iff.
  destruct (chunk_size sample_rate =? 0)%nat.
  - split; reflexivity.
  - split; discriminate.
Qed.

Lemma tick_frame_count (self : t) (rms : R) :
  _frame_count (fst (rms_to_blend_shapes self rms)) = S (_frame_count self).
Proof.
  unfold rms_to_blend_shapes; simpl.
  destruct (Rlt_dec _ _); simpl; unfold _send_blend_shapes; simpl;
    destruct (client self); reflexivity.
Qed.

Lemma analyse_all (mono : list R) (cs : nat) (frames : list nat) :
  forall self : t,
    let self' := fold_left (analyse mono cs) frames self in
    client self' = client self
    /\ _frame_count self' = (_frame_count self + length frames)%nat
    /\ (client self = true ->
        length (sent self') = (length (sent self) + length frames)%nat).
Proof.
  induction frames as [ | i frames IH]; intros self; cbv zeta.
  - simpl. repeat split; lia.
  - cbn [fold_left].
    set (rms := AudioRouter.rms_of
                  (AudioRouter.slice mono (i * cs) ((i + 1) * cs))).
    assert (Hdef : analyse mono cs self i = fst (rms_to_blend_shapes self rms))
      by reflexivity.
    destruct (IH (analyse mono cs self i)) as (IHc & IHf & IHs).
    pose proof (tick_config self rms) as (_ & _ & _ & _ & _ & Hcl).
    rewrite Hdef in *. rewrite tick_frame_count in IHf.
    split; [congruence | ]. split; [simpl; lia | ].
    intros Hc. rewrite IHs by congruence.
    rewrite tick_sent by exact Hc. rewrite length_app. simpl. lia.
Qed.

Lemma fade_frames_length (steps : list nat) :
  forall frame, length (fade_frames frame steps) = length steps.
Proof.
  induction steps as [ | step steps IH]; intros frame; simpl; auto.
Qed.

Lemma fade_close_state (self : t) :
  mouth_closed (_fade_close self)
  /\ _frame_count (_fade_close self) = _frame_count self
  /\ (client self = true ->
      length (sent (_fade_close self)) = (length (sent self) + 9)%nat
      /\ last (sent (_fade_close self)) zero_shapes = zero_shapes).
Proof.
  assert (Hcount : forall steps s,
             _frame_count (fold_left fade_step steps s) = _frame_count s).
  { induction steps as [ | step steps IH]; intros s; [reflexivity | ].
    cbn [fold_left]. rewrite IH. unfold fade_step, _send_blend_shapes. simpl.
    destruct (client s); reflexivity. }
  split; [apply close_mouth_closed | ]. split.
  - assert (Hcm : forall s, _frame_count (close_mouth s) = _frame_count s).
    { intros s. unfold close_mouth, _send_blend_shapes.
      destruct (client s); reflexivity. }
    unfold _fade_close. rewrite Hcm. apply Hcount.
  - intros Hc. unfold _fade_close.
    destruct (fade_step_frames (seq 0 8) self Hc) as (Hs & Hc').
    destruct (close_mouth_state _ Hc') as (Hcs & _ & _).
    rewrite Hcs, Hs. split.
    + rewrite !length_app, fade_frames_length. simpl. lia.
    + apply last_last.
Qed.

(** X7.  A pre-analysed buffer of [n] mono samples at a rate of at
    least 30 Hz makes [n // chunk_size] calls of [rms_to_blend_shapes]
    and then fades: the frame counter advances by that number, with a
    client that many frames plus the nine of the fade-out are sent, the
    last one all-zero, and the mouth is closed afterwards. *)
Theorem send_lip_sync_sends_one_frame_per_chunk
        (self self' : t) (samples : AudioRouter.ndarray) (sample_rate : nat) :
  send_lip_sync self samples sample_rate = Some self' ->
  let total_frames :=
    (length (mono_of samples) / (sample_rate / 30))%nat in
  (30 <= sample_rate)%nat
  /\ mouth_closed self'
  /\ _frame_count self' = (_frame_count self + total_frames)%nat
  /\ (client self = true ->
      length (sent self') = (length (sent self) + total_frames + 9)%nat
      /\ last (sent self') zero_shapes = zero_shapes).
Proof.
  intros Hrun. cbv zeta.
  assert (Hrate : (30 <= sample_rate)%nat).
  { destruct (le_lt_dec 30 sample_rate) as [H | H]; [exact H | ].
    apply chunk_size_zero_iff in H. unfold send_lip_sync in Hrun.
    rewrite H in Hrun. discriminate. }
  split; [exact Hrate | ].
  unfold send_lip_sync, chunk_size in Hrun.
  destruct (sample_rate / 30 =? 0)%nat; [discriminate | ].
  assert (Heq : _fade_close
                  (fold_left (analyse (mono_of samples) (sample_rate / 30))
                     (seq 0 (length (mono_of samples) / (sample_rate / 30)))
                     self) = self') by congruence.
  clear Hrun. subst self'.
  set (k := (length (mono_of samples) / (sample_rate / 30))%nat).
  pose proof (analyse_all (mono_of samples) (sample_rate / 30) (seq 0 k) self)
    as Hall.
  cbv zeta in Hall. rewrite length_seq in Hall.
  destruct Hall as (Hc & Hf & Hs).
  destruct (fade_close_state
              (fold_left (analyse (mono_of samples) (sample_rate / 30))
                         (seq 0 k) self)) as (Hclosed & Hcount & Hsent).
  split; [exact Hclosed | ].
  split; [rewrite Hcount; exact Hf | ].
  intros Hclient.
  destruct Hsent as [Hlen Hlast]; [congruence | ].
  split; [rewrite Hlen, (Hs Hclient); reflexivity | exact Hlast].
Qed.

Lemma send_lip_sync_sends_one_frame_per_chunk_witness :
  let samples := AudioRouter.Mono (repeat 0.5 7) in
  let self' := _fade_close
                 (fold_left (analyse (repeat 0.5 7) 3) (seq 0 2) default) in
  let total_frames := (length (mono_of samples) / (90 / 30))%nat in
  (30 <= 90)%nat
  /\ mouth_closed self'
  /\ _frame_count self' = (_frame_count default + total_frames)%nat
  /\ (client default = true ->
      length (sent self') = (length (sent default) + total_frames + 9)%nat
      /\ last (sent self') zero_shapes = zero_shapes).
Proof.
  apply (send_lip_sync_sends_one_frame_per_chunk
           default _ (AudioRouter.Mono (repeat 0.5 7)) 90).
  reflexivity.
Defined.

Lemma fold_left_agree {X Y : Type} (f g : X -> Y -> X) (ys : list Y) :
  (forall x y, In y ys -> f x y = g x y) ->
  forall x, fold_left f ys x = fold_left g ys x.
Proof.
  induction ys as [ | y ys IH]; intros H x; [reflexivity | ].
  simpl. rewrite (H x y) by (left; reflexivity).
  apply IH. intros x' y' Hin. apply H. right. exact Hin.
Qed.

Lemma slice_app_inside {X : Type} (xs tail : list X) (start stop : nat) :
  (stop <= length xs)%nat ->
  AudioRouter.slice (xs ++ tail) start stop = AudioRouter.slice xs start stop.
Proof.
  intros H. unfold AudioRouter.slice.
  rewrite skipn_app, firstn_app, length_skipn.
  replace (stop - start - (length xs - start))%nat with 0%nat by lia.
  rewrite firstn_0, app_nil_r. reflexivity.
Qed.

(** X8.  The pre-analysis drops what does not fill a whole frame: mono
    samples appended after the last whole chunk, fewer than one chunk
    of them, do not change anything [send_lip_sync] does. *)
Theorem send_lip_sync_ignores_a_partial_last_chunk
        (self : t) (xs tail : list R) (sample_rate k : nat) :
  length xs = (k * (sample_rate / 30))%nat ->
  (length tail < sample_rate / 30)%nat ->
  send_lip_sync self (AudioRouter.Mono (xs ++ tail)) sample_rate
  = send_lip_sync self (AudioRouter.Mono xs) sample_rate.
Proof.
  intros Hlen Htail. unfold send_lip_sync, chunk_size. simpl mono_of.
  set (cs := (sample_rate / 30)%nat) in *.
  destruct (cs =? 0)%nat eqn:E; [reflexivity | ].
  apply Nat.eqb_neq in E.
  assert (Hk : (length (xs ++ tail) / cs = k)%nat).
  { rewrite length_app, Hlen, Nat.div_add_l by exact E.
    rewrite (Nat.div_small (length tail)) by exact Htail. lia. }
  assert (Hk' : (length xs / cs = k)%nat)
    by (rewrite Hlen; apply Nat.div_mul; exact E).
  rewrite Hk, Hk'. f_equal. f_equal.
  apply fold_left_agree. intros s i Hin. apply in_seq in Hin.
  unfold analyse. rewrite slice_app_inside; [reflexivity | ].
  rewrite Hlen. apply Nat.mul_le_mono_r. lia.
Qed.

Lemma send_lip_sync_ignores_a_partial_last_chunk_witness :
  send_lip_sync default (AudioRouter.Mono (repeat 0.5 6 ++ [0.9; 0.9])) 90
  = send_lip_sync default (AudioRouter.Mono (repeat 0.5 6)) 90.
Proof.
  apply (send_lip_sync_ignores_a_partial_last_chunk
           default (repeat 0.5 6) [0.9; 0.9] 90 2).
  - reflexivity.
  - simpl. lia.
Defined.

(** X9.  A two-channel buffer whose channels carry the same signal is
    analysed like the one-channel buffer of that signal. *)
Theorem send_lip_sync_of_doubled_mono
        (self : t) (xs : list R) (sample_rate : nat) :
  send_lip_sync self (AudioRouter.Stereo (map (fun x => (x, x)) xs)) sample_rate
  = send_lip_sync self (AudioRouter.Mono xs) sample_rate.
Proof.
  assert (Hmono : mono_of (AudioRouter.Stereo (map (fun x => (x, x)) xs))
                  = mono_of (AudioRouter.Mono xs)).
  { simpl. unfold mean_axis1. rewrite map_map. simpl.
    rewrite <- (map_id xs) at 2. apply map_ext. intros x. field. }
  unfold send_lip_sync. rewrite Hmono. reflexivity.
Qed.

End PrepassAnalysis.

Section Decoding.

Import AudioRouter Decode.

Lemma reshape2_spec (n : nat) :
  forall xs : list R,
    (length xs <= n)%nat ->
    match reshape2 xs with
    | None => Nat.odd (length xs) = true
    | Some rows =>
        Nat.odd (length xs) = false
        /\ flat_map row_of rows = xs
        /\ length rows = (length xs / 2)%nat
    end.
Proof.
  induction n as [ | n IH]; intros xs Hlen.
  - destruct xs; [simpl; auto | simpl in Hlen; lia].
  - destruct xs as [ | l [ | r rest]]; [simpl; auto | reflexivity | ].
    assert (Hrest : (length rest <= n)%nat) by (simpl in Hlen; lia).
    specialize (IH rest Hrest).
    cbn [reshape2]. destruct (reshape2 rest) as [rows | ]; cbn [option_map].
    + destruct IH as (Hodd & Hflat & Hrows).
      split; [ | split ].
      * cbn [length]. rewrite Nat.odd_succ, Nat.even_succ. exact Hodd.
      * cbn [flat_map row_of fst snd app]. rewrite Hflat. reflexivity.
      * cbn [length]. rewrite Hrows.
        change (S (S (length rest))) with (2 + length rest)%nat.
        replace (2 + length rest)%nat with (1 * 2 + length rest)%nat by lia.
        rewrite Nat.div_add_l by lia. lia.
    + cbn [length]. rewrite Nat.odd_succ, Nat.even_succ. exact IH.
Qed.

(** X10.  Loading the integer samples of a segment fails exactly when
    two channels are declared and the number of samples is odd.
    Otherwise nothing is lost or reordered: read back in stream order
    the array holds every sample divided by 32768, and it has half as
    many frames as samples for two channels, and as many frames as
    samples for every other channel count. *)
Theorem load_samples_keeps_every_sample (raw : list Z) (channels : nat) :
  (load_samples raw channels = None
   <-> channels = 2%nat /\ Nat.odd (length raw) = true)
  /\ (forall samples,
         load_samples raw channels = Some samples ->
         interleaved samples = map (fun z => IZR z / 32768) raw
         /\ len samples
            = if (channels =? 2)%nat then (length raw / 2)%nat
              else length raw).
Proof.
  unfold load_samples.
  pose proof (reshape2_spec (length (map IZR raw)) (map IZR raw) (le_n _))
    as Hspec.
  rewrite length_map in Hspec.
  destruct (channels =? 2)%nat eqn:Hch.
  - apply Nat.eqb_eq in Hch.
    destruct (reshape2 (map IZR raw)) as [rows | ].
    + destruct Hspec as (Hodd & Hflat & Hrows).
      split; [split; [discriminate | intros [_ H]; congruence] | ].
      intros samples Hs. injection Hs as <-. simpl. split.
      * rewrite <- (map_map IZR (fun x => x / 32768)), <- Hflat.
        clear. induction rows as [ | p rows IH]; [reflexivity | ].
        simpl. rewrite IH. reflexivity.
      * rewrite length_map. exact Hrows.
    + split; [split; [intros _; auto | reflexivity] | discriminate].
  - apply Nat.eqb_neq in Hch.
    split; [split; [discriminate | intros [H _]; contradiction] | ].
    intros samples Hs. injection Hs as <-. simpl.
    rewrite map_map, !length_map. auto.
Qed.

(** X11.  Sixteen-bit samples are normalised into [[-1, 1)]: if every
    integer sample lies between -32768 and 32767, every sample of the
    loaded array is at least -1 and less than 1. *)
Theorem load_samples_normalises_sixteen_bit
        (raw : list Z) (channels : nat) (samples : ndarray) :
  Forall (fun z => (-32768 <= z <= 32767)%Z) raw ->
  load_samples raw channels = Some samples ->
  Forall (fun x => -1 <= x < 1) (interleaved samples).
Proof.
  intros Hraw Hload.
  assert (Hscaled : Forall (fun x => -1 <= x < 1)
                           (map (fun z => IZR z / 32768) raw)).
  { apply Forall_forall. intros x Hx.
    apply in_map_iff in Hx as (z & <- & Hz).
    rewrite Forall_forall in Hraw. destruct (Hraw z Hz) as [Hlo Hhi].
    apply IZR_le in Hlo, Hhi. lra. }
  revert Hload. unfold load_samples.
  destruct (channels =? 2)%nat.
  - pose proof (reshape2_spec (length (map IZR raw)) (map IZR raw) (le_n _))
      as Hspec.
    destruct (reshape2 (map IZR raw)) as [rows | ]; [ | discriminate].
    destruct Hspec as (_ & Hflat & _).
    intros Hs. injection Hs as <-. simpl.
    rewrite <- (map_map IZR (fun x => x / 32768)), <- Hflat in Hscaled.
    replace (flat_map row_of
               (map (fun p => (fst p / 32768, snd p / 32768)) rows))
      with (map (fun x => x / 32768) (flat_map row_of rows)); [exact Hscaled | ].
    clear. induction rows as [ | p rows IH]; [reflexivity | ].
    simpl. rewrite IH. reflexivity.
  - intros Hs. injection Hs as <-. simpl.
    rewrite map_map. exact Hscaled.
Qed.

Lemma load_samples_normalises_sixteen_bit_witness :
  Forall (fun x => -1 <= x < 1)
         (interleaved
            (Stereo [(IZR (-32768) / 32768, IZR 32767 / 32768);
                     (IZR 0 / 32768, IZR 16384 / 32768)])).
Proof.
  apply (load_samples_normalises_sixteen_bit
           [(-32768)%Z; 32767%Z; 0%Z; 16384%Z] 2).
  - repeat constructor; lia.
  - reflexivity.
Defined.

Lemma sum_sq_bounds (chunk : list R) :
  Forall (fun x => -1 <= x <= 1) chunk ->
  0 <= sum_sq chunk <= INR (length chunk).
Proof.
  unfold sum_sq.
  induction 1 as [ | x chunk Hx _ IH]; [simpl; lra | ].
  cbn [map fold_right length]. rewrite S_INR. nra.
Qed.

Lemma rms_of_bounds (chunk : list R) :
  chunk <> [] ->
  Forall (fun x => -1 <= x <= 1) chunk ->
  0 <= rms_of chunk <= 1.
Proof.
  intros Hne Hall. unfold rms_of.
  pose proof (sum_sq_bounds chunk Hall) as [Hlo Hhi].
  assert (Hn : 0 < INR (length chunk)).
  { apply lt_0_INR. destruct chunk; [congruence | simpl; lia]. }
  assert (Hq : 0 <= sum_sq chunk / INR (length chunk) <= 1).
  { split.
    - apply Rmult_le_pos; [exact Hlo | left; apply Rinv_0_lt_compat; exact Hn].
    - apply (Rmult_le_reg_r (INR (length chunk))); [exact Hn | ].
      unfold Rdiv. rewrite Rmult_assoc, Rinv_l by lra. lra. }
  split; [apply sqrt_pos | ].
  rewrite <- sqrt_1. apply sqrt_le_1_alt. lra.
Qed.

Lemma Forall_slice {X : Type} (P : X -> Prop) (xs : list X) (a b : nat) :
  Forall P xs -> Forall P (slice xs a b).
Proof.
  intros H. unfold slice. apply Forall_firstn_of.
  rewrite <- (firstn_skipn a xs) in H. apply Forall_app in H. tauto.
Qed.

(** X12.  For samples between -1 and 1 the amplitude the callback
    stores is between 0 and 1, on every invocation that is asked for at
    least one frame. *)
Theorem amplitude_of_normalised_audio_is_within_unit
        (samples : ndarray) (outdata : buffer) (s : cell) :
  normalised samples ->
  (0 < length outdata)%nat ->
  let '(_, s', _) := audio_callback samples outdata (length outdata) s in
  0 <= current_rms s' <= 1.
Proof.
  intros Hnorm Hframes.
  pose proof (callback_output samples outdata s) as Hout.
  pose proof (callback_effect samples outdata (length outdata) s) as Heff.
  destruct (audio_callback samples outdata (length outdata) s)
    as [[out s'] stop].
  destruct Hout as (_ & _ & Hcarries & Hrms & Hsilent).
  destruct Heff as (Hpos & _).
  destruct (le_lt_dec (len samples) (write_pos s)) as [Hdone | Hleft].
  - rewrite (Hsilent Hdone). lra.
  - apply Nat.leb_gt in Hleft as Hleft'. rewrite Hleft' in Hpos.
    assert (Hcopied : (0 < copied s s')%nat) by (unfold copied; lia).
    rewrite (Hrms Hleft).
    assert (Hchunk :
              length (channel0 (copied s s') out) = copied s s'
              /\ Forall (fun x => -1 <= x <= 1) (channel0 (copied s s') out)).
    { assert (Hend : (write_pos s + copied s s' <= len samples)%nat)
        by (unfold copied; lia).
      destruct samples as [xs | xs]; simpl in Hnorm, Hcarries, Hend.
      - rewrite Hcarries. split.
        + rewrite slice_length by exact Hend. lia.
        + apply Forall_slice, Hnorm.
      - unfold channel0. rewrite Hcarries, map_map. simpl. split.
        + rewrite length_map, slice_length by exact Hend. lia.
        + apply Forall_forall. intros x Hx.
          apply in_map_iff in Hx as (p & <- & Hp).
          pose proof (Forall_slice _ xs (write_pos s)
                        (write_pos s + copied s s') Hnorm) as Hsl.
          rewrite Forall_forall in Hsl. apply (Hsl p Hp). }
    destruct Hchunk as [Hlen Hall].
    apply rms_of_bounds; [ | exact Hall].
    intros Hnil. rewrite Hnil in Hlen. simpl in Hlen. lia.
Qed.

Lemma amplitude_of_normalised_audio_is_within_unit_witness :
  let '(_, s', _) :=
    audio_callback (Stereo [(0.5, -1); (1, 0.25)]) [[0; 0]; [0; 0]; [0; 0]]
                   (length [[0; 0]; [0; 0]; [0; 0]]) fresh in
  0 <= current_rms s' <= 1.
Proof.
  apply (amplitude_of_normalised_audio_is_within_unit
           (Stereo [(0.5, -1); (1, 0.25)]) [[0; 0]; [0; 0]; [0; 0]] fresh).
  - repeat constructor; simpl; lra.
  - simpl. lia.
Defined.

End Decoding.

Section WholePlayback.

Import AudioRouter.

(** The fade-out of the VMC thread, however it is interleaved with
    threads left running: nine frames of its own, one frame for every
    turn such a thread gets in between, the all-zero frame last. *)
Lemma fade_among_state (rest : list event) :
  forall (steps : list nat) (vmc : VMCLipSync.t),
    exists j,
      (j <= ticks_of rest)%nat
      /\ mouth_closed (fade_among rest steps vmc)
      /\ (VMCLipSync.client vmc = true ->
          length (VMCLipSync.sent (fade_among rest steps vmc))
          = (length (VMCLipSync.sent vmc) + j + length steps + 1)%nat
          /\ last (VMCLipSync.sent (fade_among rest steps vmc))
                  VMCLipSync.zero_shapes
             = VMCLipSync.zero_shapes).
Proof.
  induction rest as [ | e rest IH]; intros steps vmc.
  - exists 0%nat. split; [lia | ].
    split; [apply fade_among_closed | ].
    intros Hc. cbn [fade_among].
    destruct (fade_step_frames steps vmc Hc) as (Hs & Hc').
    destruct (close_mouth_state _ Hc') as (Hcs & _ & _).
    rewrite Hcs, Hs. split; [ | apply last_last].
    rewrite !length_app, fade_frames_length. simpl. lia.
  - destruct e as [outdata | | ].
    + destruct (IH steps vmc) as (j & Hj & Hclosed & Hsent).
      exists j. split; [unfold ticks_of in *; simpl; exact Hj | ].
      split; [apply fade_among_closed | exact Hsent].
    + destruct steps as [ | step steps].
      * exists 0%nat. split; [lia | ].
        split; [apply fade_among_closed | ].
        intros Hc. cbn [fade_among].
        destruct (close_mouth_state _ Hc) as (Hcs & _ & _).
        rewrite Hcs. split; [ | apply last_last].
        rewrite length_app. simpl. lia.
      * destruct (IH steps (VMCLipSync.fade_step vmc step))
          as (j & Hj & Hclosed & Hsent).
        exists j. split; [unfold ticks_of in *; simpl; lia | ].
        split; [apply fade_among_closed | ].
        intros Hc.
        destruct (fade_step_frames [step] vmc Hc) as (Hs & Hc').
        simpl in Hs, Hc'.
        destruct (Hsent Hc') as [Hlen Hlast].
        split; [ | exact Hlast].
        cbn [fade_among]. rewrite Hlen, Hs, length_app. simpl. lia.
    + destruct (IH steps (leaked_tick vmc)) as (j & Hj & Hclosed & Hsent).
      exists (S j). split; [unfold ticks_of in *; simpl; lia | ].
      split; [apply fade_among_closed | ].
      intros Hc.
      pose proof (tick_config vmc 0) as (_ & _ & _ & _ & _ & Hcl).
      pose proof (tick_sent vmc 0 Hc) as Hs1.
      unfold leaked_tick in *.
      destruct Hsent as [Hlen Hlast]; [congruence | ].
      split; [ | exact Hlast].
      cbn [fade_among]. unfold leaked_tick.
      rewrite Hlen, Hs1, length_app. simpl. lia.
Qed.

Lemma session_completes (samples : ndarray) (schedule : list event) :
  forall (s : cell) (vmc : VMCLipSync.t),
    callbacks_of schedule <> [] ->
    Forall (fun outdata => (0 < length outdata)%nat) (callbacks_of schedule) ->
    (write_pos s <= len samples)%nat ->
    (len samples - write_pos s <= offered (callbacks_of schedule))%nat ->
    exists s' vmc' k,
      session samples schedule s vmc = (s', vmc', true)
      /\ (k <= ticks_of schedule)%nat
      /\ mouth_closed vmc'
      /\ (VMCLipSync.client vmc = true ->
          length (VMCLipSync.sent vmc')
          = (length (VMCLipSync.sent vmc) + k + 9)%nat
          /\ last (VMCLipSync.sent vmc') VMCLipSync.zero_shapes
             = VMCLipSync.zero_shapes).
Proof.
  induction schedule as [ | e schedule IH]; intros s vmc Hne Hpos Hcur Hoff;
    [simpl in Hne; congruence | ].
  destruct e as [outdata | | ].
  - simpl in Hne, Hpos, Hoff. cbn [session].
    apply Forall_cons_iff in Hpos as [Hfr Hpos'].
    pose proof (callback_effect samples outdata (length outdata) s) as Heff.
    destruct (audio_callback samples outdata (length outdata) s)
      as [[out s1] stop].
    destruct Heff as (Hp & Hstop & _).
    destruct stop.
    + destruct (fade_among_state schedule (seq 0 8) vmc)
        as (j & Hj & Hclosed & Hsent).
      exists s1, (fade_among schedule (seq 0 8) vmc), j.
      split; [reflexivity | ].
      split; [unfold ticks_of in *; simpl; exact Hj | ].
      split; [exact Hclosed | ].
      intros Hc. destruct (Hsent Hc) as [Hlen Hlast].
      split; [rewrite Hlen; simpl; lia | exact Hlast].
    + symmetry in Hstop. apply Nat.leb_gt in Hstop.
      destruct (len samples <=? write_pos s)%nat eqn:Hend.
      { apply Nat.leb_le in Hend. lia. }
      assert (Hp1 : write_pos s1 = (write_pos s + length outdata)%nat) by lia.
      assert (Hne' : callbacks_of schedule <> []).
      { intros Hnil. rewrite Hnil in Hoff. simpl in Hoff. lia. }
      destruct (IH s1 vmc Hne' Hpos') as (s' & vmc' & k & Hrun & Hk & Hrest);
        try lia.
      exists s', vmc', k. split; [exact Hrun | ].
      split; [unfold ticks_of in *; simpl; exact Hk | exact Hrest].
  - simpl in Hne, Hpos, Hoff. cbn [session].
    destruct (IH s (vmc_tick s vmc) Hne Hpos Hcur Hoff)
      as (s' & vmc' & k & Hrun & Hk & Hclosed & Hsent).
    exists s', vmc', (S k). split; [exact Hrun | ].
    split; [unfold ticks_of in *; simpl; lia | ]. split; [exact Hclosed | ].
    intros Hc.
    pose proof (tick_config vmc (current_rms s)) as (_ & _ & _ & _ & _ & Hcl).
    pose proof (tick_sent vmc (current_rms s) Hc) as Hs1.
    unfold vmc_tick in Hsent.
    destruct Hsent as [Hlen Hlast]; [congruence | ].
    split; [ | exact Hlast].
    rewrite Hlen, Hs1, length_app. simpl. lia.
  - simpl in Hne, Hpos, Hoff. cbn [session].
    destruct (IH s (leaked_tick vmc) Hne Hpos Hcur Hoff)
      as (s' & vmc' & k & Hrun & Hk & Hclosed & Hsent).
    exists s', vmc', (S k). split; [exact Hrun | ].
    split; [unfold ticks_of in *; simpl; lia | ]. split; [exact Hclosed | ].
    intros Hc.
    pose proof (tick_config vmc 0) as (_ & _ & _ & _ & _ & Hcl).
    pose proof (tick_sent vmc 0 Hc) as Hs1.
    unfold leaked_tick in Hsent.
    destruct Hsent as [Hlen Hlast]; [congruence | ].
    split; [ | exact Hlast].
    rewrite Hlen, Hs1, length_app. simpl. lia.
Qed.

(** X13.  When both libraries are there and the device asks for
    non-empty output arrays that cover the buffer,
    [play_audio_with_vmc] returns [True] and logs no error; the mouth
    is closed afterwards, and with a client one frame per tick of a
    VMC thread and the nine frames of the fade-out have been sent, the
    last of them all-zero. *)
Theorem playback_with_enough_callbacks_succeeds
        (samples : ndarray) (schedule : list event) (vmc : VMCLipSync.t) :
  callbacks_of schedule <> [] ->
  Forall (fun outdata => (0 < length outdata)%nat) (callbacks_of schedule) ->
  (len samples <= offered (callbacks_of schedule))%nat ->
  exists vmc' records k,
    play_audio_with_vmc true true (Plays samples schedule) vmc
    = Some (vmc', records, true)
    /\ Forall (fun r => fst r <> ERROR) records
    /\ mouth_closed vmc'
    /\ (k <= ticks_of schedule)%nat
    /\ (VMCLipSync.client vmc = true ->
        length (VMCLipSync.sent vmc')
        = (length (VMCLipSync.sent vmc) + k + 9)%nat
        /\ last (VMCLipSync.sent vmc') VMCLipSync.zero_shapes
           = VMCLipSync.zero_shapes).
Proof.
  intros Hne Hpos Hoff.
  destruct (session_completes samples schedule fresh vmc Hne Hpos)
    as (s' & vmc' & k & Hrun & Hk & Hclosed & Hsent); simpl; try lia.
  unfold play_audio_with_vmc. simpl. rewrite Hrun.
  eexists vmc', _, k. split; [reflexivity | ].
  split; [repeat constructor; discriminate | ].
  split; [exact Hclosed | split; [exact Hk | exact Hsent] ].
Qed.

Lemma playback_with_enough_callbacks_succeeds_witness :
  let schedule :=
    [Tick; Callback [[0]; [0]]; Tick; Tick; Callback [[0]; [0]]; Tick] in
  exists vmc' records k,
    play_audio_with_vmc true true
      (Plays (Mono [0.5; -0.5; 0.25]) schedule) VMCLipSync.default
    = Some (vmc', records, true)
    /\ Forall (fun r => fst r <> ERROR) records
    /\ mouth_closed vmc'
    /\ (k <= ticks_of schedule)%nat
    /\ (VMCLipSync.client VMCLipSync.default = true ->
        length (VMCLipSync.sent vmc')
        = (length (VMCLipSync.sent VMCLipSync.default) + k + 9)%nat
        /\ last (VMCLipSync.sent vmc') VMCLipSync.zero_shapes
           = VMCLipSync.zero_shapes).
Proof.
  apply (playback_with_enough_callbacks_succeeds
           (Mono [0.5; -0.5; 0.25])
           [Tick; Callback [[0]; [0]]; Tick; Tick; Callback [[0]; [0]]; Tick]
           VMCLipSync.default).
  - discriminate.
  - repeat constructor.
  - simpl. lia.
Defined.

End WholePlayback.

Section FramesOnTheWire.

Import AudioRouter.

Lemma tick_frames_within (m : R) (vmc : VMCLipSync.t) (rms : R) :
  0 <= m -> frames_within m vmc ->
  frames_within m (fst (VMCLipSync.rms_to_blend_shapes vmc rms)).
Proof.
  intros Hm (Hmax & Hp & Hs). subst m.
  assert (Heq : fst (VMCLipSync.ticks vmc [rms])
                = fst (VMCLipSync.rms_to_blend_shapes vmc rms)).
  { simpl. destruct (VMCLipSync.rms_to_blend_shapes vmc rms). reflexivity. }
  destruct (ticks_weights_within [rms] vmc Hm Hp Hs) as [Hp1 Hs1].
  rewrite Heq in Hp1, Hs1.
  pose proof (tick_config vmc rms) as (_ & Hmax & _).
  split; [symmetry; exact Hmax | split; assumption].
Qed.

Lemma ticks_frames_within (m : R) (samples : list R) :
  forall vmc : VMCLipSync.t,
    0 <= m -> frames_within m vmc ->
    frames_within m (fst (VMCLipSync.ticks vmc samples)).
Proof.
  intros vmc Hm (Hmax & Hp & Hs). subst m.
  destruct (ticks_weights_within samples vmc Hm Hp Hs) as [Hp1 Hs1].
  pose proof (ticks_config samples vmc) as (_ & Hmax & _).
  split; [symmetry; exact Hmax | split; assumption].
Qed.

Lemma close_mouth_frames_within (m : R) (vmc : VMCLipSync.t) :
  0 <= m -> frames_within m vmc ->
  frames_within m (VMCLipSync.close_mouth vmc).
Proof.
  intros Hm (Hmax & Hp & Hs). subst m.
  destruct (close_mouth_weights_within vmc Hm Hs) as (H1 & H2 & H3).
  split; [exact H1 | split; assumption].
Qed.

Lemma fade_steps_frames_within (m : R) (steps : list nat)
      (vmc : VMCLipSync.t) :
  Forall (fun step => (step < 8)%nat) steps ->
  0 <= m -> frames_within m vmc ->
  frames_within m (fold_left VMCLipSync.fade_step steps vmc).
Proof.
  intros Hsteps Hm (Hmax & Hp & Hs). subst m.
  destruct (fade_steps_weights_within steps vmc Hsteps Hm Hp Hs)
    as (H1 & H2 & H3).
  split; [exact H1 | split; assumption].
Qed.

(** The fade keeps the frames within the bound, however threads left
    running take their turns in between. *)
Lemma fade_among_frames_within (m : R) (rest : list event) :
  forall (steps : list nat) (vmc : VMCLipSync.t),
    Forall (fun step => (step < 8)%nat) steps ->
    0 <= m -> frames_within m vmc ->
    frames_within m (fade_among rest steps vmc).
Proof.
  induction rest as [ | e rest IH]; intros steps vmc Hsteps Hm Hin;
    cbn [fade_among].
  - apply close_mouth_frames_within; [exact Hm | ].
    apply fade_steps_frames_within; assumption.
  - destruct e as [outdata | | ].
    + apply IH; assumption.
    + destruct steps as [ | step steps].
      * apply close_mouth_frames_within; assumption.
      * apply Forall_cons_iff in Hsteps as [Hstep Hsteps].
        apply IH; [exact Hsteps | exact Hm | ].
        apply (fade_steps_frames_within m [step] vmc);
          [constructor; [exact Hstep | constructor] | exact Hm | exact Hin].
    + apply IH; [exact Hsteps | exact Hm | ].
      apply tick_frames_within; assumption.
Qed.

(** So does a session, whether it ends or is aborted. *)
Lemma session_frames_within (m : R) (samples : ndarray)
      (schedule : list event) :
  forall (s : cell) (vmc : VMCLipSync.t),
    0 <= m -> frames_within m vmc ->
    frames_within m (snd (fst (session samples schedule s vmc))).
Proof.
  induction schedule as [ | e schedule IH]; intros s vmc Hm Hin;
    cbn [session]; [exact Hin | ].
  destruct e as [outdata | | ].
  - destruct (audio_callback samples outdata (length outdata) s)
      as [[out s1] stop].
    destruct stop; [ | apply IH; assumption].
    cbn [fst snd]. apply fade_among_frames_within; try assumption.
    apply Forall_forall. intros step Hstep. apply in_seq in Hstep. lia.
  - apply IH; [exact Hm | ]. apply tick_frames_within; assumption.
  - apply IH; [exact Hm | ]. apply tick_frames_within; assumption.
Qed.

(** One playback, however it ends, keeps the frames within the
    bound. *)
Lemma play_frames_within (m : R) (has_pydub has_sounddevice : bool)
      (env : environment) (vmc vmc' : VMCLipSync.t)
      (records : list record) (ok : bool) :
  0 <= m -> frames_within m vmc ->
  play_audio_with_vmc has_pydub has_sounddevice env vmc
  = Some (vmc', records, ok) ->
  frames_within m vmc'.
Proof.
  intros Hm Hin Hplay. unfold play_audio_with_vmc in Hplay.
  destruct (negb has_pydub || negb has_sounddevice).
  { injection Hplay as <- _ _. exact Hin. }
  destruct env as [ | samples polls | samples schedule].
  - injection Hplay as <- _ _.
    apply close_mouth_frames_within; assumption.
  - injection Hplay as <- _ _.
    apply close_mouth_frames_within; [exact Hm | ].
    apply ticks_frames_within; assumption.
  - pose proof (session_frames_within m samples schedule fresh vmc Hm Hin)
      as Hs.
    destruct (session samples schedule fresh vmc) as [[s' vmc1] done].
    destruct done; [ | discriminate].
    injection Hplay as <- _ _. exact Hs.
Qed.

Lemma hung_call_frames_within (m : R) (env : environment)
      (vmc : VMCLipSync.t) :
  0 <= m -> frames_within m vmc ->
  frames_within m (fst (fst (hung_call env vmc))).
Proof.
  intros Hm Hin.
  destruct env as [ | samples polls | samples schedule]; simpl;
    try exact Hin.
  pose proof (session_frames_within m samples schedule fresh vmc Hm Hin)
    as Hs.
  destruct (session samples schedule fresh vmc) as [[s' vmc1] done].
  exact Hs.
Qed.

Lemma step_frames_within (m : R) (srv : ApiServer.t)
      (a : ApiServer.action) :
  0 <= m -> frames_within m (ApiServer.vmc srv) ->
  frames_within m (ApiServer.vmc (ApiServer.step srv a)).
Proof.
  intros Hm Hin.
  destruct a as [[ | b audio_data] | | | env | | ]; simpl; try exact Hin.
  - unfold ApiServer.worker_get.
    destruct (ApiServer.in_flight srv); [exact Hin | ].
    destruct (ApiServer.playback_queue srv); exact Hin.
  - unfold ApiServer.worker_resume.
    destruct (ApiServer.in_flight srv); [ | exact Hin].
    destruct (ApiServer.hung srv); [exact Hin | ]. cbv zeta.
    destruct (play_audio_with_vmc _ _ _ (ApiServer.vmc srv))
      as [[[vmc' records] ok] | ] eqn:Hplay.
    + simpl. apply (play_frames_within m _ _ _ _ _ _ _ Hm Hin Hplay).
    + pose proof (hung_call_frames_within
                    m (ApiServer.around srv env) (ApiServer.vmc srv) Hm Hin)
        as Hh.
      destruct (hung_call _ (ApiServer.vmc srv)) as [[vmc' records] rms].
      exact Hh.
  - unfold ApiServer.leaked_tick.
    destruct (0 <? ApiServer.leaked_threads srv)%nat; [ | exact Hin].
    simpl. apply tick_frames_within; assumption.
  - unfold ApiServer.hung_tick.
    destruct (ApiServer.hung srv); [ | exact Hin].
    simpl. apply tick_frames_within; assumption.
Qed.

Lemma run_frames_within (m : R) (actions : list ApiServer.action) :
  forall srv : ApiServer.t,
    0 <= m -> frames_within m (ApiServer.vmc srv) ->
    frames_within m (ApiServer.vmc (ApiServer.run srv actions)).
Proof.
  induction actions as [ | a actions IH]; intros srv Hm Hin; [exact Hin | ].
  change (ApiServer.run srv (a :: actions))
    with (ApiServer.run (ApiServer.step srv a) actions).
  apply IH; [exact Hm | ]. apply step_frames_within; assumption.
Qed.

(** X14.  No frame outside [[0, max_open]] reaches the VMC receiver:
    if the weights of the lip-sync object the server starts with are
    within these bounds, so is every frame sent during any sequence of
    requests, clears, playbacks and turns of VMC threads, whether the
    playbacks succeed, fail, or hang; the frames of threads that
    playbacks have left running, and of the thread of a playback that
    hangs, are among them.  [max_open] itself is never changed.  (One
    call on the lip-sync object is one step, as everywhere in this
    model.) *)
Theorem server_sends_weights_within_max_open
        (has_pydub has_sounddevice : bool) (vmc0 : VMCLipSync.t)
        (actions : list ApiServer.action) :
  0 <= VMCLipSync.max_open vmc0 ->
  weights_within (VMCLipSync.max_open vmc0) (VMCLipSync._prev_shapes vmc0) ->
  Forall (weights_within (VMCLipSync.max_open vmc0)) (VMCLipSync.sent vmc0) ->
  let srv :=
    ApiServer.run (ApiServer.start has_pydub has_sounddevice vmc0) actions in
  VMCLipSync.max_open (ApiServer.vmc srv) = VMCLipSync.max_open vmc0
  /\ Forall (weights_within (VMCLipSync.max_open vmc0))
            (VMCLipSync.sent (ApiServer.vmc srv)).
Proof.
  intros Hm Hp Hs srv.
  destruct (run_frames_within
              (VMCLipSync.max_open vmc0) actions
              (ApiServer.start has_pydub has_sounddevice vmc0) Hm)
    as (H1 & _ & H3).
  - split; [reflexivity | split; assumption].
  - split; assumption.
Qed.

Lemma server_sends_weights_within_max_open_witness :
  let actions :=
    [ApiServer.PlayBytes [Byte.x01]; ApiServer.PlayBytes [Byte.x02];
     ApiServer.WorkerGet;
     ApiServer.WorkerResume (StreamRaises (Mono [0.5]) 2);
     ApiServer.LeakedTick; ApiServer.WorkerGet;
     ApiServer.WorkerResume
       (Plays (Mono [0.5; 0.25]) [Callback [[0]]; Leaked; Tick]);
     ApiServer.HungTick] in
  let srv :=
    ApiServer.run (ApiServer.start true true VMCLipSync.default) actions in
  VMCLipSync.max_open (ApiServer.vmc srv)
  = VMCLipSync.max_open VMCLipSync.default
  /\ Forall (weights_within (VMCLipSync.max_open VMCLipSync.default))
            (VMCLipSync.sent (ApiServer.vmc srv)).
Proof.
  apply (server_sends_weights_within_max_open true true VMCLipSync.default
           [ApiServer.PlayBytes [Byte.x01]; ApiServer.PlayBytes [Byte.x02];
            ApiServer.WorkerGet;
            ApiServer.WorkerResume (StreamRaises (Mono [0.5]) 2);
            ApiServer.LeakedTick; ApiServer.WorkerGet;
            ApiServer.WorkerResume
              (Plays (Mono [0.5; 0.25]) [Callback [[0]]; Leaked; Tick]);
            ApiServer.HungTick]).
  - simpl. lra.
  - intros v. destruct v; simpl; lra.
  - constructor.
Defined.

End FramesOnTheWire.

Section SpeakerDetection.

Import Devices.

Variable lower : string -> string.

Lemma key_le_iff (a b : nat * device) :
  key_le a b = true
  <-> (max_output_channels (snd b) < max_output_channels (snd a))%nat
      \/ (max_output_channels (snd a) = max_output_channels (snd b)
          /\ (fst a <= fst b)%nat).
Proof.
  unfold key_le.
  rewrite orb_true_iff, andb_true_iff, Nat.ltb_lt, Nat.eqb_eq, Nat.leb_le.
  reflexivity.
Qed.

Lemma insert_not_nil (a : nat * device) (xs : list (nat * device)) :
  insert a xs <> [].
Proof. destruct xs as [ | b xs]; simpl; [ | destruct (key_le a b)]; discriminate. Qed.

Lemma sort_nil_iff (xs : list (nat * device)) : sort xs = [] <-> xs = [].
Proof.
  split; [ | intros ->; reflexivity].
  destruct xs as [ | a xs]; [reflexivity | ].
  simpl. intros H. exfalso. exact (insert_not_nil _ _ H).
Qed.

(** The sorted list begins with an element that is least for the sort
    key. *)
Lemma sort_head_is_least (xs : list (nat * device)) :
  forall x rest,
    sort xs = x :: rest ->
    In x xs /\ forall y, In y xs -> key_le x y = true.
Proof.
  induction xs as [ | a xs IH]; intros x rest Hsort; [discriminate | ].
  simpl in Hsort.
  destruct (sort xs) as [ | b sorted] eqn:Hs.
  - apply (proj1 (sort_nil_iff _)) in Hs. subst xs. simpl in Hsort.
    injection Hsort as <- _. split; [left; reflexivity | ].
    intros y [<- | []]. apply key_le_iff. right. split; lia.
  - destruct (IH b sorted eq_refl) as [Hin Hleast].
    simpl in Hsort. destruct (key_le a b) eqn:Hab.
    + injection Hsort as <- _. split; [left; reflexivity | ].
      intros y [<- | Hy]; [apply key_le_iff; right; split; lia | ].
      specialize (Hleast y Hy).
      apply key_le_iff in Hab, Hleast. apply key_le_iff. lia.
    + injection Hsort as <- _. split; [right; exact Hin | ].
      intros y [<- | Hy]; [ | apply Hleast, Hy].
      apply key_le_iff.
      assert (Hn : ~ ((max_output_channels (snd b)
                       < max_output_channels (snd a))%nat
                      \/ (max_output_channels (snd a)
                          = max_output_channels (snd b)
                          /\ (fst a <= fst b)%nat))).
      { intros H. apply key_le_iff in H. congruence. }
      lia.
Qed.

Lemma in_enumerate_from {X : Type} (xs : list X) :
  forall (k i : nat) (x : X),
    In (i, x) (enumerate_from k xs)
    <-> (k <= i)%nat /\ nth_error xs (i - k) = Some x.
Proof.
  induction xs as [ | y xs IH]; intros k i x; simpl.
  - split; [intros [] | intros [_ H]]. destruct (i - k)%nat; discriminate.
  - rewrite IH. split.
    + intros [H | [Hk Hn]].
      * injection H as <- <-. rewrite Nat.sub_diag. auto.
      * split; [lia | ].
        replace (i - k)%nat with (S (i - S k)) by lia. exact Hn.
    + intros [Hk Hn]. destruct (Nat.eq_dec i k) as [-> | Hneq].
      * rewrite Nat.sub_diag in Hn. simpl in Hn. left. congruence.
      * right. split; [lia | ].
        replace (i - k)%nat with (S (i - S k)) in Hn by lia. exact Hn.
Qed.

Lemma in_speaker_candidates (devices : list device) (i : nat) (d : device) :
  In (i, d) (speaker_candidates lower devices)
  <-> nth_error devices i = Some d /\ is_speaker lower d = true.
Proof.
  unfold speaker_candidates. rewrite filter_In, in_enumerate_from.
  simpl. rewrite Nat.sub_0_r. split; [tauto | ].
  intros [H1 H2]. split; [split; [lia | exact H1] | exact H2].
Qed.

(** X15.  The device that [_detect_devices] selects is an output
    device whose lower-cased name contains "speaker" and neither
    "steam" nor "oculus", and no other such device has more output
    channels, or as many and a smaller index.  The argument
    [speaker_name] has no influence. *)
Theorem detected_speaker_is_the_best_candidate
        (speaker_name : option string) (devices : list device) (idx : nat) :
  _detect_devices lower speaker_name devices = Some idx ->
  exists d,
    nth_error devices idx = Some d
    /\ (0 < max_output_channels d)%nat
    /\ contains "speaker" (lower (name d)) = true
    /\ contains "steam" (lower (name d)) = false
    /\ contains "oculus" (lower (name d)) = false
    /\ forall j d',
        nth_error devices j = Some d' ->
        is_speaker lower d' = true ->
        (max_output_channels d' < max_output_channels d)%nat
        \/ (max_output_channels d' = max_output_channels d /\ (idx <= j)%nat).
Proof.
  unfold _detect_devices. intros Hsel.
  destruct (sort (speaker_candidates lower devices))
    as [ | [i d] rest] eqn:Hs; [discriminate | ].
  injection Hsel as <-. simpl.
  destruct (sort_head_is_least _ _ _ Hs) as [Hin Hleast].
  apply in_speaker_candidates in Hin as [Hnth Hspk].
  exists d. split; [exact Hnth | ].
  unfold is_speaker in Hspk.
  rewrite !andb_true_iff, !negb_true_iff, Nat.ltb_lt in Hspk.
  destruct Hspk as (Hout & (Hsp & Hst) & Hoc).
  repeat (split; [assumption | ]).
  intros j d' Hj Hd'.
  assert (Hc : In (j, d') (speaker_candidates lower devices))
    by (apply in_speaker_candidates; auto).
  specialize (Hleast _ Hc). apply key_le_iff in Hleast. simpl in Hleast. lia.
Qed.

(** X16.  [_detect_devices] leaves the speaker unset exactly when no
    device passes the two tests. *)
Theorem no_speaker_detected_iff_no_candidate
        (speaker_name : option string) (devices : list device) :
  _detect_devices lower speaker_name devices = None
  <-> forall d, In d devices -> is_speaker lower d = false.
Proof.
  unfold _detect_devices.
  destruct (sort (speaker_candidates lower devices))
    as [ | x rest] eqn:Hs.
  - apply (proj1 (sort_nil_iff _)) in Hs. split; [intros _ | reflexivity].
    intros d Hd. apply In_nth_error in Hd as [i Hi].
    destruct (is_speaker lower d) eqn:Hspk; [ | reflexivity].
    assert (Hc : In (i, d) (speaker_candidates lower devices))
      by (apply in_speaker_candidates; auto).
    rewrite Hs in Hc. destruct Hc.
  - split; [discriminate | ]. intros Hnone. exfalso.
    destruct (sort_head_is_least _ _ _ Hs) as [Hin _].
    destruct x as [i d]. apply in_speaker_candidates in Hin as [Hnth Hspk].
    apply nth_error_In in Hnth. rewrite (Hnone d Hnth) in Hspk. discriminate.
Qed.

End SpeakerDetection.

Lemma detected_speaker_is_the_best_candidate_witness :
  let devices :=
    [Devices.mkDevice "hdmi out" 2; Devices.mkDevice "steam speakers" 8;
     Devices.mkDevice "speakers (realtek)" 2;
     Devices.mkDevice "usb speaker" 6; Devices.mkDevice "speaker mic" 0] in
  exists d,
    nth_error devices 3 = Some d
    /\ (0 < Devices.max_output_channels d)%nat
    /\ Devices.contains "speaker" (Devices.name d) = true
    /\ Devices.contains "steam" (Devices.name d) = false
    /\ Devices.contains "oculus" (Devices.name d) = false
    /\ forall j d',
        nth_error devices j = Some d' ->
        Devices.is_speaker (fun s => s) d' = true ->
        (Devices.max_output_channels d' < Devices.max_output_channels d)%nat
        \/ (Devices.max_output_channels d' = Devices.max_output_channels d
            /\ (3 <= j)%nat).
Proof.
  apply (detected_speaker_is_the_best_candidate (fun s => s) None
           [Devices.mkDevice "hdmi out" 2; Devices.mkDevice "steam speakers" 8;
            Devices.mkDevice "speakers (realtek)" 2;
            Devices.mkDevice "usb speaker" 6; Devices.mkDevice "speaker mic" 0]
           3).
  reflexivity.
Defined.

Section BindRetries.

Import Binding.

(** X17.  The bind loop of [start_api_server] gives up, raising the last
    [OSError] again, exactly when [site.start()] fails five times in a
    row; it has then slept 1, 2, 4 and 8 seconds, and not after the
    fifth failure. *)
Theorem bind_raises_iff_five_attempts_fail (site_start : nat -> bool) :
  (fst (bind site_start) = Raised
   <-> forall attempt, (attempt < max_retries)%nat ->
                       site_start attempt = false)
  /\ (fst (bind site_start) = Raised ->
      snd (bind site_start) = [1; 2; 4; 8]%nat)
  /\ (fst (bind site_start) <> Raised -> fst (bind site_start) = Started).
Proof.
  unfold bind, max_retries. simpl. unfold bind_step. simpl.
  destruct (site_start 0%nat) eqn:H0; simpl.
  { repeat split; try discriminate.
    intros H. specialize (H 0%nat). rewrite H0 in H.
    discriminate H. lia. }
  destruct (site_start 1%nat) eqn:H1; simpl.
  { repeat split; try discriminate.
    intros H. specialize (H 1%nat). rewrite H1 in H.
    discriminate H. lia. }
  destruct (site_start 2%nat) eqn:H2; simpl.
  { repeat split; try discriminate.
    intros H. specialize (H 2%nat). rewrite H2 in H.
    discriminate H. lia. }
  destruct (site_start 3%nat) eqn:H3; simpl.
  { repeat split; try discriminate.
    intros H. specialize (H 3%nat). rewrite H3 in H.
    discriminate H. lia. }
  destruct (site_start 4%nat) eqn:H4; simpl.
  { repeat split; try discriminate.
    intros H. specialize (H 4%nat). rewrite H4 in H.
    discriminate H. lia. }
  repeat split; try congruence.
  intros _ attempt Hlt.
  destruct attempt as [ | [ | [ | [ | [ | attempt]]]]]; try assumption. lia.
Qed.

(** X18.  When [site.start()] first succeeds in turn [attempt], the loop
    has slept after each earlier failure, a second after the first and
    twice as long after each further one. *)
Theorem bind_backs_off_exponentially (site_start : nat -> bool)
        (attempt : nat) :
  (attempt < max_retries)%nat ->
  site_start attempt = true ->
  (forall earlier, (earlier < attempt)%nat -> site_start earlier = false) ->
  bind site_start = (Started, map (Nat.pow 2) (seq 0 attempt)).
Proof.
  unfold max_retries. intros Hlt Hok Hfail.
  unfold bind, max_retries. simpl. unfold bind_step. simpl.
  destruct attempt as [ | [ | [ | [ | [ | attempt]]]]]; [ | | | | | lia].
  - rewrite Hok. reflexivity.
  - rewrite (Hfail 0%nat) by lia. simpl. rewrite Hok. reflexivity.
  - rewrite (Hfail 0%nat) by lia. simpl. rewrite (Hfail 1%nat) by lia. simpl.
    rewrite Hok. reflexivity.
  - rewrite (Hfail 0%nat) by lia. simpl. rewrite (Hfail 1%nat) by lia. simpl.
    rewrite (Hfail 2%nat) by lia. simpl. rewrite Hok. reflexivity.
  - rewrite (Hfail 0%nat) by lia. simpl. rewrite (Hfail 1%nat) by lia. simpl.
    rewrite (Hfail 2%nat) by lia. simpl. rewrite (Hfail 3%nat) by lia. simpl.
    rewrite Hok. reflexivity.
Qed.

End BindRetries.

Lemma bind_backs_off_exponentially_witness :
  Binding.bind (fun attempt => (2 <=? attempt)%nat)
  = (Binding.Started, [1; 2]%nat).
Proof.
  apply (bind_backs_off_exponentially (fun attempt => (2 <=? attempt)%nat) 2).
  - unfold Binding.max_retries. lia.
  - reflexivity.
  - intros [ | [ | earlier]] H; [reflexivity | reflexivity | lia].
Defined.

Section ClearingTheQueue.

Import ApiServer.

Lemma subsequence_nil_any {X : Type} (ys : list X) : subsequence [] ys.
Proof.
  induction ys; [apply subsequence_nil | apply subsequence_skip; assumption].
Qed.

Lemma subsequence_app {X : Type} (xs ys xs' ys' : list X) :
  subsequence xs ys -> subsequence xs' ys' ->
  subsequence (xs ++ xs') (ys ++ ys').
Proof.
  induction 1; intros H'; simpl;
    [exact H' | apply subsequence_skip; auto | apply subsequence_keep; auto].
Qed.

Lemma subsequence_refl {X : Type} (xs : list X) : subsequence xs xs.
Proof.
  induction xs; [apply subsequence_nil | apply subsequence_keep; assumption].
Qed.

Lemma subsequence_trans {X : Type} (ys zs : list X) :
  subsequence ys zs -> forall xs, subsequence xs ys -> subsequence xs zs.
Proof.
  induction 1 as [ | z ys zs H IH | y ys zs H IH]; intros xs Hxs.
  - exact Hxs.
  - apply subsequence_skip, IH, Hxs.
  - inversion Hxs; subst.
    + apply subsequence_skip, IH. assumption.
    + apply subsequence_keep, IH. assumption.
Qed.

Lemma subsequence_Forall {X : Type} (P : X -> Prop) (xs ys : list X) :
  subsequence xs ys -> Forall P ys -> Forall P xs.
Proof.
  induction 1; intros Hall; [apply Forall_nil | | ].
  - apply IHsubsequence. inversion Hall; assumption.
  - inversion Hall; subst. constructor; auto.
Qed.

Lemma begun_app (xs ys : list observation) :
  begun (xs ++ ys) = begun xs ++ begun ys.
Proof. apply flat_map_app. Qed.

Lemma accepted_nonempty (actions : list action) :
  Forall (fun audio_data => audio_data <> []) (accepted actions).
Proof.
  induction actions as [ | [[ | b audio_data] | | | env | | ] actions IH];
    simpl; try assumption; [constructor | ].
  constructor; [discriminate | assumption].
Qed.

(** What one action does to the items begun and the items waiting. *)
Lemma step_keeps_order (srv : t) (a : action) :
  exists kept,
    subsequence kept (playback_queue srv)
    /\ begun (trace (step srv a)) ++ playback_queue (step srv a)
       = begun (trace srv) ++ kept ++ accepted [a]
    /\ (length (playback_queue srv)
        = length kept + cleared_total srv [a])%nat.
Proof.
  destruct a as [[ | b audio_data] | | | env | | ]; simpl.
  - exists (playback_queue srv). rewrite app_nil_r.
    split; [apply subsequence_refl | ]. split; [reflexivity | lia].
  - exists (playback_queue srv).
    split; [apply subsequence_refl | ]. split; [reflexivity | lia].
  - exists []. rewrite !app_nil_r.
    split; [apply subsequence_nil_any | ]. split; [reflexivity | simpl; lia].
  - exists (playback_queue srv). rewrite app_nil_r.
    split; [apply subsequence_refl | ]. split; [ | lia].
    unfold worker_get.
    destruct (in_flight srv); [reflexivity | ].
    destruct (playback_queue srv) as [ | audio_data rest] eqn:Hq;
      [rewrite Hq; reflexivity | ].
    simpl. rewrite begun_app, <- app_assoc. reflexivity.
  - exists (playback_queue srv). rewrite app_nil_r.
    split; [apply subsequence_refl | ]. split; [ | lia].
    unfold worker_resume.
    destruct (in_flight srv); [ | reflexivity].
    destruct (hung srv); [reflexivity | ]. cbv zeta.
    destruct (AudioRouter.play_audio_with_vmc _ _ _ (vmc srv))
      as [[[vmc' records] ok] | ].
    + simpl. rewrite begun_app. simpl. rewrite app_nil_r. reflexivity.
    + destruct (AudioRouter.hung_call _ (vmc srv)) as [[vmc' records] rms].
      reflexivity.
  - exists (playback_queue srv). rewrite app_nil_r.
    split; [apply subsequence_refl | ]. split; [ | lia].
    unfold leaked_tick. destruct (0 <? leaked_threads srv)%nat; reflexivity.
  - exists (playback_queue srv). rewrite app_nil_r.
    split; [apply subsequence_refl | ]. split; [ | lia].
    unfold hung_tick. destruct (hung srv); reflexivity.
Qed.

Lemma run_keeps_order (actions : list action) :
  forall (srv : t) (arrived : list bytes),
    subsequence (begun (trace srv) ++ playback_queue srv) arrived ->
    subsequence (begun (trace (run srv actions))
                 ++ playback_queue (run srv actions))
                (arrived ++ accepted actions).
Proof.
  induction actions as [ | a actions IH]; intros srv arrived Hsub.
  - simpl. rewrite app_nil_r. exact Hsub.
  - change (run srv (a :: actions)) with (run (step srv a) actions).
    replace (accepted (a :: actions)) with (accepted [a] ++ accepted actions)
      by (destruct a as [[ | b audio_data] | | | env | | ]; reflexivity).
    rewrite app_assoc. apply IH.
    destruct (step_keeps_order srv a) as (kept & Hkept & Heq & _).
    rewrite Heq, app_assoc. apply subsequence_app; [ | apply subsequence_refl].
    apply (subsequence_trans _ _ Hsub).
    apply subsequence_app; [apply subsequence_refl | exact Hkept].
Qed.

Lemma run_counts (actions : list action) :
  forall srv : t,
    (length (begun (trace (run srv actions)))
     + length (playback_queue (run srv actions))
     + cleared_total srv actions
     = length (begun (trace srv)) + length (playback_queue srv)
       + length (accepted actions))%nat.
Proof.
  induction actions as [ | a actions IH]; intros srv; [simpl; lia | ].
  change (run srv (a :: actions)) with (run (step srv a) actions).
  replace (accepted (a :: actions)) with (accepted [a] ++ accepted actions)
    by (destruct a as [[ | b audio_data] | | | env | | ]; reflexivity).
  replace (cleared_total srv (a :: actions))
    with (cleared_total srv [a] + cleared_total (step srv a) actions)%nat
    by (simpl; lia).
  specialize (IH (step srv a)).
  destruct (step_keeps_order srv a) as (kept & _ & Heq & Hlen).
  apply (f_equal (@length bytes)) in Heq.
  rewrite !length_app in Heq. rewrite length_app. lia.
Qed.

(** X19.  Whatever requests, clears and worker turns a server has seen,
    the items its worker has begun to play, followed by the items still
    waiting, are the accepted bodies in the order of their arrival with
    some left out; none of them is empty. *)
Theorem begun_items_are_accepted_items_in_order
        (has_pydub has_sounddevice : bool) (vmc0 : VMCLipSync.t)
        (actions : list action) :
  let srv := run (start has_pydub has_sounddevice vmc0) actions in
  subsequence (begun (trace srv) ++ playback_queue srv) (accepted actions)
  /\ Forall (fun audio_data => audio_data <> [])
            (begun (trace srv) ++ playback_queue srv).
Proof.
  intros srv.
  assert (Hsub : subsequence (begun (trace srv) ++ playback_queue srv)
                             (accepted actions)).
  { apply (run_keeps_order actions (start has_pydub has_sounddevice vmc0) []).
    apply subsequence_nil. }
  split; [exact Hsub | ].
  apply (subsequence_Forall _ _ _ Hsub), accepted_nonempty.
Qed.

(** X20.  Every accepted body is accounted for: it has been begun by
    the worker, or it waits in the queue, or a clear has counted it in
    the number it returned. *)
Theorem every_accepted_item_is_begun_waiting_or_cleared
        (has_pydub has_sounddevice : bool) (vmc0 : VMCLipSync.t)
        (actions : list action) :
  let srv := run (start has_pydub has_sounddevice vmc0) actions in
  (length (accepted actions)
   = length (begun (trace srv)) + length (playback_queue srv)
     + cleared_total (start has_pydub has_sounddevice vmc0) actions)%nat.
Proof.
  intros srv.
  pose proof (run_counts actions (start has_pydub has_sounddevice vmc0)) as H.
  simpl in H. unfold srv. lia.
Qed.

(** X21.  A clear while an item plays does not disturb it: the
    playback returns as it would have, with the same observations and
    the same lip-sync state; the clear answers with the number of
    waiting items, which are gone, so the worker then waits. *)
Theorem clear_does_not_interrupt_the_playing_item
        (srv : t) (env : AudioRouter.environment) :
  let cleared := fst (handle_clear srv) in
  trace (worker_resume cleared env) = trace (worker_resume srv env)
  /\ vmc (worker_resume cleared env) = vmc (worker_resume srv env)
  /\ in_flight (worker_resume cleared env) = in_flight (worker_resume srv env)
  /\ snd (handle_clear srv) = length (playback_queue srv)
  /\ playback_queue (worker_resume cleared env) = []
  /\ worker_get (worker_resume cleared env) = worker_resume cleared env.
Proof.
  simpl. unfold worker_resume, around. simpl.
  destruct (in_flight srv) as [audio_data | ] eqn:Hfl.
  - destruct (hung srv) as [rms | ] eqn:Hh.
    + repeat split; try reflexivity. unfold worker_get. simpl.
      rewrite Hfl. reflexivity.
    + destruct (AudioRouter.play_audio_with_vmc _ _ _ (vmc srv))
        as [[[vmc' records] ok] | ]; simpl.
      * repeat split; reflexivity.
      * destruct (AudioRouter.hung_call _ (vmc srv))
          as [[vmc' records] rms].
        repeat split; reflexivity.
  - repeat split; try reflexivity. unfold worker_get. simpl.
    rewrite Hfl. reflexivity.
Qed.

Lemma drain_prefix (envs : list AudioRouter.environment) :
  forall srv : t,
    in_flight srv = None ->
    (length envs <= length (playback_queue srv))%nat ->
    (forall env vmc,
        In env envs ->
        AudioRouter.play_audio_with_vmc
          (HAS_PYDUB srv) (HAS_SOUNDDEVICE srv) env vmc <> None) ->
    in_flight (drain srv envs) = None
    /\ playback_queue (drain srv envs)
       = skipn (length envs) (playback_queue srv)
    /\ begun (trace (drain srv envs))
       = begun (trace srv) ++ firstn (length envs) (playback_queue srv).
Proof.
  induction envs as [ | env envs IH]; intros srv Hidle Hlen Hret.
  - unfold drain. simpl. rewrite app_nil_r. auto.
  - destruct (playback_queue srv) as [ | audio_data rest] eqn:Hq;
      [simpl in Hlen; lia | ].
    rewrite drain_cons. unfold playback_worker.
    rewrite (worker_get_takes srv audio_data rest Hidle Hq).
    set (playing := mk _ _ _ _ _ _ _ _ _).
    destruct (AudioRouter.play_audio_with_vmc
                (HAS_PYDUB playing) (HAS_SOUNDDEVICE playing)
                (around playing env) (vmc playing))
      as [[[vmc' records] ok] | ] eqn:Hplay.
    + rewrite (worker_resume_returns playing env audio_data vmc' records ok
                                     eq_refl eq_refl Hplay).
      unfold playing. simpl.
      match goal with
      | |- context [drain ?srv1 envs] =>
          destruct (IH srv1) as (Hidle' & Hq' & Htr)
      end; simpl; auto.
      { simpl in Hlen. lia. }
      { intros e v Hin. apply Hret. right. exact Hin. }
      split; [exact Hidle' | ]. split; [exact Hq' | ].
      rewrite Htr. simpl. rewrite !begun_app. simpl.
      rewrite <- !app_assoc. reflexivity.
    + exfalso. revert Hplay. simpl. unfold around.
      destruct (leaked_threads playing =? 0)%nat.
      * apply (returns_whatever_the_threads _ _ env (vmc srv) (vmc srv)).
        apply Hret. left. reflexivity.
      * apply Hret. left. reflexivity.
Qed.

(** X22.  The position that [handle_play_bytes] answers with is the
    item's place in the line of waiting items: with an idle worker and
    no clear, the worker takes it up after [position - 1] playbacks
    have returned, having begun all the earlier items in their order. *)
Theorem position_is_the_place_in_line
        (srv srv' : t) (audio_data : bytes) (position : nat)
        (envs : list AudioRouter.environment) :
  in_flight srv = None ->
  handle_play_bytes srv audio_data = (srv', Some position) ->
  S (length envs) = position ->
  (forall env vmc,
      In env envs ->
      AudioRouter.play_audio_with_vmc
        (HAS_PYDUB srv) (HAS_SOUNDDEVICE srv) env vmc <> None) ->
  let taken := worker_get (drain srv' envs) in
  in_flight taken = Some audio_data
  /\ playback_queue taken = []
  /\ begun (trace taken)
     = begun (trace srv) ++ playback_queue srv ++ [audio_data].
Proof.
  intros Hidle Hput Hpos Hret.
  destruct audio_data as [ | b audio_data]; [discriminate | ].
  simpl in Hput. injection Hput as <- <-. injection Hpos as Hpos.
  match goal with
  | |- context [drain ?s envs] => set (queued := s)
  end.
  destruct (drain_prefix envs queued) as (Hidle' & Hq' & Htr);
    [exact Hidle | simpl; rewrite length_app; simpl; lia | exact Hret | ].
  simpl in Hq', Htr.
  rewrite Hpos, skipn_app, skipn_all, Nat.sub_diag in Hq'. simpl in Hq'.
  rewrite Hpos, firstn_app, firstn_all, Nat.sub_diag in Htr. simpl in Htr.
  rewrite app_nil_r in Htr.
  intros taken. unfold taken, worker_get. rewrite Hidle', Hq'. simpl.
  repeat split. rewrite begun_app, Htr. simpl.
  rewrite <- app_assoc. reflexivity.
Qed.

End ClearingTheQueue.

Lemma position_is_the_place_in_line_witness :
  let srv :=
    ApiServer.mk true true [[Byte.x01]] None VMCLipSync.default [] [] 0 None in
  let taken :=
    ApiServer.worker_get
      (ApiServer.drain
         (fst (ApiServer.handle_play_bytes srv [Byte.x02]))
         [AudioRouter.DecodeRaises]) in
  ApiServer.in_flight taken = Some [Byte.x02]
  /\ ApiServer.playback_queue taken = []
  /\ begun (ApiServer.trace taken) = [] ++ [[Byte.x01]] ++ [[Byte.x02]].
Proof.
  apply (position_is_the_place_in_line
           (ApiServer.mk true true [[Byte.x01]] None VMCLipSync.default [] []
                        0 None)
           _ [Byte.x02] 2 [AudioRouter.DecodeRaises]);
    try reflexivity.
  intros env vmc [<- | []]. discriminate.
Defined.

Lemma worker_drains_queue_witness :
  let srv :=
    ApiServer.mk true true [[Byte.x01]; [Byte.x02]] None VMCLipSync.default
                 [] [] 0 None in
  let envs := [AudioRouter.DecodeRaises; AudioRouter.DecodeRaises] in
  ApiServer.playback_queue (ApiServer.drain srv envs) = []
  /\ ApiServer.in_flight (ApiServer.drain srv envs) = None
  /\ exists oks,
      length oks = length envs
      /\ ApiServer.trace (ApiServer.drain srv envs)
         = ApiServer.trace srv
           ++ one_by_one (combine (ApiServer.playback_queue srv) oks).
Proof.
  apply (worker_drains_queue
           [AudioRouter.DecodeRaises; AudioRouter.DecodeRaises]
           (ApiServer.mk true true [[Byte.x01]; [Byte.x02]] None
                         VMCLipSync.default [] [] 0 None)).
  - reflexivity.
  - reflexivity.
  - intros env vmc [<- | [<- | []]]; discriminate.
Defined.
